(** * roleTerminal: the command terminal of [private/scripts/feed.js]

    A shallow embedding of the client terminal core: the command queue and
    its dispatcher, the multi-step command session, the autocomplete
    matchers, the history navigator and the morse scheduler.

    Module-level variables of [feed.js] are the fields of one [state]
    record; functions that read or write them are written in a small state
    monad.  [setTimeout] is embedded as a table of pending timers over a
    logical clock, and every call into a collaborator module that is not
    part of [feed.js] (messenger, domManipulator, commandHandler, the audio
    gain node) is recorded, with its time, in a log.

    Strings are strings of 8-bit characters; on ASCII text the string
    operations below are those of JavaScript.  Numbers that [feed.js] only
    counts with (timer handles, offsets, the step cursor, the history
    pointer) are integers. *)

From Stdlib Require Import ZArith List String Ascii Bool Lia.
Import ListNotations.

Local Open Scope string_scope.
Local Open Scope list_scope.
Local Open Scope Z_scope.

(** ** JavaScript strings and arrays *)

(** [s.charAt(i)]: the one-character string at index [i], or the empty
    string when [i] is out of range. *)
Definition charAt (i : nat) (s : string) : string :=
  match String.get i s with
  | Some c => String c EmptyString
  | None => EmptyString
  end.

(** [s.slice(1)] *)
Definition slice1 (s : string) : string :=
  match s with
  | EmptyString => EmptyString
  | String _ r => r
  end.

(** [s.split(' ')]: never empty, consecutive separators give empty tokens. *)
Fixpoint split (sep : ascii) (s : string) : list string :=
  match s with
  | EmptyString => [EmptyString]
  | String c r =>
      if Ascii.eqb c sep then EmptyString :: split sep r
      else match split sep r with
           | h :: t => String c h :: t
           | [] => [String c EmptyString]
           end
  end.

(** [a.join(sep)] *)
Definition join (sep : string) (a : list string) : string := String.concat sep a.

(** [s.replace(/c/g, '')] for a single character [c]. *)
Fixpoint removeAll (c : ascii) (s : string) : string :=
  match s with
  | EmptyString => EmptyString
  | String x r => if Ascii.eqb x c then removeAll c r else String x (removeAll c r)
  end.

(** The characters of a string, in index order. *)
Definition chars (s : string) : list ascii := list_ascii_of_string s.

(** [s.length] as a JavaScript number. *)
Definition jsLength (s : string) : Z := Z.of_nat (String.length s).

(** [a.splice(0, n)] seen from the array: the first [n] entries go, a
    count beyond the length empties it, a negative count removes nothing. *)
Definition splice0 {A} (n : Z) (a : list A) : list A := skipn (Z.to_nat n) a.

(** ** Messages, collaborator calls and timers *)

Record message := mkMessage {
  text : list string;
  text_se : option (list string)
}.

Definition textMessage (lines : list string) : message :=
  {| text := lines; text_se := None |}.

(** What the queue holds as [command]: a command name, or the function
    object [getCommand('msg').func] that chat mode enqueues. *)
Inductive cmdRef :=
| CmdName (name : string)
| CmdFunc (owner : string).

(** Calls that leave [feed.js]. *)
Inductive event :=
| QueueMessage (m : message)
| TriggerCommand (cmd : cmdRef) (cmdParams : option (list string))
| TriggerCommandStep (onStepNow : Z) (cmdParams : option (list string))
| AbortCommand (cmd : string)
| ResetCommand (aborted : bool)
| SetGain (value : Z)
| ClearInput
| SetCommandInput (newText : option string)
| ReplaceLastInputPhrase (newText : string)
| RemoveSubMenu
| ClearModeText
| ChangeModeText
| ResizeInput
| UpdateThisCommandItem
| FocusInput
| ScrollText (down : bool) (full : bool)
| PreventDefault.

(** The functions handed to [setTimeout], with the arguments bound at the
    call.  [finishSoundQueue] is a closure over [morseCode] and [silent]. *)
Inductive callback :=
| CbSetGain (value : Z)
| CbFinishSoundQueue (timeouts : Z) (morseCode : string) (silent : bool)
| CbConsumeCommandQueue.

Record timer := mkTimer {
  timerId : Z;
  fireAt : Z;
  timerCb : callback
}.

(** ** The state owned by, or visible to, [feed.js] *)

Module Stored.
(** An entry of [commandQueue]. *)
Record t := mk {
  command : cmdRef;
  data : list string;
  commandMsg : option message
}.
End Stored.

(** [commandHandler.commandHelper], the record of the active multi-step
    command, restricted to the fields [feed.js] reads or writes. *)
Record commandHelper := mkHelper {
  command : option string;
  onStep : Z;
  fallbackStep : Z;
  keysBlocked : bool;
  hideInput : bool
}.

Record state := mkState {
  commandQueue : list Stored.t;
  commmandUsed : bool;
  soundQueue : list Z;
  soundTimeout : Z;
  previousCommandPointer : Z;
  keyPressed : bool;
  ctrlPressed : bool;
  altPressed : bool;
  helper : commandHelper;
  commandHistory : list string;
  now : Z;
  timers : list timer;
  nextTimerId : Z;
  log : list (Z * event)
}.

Definition set_commandQueue v (s : state) : state :=
  mkState v (commmandUsed s) (soundQueue s) (soundTimeout s) (previousCommandPointer s)
    (keyPressed s) (ctrlPressed s) (altPressed s) (helper s) (commandHistory s)
    (now s) (timers s) (nextTimerId s) (log s).
Definition set_commmandUsed v (s : state) : state :=
  mkState (commandQueue s) v (soundQueue s) (soundTimeout s) (previousCommandPointer s)
    (keyPressed s) (ctrlPressed s) (altPressed s) (helper s) (commandHistory s)
    (now s) (timers s) (nextTimerId s) (log s).
Definition set_soundQueue v (s : state) : state :=
  mkState (commandQueue s) (commmandUsed s) v (soundTimeout s) (previousCommandPointer s)
    (keyPressed s) (ctrlPressed s) (altPressed s) (helper s) (commandHistory s)
    (now s) (timers s) (nextTimerId s) (log s).
Definition set_soundTimeout v (s : state) : state :=
  mkState (commandQueue s) (commmandUsed s) (soundQueue s) v (previousCommandPointer s)
    (keyPressed s) (ctrlPressed s) (altPressed s) (helper s) (commandHistory s)
    (now s) (timers s) (nextTimerId s) (log s).
Definition set_previousCommandPointer v (s : state) : state :=
  mkState (commandQueue s) (commmandUsed s) (soundQueue s) (soundTimeout s) v
    (keyPressed s) (ctrlPressed s) (altPressed s) (helper s) (commandHistory s)
    (now s) (timers s) (nextTimerId s) (log s).
Definition set_keyPressed v (s : state) : state :=
  mkState (commandQueue s) (commmandUsed s) (soundQueue s) (soundTimeout s) (previousCommandPointer s)
    v (ctrlPressed s) (altPressed s) (helper s) (commandHistory s)
    (now s) (timers s) (nextTimerId s) (log s).
Definition set_ctrlPressed v (s : state) : state :=
  mkState (commandQueue s) (commmandUsed s) (soundQueue s) (soundTimeout s) (previousCommandPointer s)
    (keyPressed s) v (altPressed s) (helper s) (commandHistory s)
    (now s) (timers s) (nextTimerId s) (log s).
Definition set_altPressed v (s : state) : state :=
  mkState (commandQueue s) (commmandUsed s) (soundQueue s) (soundTimeout s) (previousCommandPointer s)
    (keyPressed s) (ctrlPressed s) v (helper s) (commandHistory s)
    (now s) (timers s) (nextTimerId s) (log s).
Definition set_helper v (s : state) : state :=
  mkState (commandQueue s) (commmandUsed s) (soundQueue s) (soundTimeout s) (previousCommandPointer s)
    (keyPressed s) (ctrlPressed s) (altPressed s) v (commandHistory s)
    (now s) (timers s) (nextTimerId s) (log s).
Definition set_commandHistory v (s : state) : state :=
  mkState (commandQueue s) (commmandUsed s) (soundQueue s) (soundTimeout s) (previousCommandPointer s)
    (keyPressed s) (ctrlPressed s) (altPressed s) (helper s) v
    (now s) (timers s) (nextTimerId s) (log s).
Definition set_now v (s : state) : state :=
  mkState (commandQueue s) (commmandUsed s) (soundQueue s) (soundTimeout s) (previousCommandPointer s)
    (keyPressed s) (ctrlPressed s) (altPressed s) (helper s) (commandHistory s)
    v (timers s) (nextTimerId s) (log s).
Definition set_timers v (s : state) : state :=
  mkState (commandQueue s) (commmandUsed s) (soundQueue s) (soundTimeout s) (previousCommandPointer s)
    (keyPressed s) (ctrlPressed s) (altPressed s) (helper s) (commandHistory s)
    (now s) v (nextTimerId s) (log s).
Definition set_nextTimerId v (s : state) : state :=
  mkState (commandQueue s) (commmandUsed s) (soundQueue s) (soundTimeout s) (previousCommandPointer s)
    (keyPressed s) (ctrlPressed s) (altPressed s) (helper s) (commandHistory s)
    (now s) (timers s) v (log s).
Definition set_log v (s : state) : state :=
  mkState (commandQueue s) (commmandUsed s) (soundQueue s) (soundTimeout s) (previousCommandPointer s)
    (keyPressed s) (ctrlPressed s) (altPressed s) (helper s) (commandHistory s)
    (now s) (timers s) (nextTimerId s) v.

Definition set_command v (h : commandHelper) : commandHelper :=
  mkHelper v (onStep h) (fallbackStep h) (keysBlocked h) (hideInput h).
Definition set_onStep v (h : commandHelper) : commandHelper :=
  mkHelper (command h) v (fallbackStep h) (keysBlocked h) (hideInput h).

(** ** A state monad for the module's functions *)

Definition M (A : Type) : Type := state -> A * state.

Definition ret {A} (a : A) : M A := fun s => (a, s).
Definition bind {A B} (m : M A) (k : A -> M B) : M B :=
  fun s => let (a, s') := m s in k a s'.
Definition gets {A} (f : state -> A) : M A := fun s => (f s, s).
Definition modify (f : state -> state) : M unit := fun s => (tt, f s).
Definition exec {A} (m : M A) (s : state) : state := snd (m s).
Definition when (b : bool) (m : M unit) : M unit := if b then m else ret tt.

Declare Scope js_scope.
Delimit Scope js_scope with js.
Notation "x <- m ;; k" := (bind m (fun x => k))
  (at level 61, m at next level, right associativity) : js_scope.
Notation "m ;; k" := (bind m (fun _ => k))
  (at level 61, right associativity) : js_scope.
Local Open Scope js_scope.

(** A call to a collaborator, stamped with the current time. *)
Definition emit (e : event) : M unit :=
  modify (fun s => set_log (log s ++ [(now s, e)]) s).

Fixpoint emitAll (es : list event) : M unit :=
  match es with
  | [] => ret tt
  | e :: r => emit e ;; emitAll r
  end.

(** [setTimeout(cb, delay)]: registers the timer [delay] milliseconds from
    now (a negative delay counts as 0) and returns its handle. *)
Definition setTimeout (cb : callback) (delay : Z) : M Z :=
  fun s =>
    let id := nextTimerId s in
    (id, set_nextTimerId (id + 1)
           (set_timers (timers s ++ [mkTimer id (now s + Z.max 0 delay) cb]) s)).

(** ** Morse scheduler *)

Definition dot : ascii := "."%char.
Definition dash : ascii := "-"%char.
Definition morseSeparator : ascii := "#"%char.

(** [messenger.queueMessage] of [finishSoundQueue]. *)
Definition morseMessage (cleanMorse : string) : message :=
  {| text := [("Morse code message received: " ++ cleanMorse)%string];
     text_se := Some [("Morse mottaget: " ++ cleanMorse)%string] |}.

Definition finishSoundQueue (morseCode : string) (silent : bool) (timeouts : Z) : M unit :=
  let cleanMorse := removeAll morseSeparator morseCode in
  modify (fun s => set_soundQueue (splice0 timeouts (soundQueue s)) s) ;;
  when (negb silent) (emit (QueueMessage (morseMessage cleanMorse))).

(** The branch of the loop body that picks [duration] and [shouldPlay]. *)
Definition classify (code : ascii) : Z * bool :=
  if Ascii.eqb dot code then (50, true)
  else if Ascii.eqb dash code then (150, true)
  else if Ascii.eqb morseSeparator code then (200, false)
  else (75, false).

Definition pushSound (id : Z) : M unit :=
  modify (fun s => set_soundQueue (soundQueue s ++ [id]) s).

(** One iteration of the [for] loop of [playMorse]. *)
Definition morseStep (code : ascii) : M unit :=
  let (duration, shouldPlay) := classify code in
  when shouldPlay
    (t <- gets soundTimeout ;;
     on <- setTimeout (CbSetGain 1) t ;;
     pushSound on ;;
     off <- setTimeout (CbSetGain 0) (t + duration) ;;
     pushSound off) ;;
  modify (fun s => set_soundTimeout (soundTimeout s + duration) s).

Fixpoint morseLoop (codes : list ascii) : M unit :=
  match codes with
  | [] => ret tt
  | code :: rest => morseStep code ;; morseLoop rest
  end.

Definition playMorse (morseCode : string) (silent : bool) : M unit :=
  q <- gets soundQueue ;;
  when (Nat.eqb (List.length q) 0) (modify (set_soundTimeout 0)) ;;
  morseLoop (chars morseCode) ;;
  t <- gets soundTimeout ;;
  _ <- setTimeout (CbFinishSoundQueue (2 * jsLength morseCode) morseCode silent) t ;;
  ret tt.

(** ** Collaborator modules

    [feed.js] requires these modules; their sources are not part of the
    embedding, so what [feed.js] calls on them is an interface. *)

Record commandDef := mkCommand {
  commandName : string;
  accessLevel : option Z;   (* [None]: absent, [isNaN(accessLevel)] holds *)
  clearBeforeUse : bool;
  clearAfterUse : bool
}.

Class CommandHandler := {
  getCommand : string -> option commandDef;
  getCommands : list string;                       (* [{ aliases: true, filtered: true }] *)
  getCommandAccessLevel : string -> option Z;
  getCommandVisibility : string -> option Z;
  isCommandChar : string -> bool;
  getCommandChars : list string;
  (* what the handlers do to [commandHelper] *)
  triggerCommand : cmdRef -> option (list string) -> commandHelper -> commandHelper;
  triggerCommandStep : option (list string) -> commandHelper -> commandHelper;
  abortCommand : string -> commandHelper -> commandHelper
}.

Class Storage := {
  getUser : option string;
  getMode : string;
  getAccessLevel : Z;
  getDisableCommands : bool;
  getAliases : string -> option (list string)
}.

Class DomManipulator := {
  getInputStart : string;
  getModeText : string
}.

Class TextTools := {
  trimSpace : string -> string
}.

Class Labels := {
  commandFail : list string;     (* [labels.getText('errors', 'commandFail')] *)
  mustRegister : list string     (* [labels.getText('info', 'mustRegister')] *)
}.

(** An option object: its own keys in [Object.keys] order, each with the
    value of its [next] property when that is an object. *)
#[warnings="-register-all"]
Inductive optionNode :=
| OptionNode (next : option (list (string * optionNode))).

(** Modelled from the spec: [commandHandler.resetCommand] is not among the
    embedded sources.  The session is "mutated by ... abort/reset (clears to
    none)" and a reset returns it to [IDLE], the state with no active
    command: the active command name is cleared. *)
Definition resetCommand (aborted : bool) (h : commandHelper) : commandHelper :=
  set_command None h.

(** [IDLE]: no active command. *)
Definition idle (h : commandHelper) : Prop := command h = None.

Section Terminal.

Context {CH : CommandHandler} {ST : Storage} {DM : DomManipulator}
        {TT : TextTools} {LB : Labels}.

Definition callTriggerCommand (cmd : cmdRef) (cmdParams : option (list string)) : M unit :=
  emit (TriggerCommand cmd cmdParams) ;;
  modify (fun s => set_helper (triggerCommand cmd cmdParams (helper s)) s).

Definition callTriggerCommandStep (cmdParams : option (list string)) : M unit :=
  h <- gets helper ;;
  emit (TriggerCommandStep (onStep h) cmdParams) ;;
  modify (fun s => set_helper (triggerCommandStep cmdParams (helper s)) s).

Definition callAbortCommand (cmd : string) : M unit :=
  emit (AbortCommand cmd) ;;
  modify (fun s => set_helper (abortCommand cmd (helper s)) s).

Definition callResetCommand (aborted : bool) : M unit :=
  emit (ResetCommand aborted) ;;
  modify (fun s => set_helper (resetCommand aborted (helper s)) s).

(** ** Command queue and dispatcher *)

Definition commandTime : Z := 1000.

Definition queueCommand (command : cmdRef) (data : list string)
    (commandMsg : option message) : M unit :=
  modify (fun s => set_commandQueue (commandQueue s ++ [Stored.mk command data commandMsg]) s).

Definition setCommandUsed (used : bool) : M unit := modify (set_commmandUsed used).

Definition consumeCommandQueue : M unit :=
  q <- gets commandQueue ;;
  match q with
  | storedCommand :: rest =>
      modify (set_commandQueue rest) ;;
      match Stored.commandMsg storedCommand with
      | Some commandMessage => emit (QueueMessage commandMessage)
      | None => ret tt
      end ;;
      setCommandUsed true ;;
      callTriggerCommand (Stored.command storedCommand) (Some (Stored.data storedCommand)) ;;
      _ <- setTimeout CbConsumeCommandQueue commandTime ;;
      ret tt
  | [] => setCommandUsed false
  end.

Definition startCommandQueue : M unit :=
  used <- gets commmandUsed ;;
  when (negb used) consumeCommandQueue.

(** ** The timer loop *)

Definition runCallback (cb : callback) : M unit :=
  match cb with
  | CbSetGain value => emit (SetGain value)
  | CbFinishSoundQueue timeouts morseCode silent => finishSoundQueue morseCode silent timeouts
  | CbConsumeCommandQueue => consumeCommandQueue
  end.

(** Takes the timer that is due first out of the table; among timers due
    at the same time, the one registered first. *)
Fixpoint nextTimer (ts : list timer) : option (timer * list timer) :=
  match ts with
  | [] => None
  | t :: r =>
      match nextTimer r with
      | None => Some (t, [])
      | Some (u, r') => if fireAt t <=? fireAt u then Some (t, r) else Some (u, t :: r')
      end
  end.

(** Fires the next timer: the clock moves to its due time, the timer
    leaves the table and its callback runs.  [None] when nothing is pending. *)
Definition fireTimer (s : state) : option state :=
  match nextTimer (timers s) with
  | None => None
  | Some (t, rest) =>
      Some (exec (runCallback (timerCb t))
              (set_now (Z.max (now s) (fireAt t)) (set_timers rest s)))
  end.

Fixpoint runTimers (n : nat) (s : state) : state :=
  match n with
  | O => s
  | S n' => match fireTimer s with
            | Some s' => runTimers n' s'
            | None => s
            end
  end.

(** ** Multi-step command session *)

Record successParams := mkSuccess {
  noStepCall : bool;
  freezeStep : bool;
  newData : option (list string)
}.

Definition onCommandSuccess (params : successParams) : M unit :=
  if negb (noStepCall params) then
    when (negb (freezeStep params))
      (modify (fun s => set_helper (set_onStep (onStep (helper s) + 1) (helper s)) s)) ;;
    callTriggerCommandStep (newData params)
  else
    callResetCommand false.

Definition onCommandFail : M unit :=
  h <- gets helper ;;
  match command h with
  | Some active => callAbortCommand active ;; callResetCommand true
  | None => ret tt
  end.

Definition onCommandStep (cmdParams : option (list string)) : M unit :=
  modify (fun s => set_helper (set_onStep (fallbackStep (helper s)) (helper s)) s) ;;
  callTriggerCommandStep cmdParams.

(** ** History *)

Definition pushCommandHistory (command : string) : M unit :=
  modify (fun s => set_commandHistory (commandHistory s ++ [command]) s).

Definition resetPreviousCommandPointer : M unit :=
  modify (fun s => set_previousCommandPointer (Z.of_nat (List.length (commandHistory s))) s).

(** [a[i]] for a number [i]: [None] is [undefined]. *)
Definition index {A} (a : list A) (i : Z) : option A :=
  if i <? 0 then None else nth_error a (Z.to_nat i).

(** ** Submission of a line *)

Definition combineSequences (commandName : string) (phrases : list string) : list string :=
  match getAliases commandName with
  | Some sequence => sequence ++ tl phrases
  | None => tl phrases
  end.

Definition printUsedCommand (clearAfterUse : bool) (inputText : string) : option message :=
  if clearAfterUse then None
  else Some (textMessage [(getInputStart ++ getModeText ++ "$ " ++ inputText)%string]).

(** [toLowerCase] on the ASCII letters. *)
Definition lowerAscii (c : ascii) : ascii :=
  let n := nat_of_ascii c in
  if (Nat.leb 65 n && Nat.leb n 90)%bool then ascii_of_nat (n + 32) else c.

Fixpoint toLowerCase (s : string) : string :=
  match s with
  | EmptyString => EmptyString
  | String c r => String (lowerAscii c) (toLowerCase r)
  end.

(** How a handler ends: normally, or with a [TypeError] thrown on the way. *)
Inductive completion := Normal | TypeError.

(** [isNaN(level) || storage.getAccessLevel() >= level] *)
Definition accessAllowed (level : option Z) : bool :=
  match level with
  | None => true
  | Some l => l <=? getAccessLevel
  end.

Definition isSome {A} (o : option A) : bool :=
  match o with Some _ => true | None => false end.

(** The [else if] chain of [enterKeyHandler] for a first phrase that did
    not resolve to a command the user may run. *)
Definition notRun (inputText : string) (phrases : list string) : M completion :=
  let first := hd EmptyString phrases in
  if isSome getUser && (getMode =? "chat")%string && Nat.ltb 0 (String.length first) then
    if negb (existsb (String.eqb (charAt 0 first)) getCommandChars) then
      match getCommand "msg" with
      | Some _ =>
          queueCommand (CmdFunc "msg") phrases None ;;
          startCommandQueue ;;
          ret Normal
      | None => ret TypeError
      end
    else
      emit (QueueMessage (textMessage [(first ++ ": " ++ join "," commandFail)%string])) ;;
      ret Normal
  else if negb (isSome getUser) then
    emit (QueueMessage (textMessage [join "," phrases])) ;;
    emit (QueueMessage (textMessage mustRegister)) ;;
    ret Normal
  else
    pushCommandHistory (join " " phrases) ;;
    emit (QueueMessage (textMessage [("- " ++ first ++ ": " ++ join "," commandFail)%string])) ;;
    ret Normal.

(** The branch of [enterKeyHandler] taken when no multi-step command is
    active: the first phrase is resolved against the command registry. *)
Definition resolveCommand (inputText : string) (phrases : list string) : M completion :=
  let first := hd EmptyString phrases in
  if Nat.ltb 0 (String.length first) then
    let command := getCommand (toLowerCase first) in
    (* [!storage.getDisableCommands() && (command && (isNaN(...) || ...))] *)
    match (if negb getDisableCommands then command else None) with
    | Some command =>
        if accessAllowed (accessLevel command) then
          pushCommandHistory (join " " phrases) ;;
          when (clearBeforeUse command) (callTriggerCommand (CmdName "clear") None) ;;
          queueCommand (CmdName (commandName command))
            (combineSequences (commandName command) phrases)
            (printUsedCommand (clearAfterUse command) inputText) ;;
          startCommandQueue ;;
          ret Normal
        else notRun inputText phrases
    | None => notRun inputText phrases
    end
  else
    match printUsedCommand false " " with
    | Some m => emit (QueueMessage m)
    | None => ret tt
    end ;;
    ret Normal.

Definition enterKeyHandler (inputText : string) : M completion :=
  modify (set_keyPressed true) ;;
  h <- gets helper ;;
  r <- (if negb (keysBlocked h) then
          let phrases := split " " (trimSpace inputText) in
          let first := hd EmptyString phrases in
          match command h with
          | Some active =>
              if ((first =? "exit") || (first =? "abort"))%string then
                callAbortCommand active ;;
                callResetCommand true ;;
                ret Normal
              else
                when (negb (hideInput h)) (emit (QueueMessage (textMessage [inputText]))) ;;
                callTriggerCommandStep (Some phrases) ;;
                ret Normal
          | None => resolveCommand inputText phrases
          end
        else ret Normal) ;;
  match r with
  | Normal =>
      emit RemoveSubMenu ;;
      resetPreviousCommandPointer ;;
      emit ClearInput ;;
      emit ClearModeText ;;
      ret Normal
  | TypeError => ret TypeError
  end.

(** ** Key handling

    The cases of [specialKeyPress] embedded here; Tab, [d], [u] and the
    default case go through [autoComplete] and [defaultKeyPress]. *)
Inductive specialKey :=
| Enter | Ctrl | Alt | LeftCommand | RightCommand | FirefoxCommand
| PageUp | PageDown | UpArrow | DownArrow.

Definition keyCode (k : specialKey) : Z :=
  match k with
  | Enter => 13 | Ctrl => 17 | Alt => 18 | LeftCommand => 91 | RightCommand => 93
  | FirefoxCommand => 224 | PageUp => 33 | PageDown => 34 | UpArrow => 38 | DownArrow => 40
  end.

Definition isNone {A} (o : option A) : bool := negb (isSome o).

(** [case 38] *)
Definition upArrow : M unit :=
  modify (set_keyPressed true) ;;
  ctrl <- gets ctrlPressed ;;
  (if ctrl then emit (ScrollText false true)
   else
     h <- gets helper ;;
     p <- gets previousCommandPointer ;;
     when (negb (keysBlocked h) && isNone (command h) && (0 <? p))
       (emit ClearInput ;;
        modify (set_previousCommandPointer (p - 1)) ;;
        commandHistory <- gets commandHistory ;;
        emit (SetCommandInput (index commandHistory (p - 1))))) ;;
  emit PreventDefault.

(** [case 40] *)
Definition downArrow : M unit :=
  modify (set_keyPressed true) ;;
  ctrl <- gets ctrlPressed ;;
  (if ctrl then emit (ScrollText true true)
   else
     h <- gets helper ;;
     when (negb (keysBlocked h) && isNone (command h))
       (p <- gets previousCommandPointer ;;
        commandHistory <- gets commandHistory ;;
        let length := Z.of_nat (List.length commandHistory) in
        if p <? length - 1 then
          emit ClearInput ;;
          modify (set_previousCommandPointer (p + 1)) ;;
          emit (SetCommandInput (index commandHistory (p + 1)))
        else if p =? length - 1 then
          emit ClearInput ;;
          modify (set_previousCommandPointer (p + 1))
        else
          emit ClearInput)) ;;
  emit PreventDefault.

Definition specialKeyPress (k : specialKey) (inputText : string) : M completion :=
  emit FocusInput ;;
  emit RemoveSubMenu ;;
  pressed <- gets keyPressed ;;
  if negb pressed then
    match k with
    | Enter =>
        r <- enterKeyHandler inputText ;;
        match r with
        | Normal => emit PreventDefault ;; ret Normal
        | TypeError => ret TypeError
        end
    | Ctrl | LeftCommand | RightCommand | FirefoxCommand =>
        modify (set_ctrlPressed true) ;; ret Normal
    | Alt => modify (set_altPressed true) ;; ret Normal
    | PageUp => emit (ScrollText false false) ;; emit PreventDefault ;; ret Normal
    | PageDown => emit (ScrollText true false) ;; emit PreventDefault ;; ret Normal
    | UpArrow => upArrow ;; ret Normal
    | DownArrow => downArrow ;; ret Normal
    end
  else
    emit PreventDefault ;; ret Normal.

(** [keyReleased] for the keys above, on a platform where [isAndroid()] is
    false (on Android the handler first runs [defaultKeyPress]). *)
Definition keyReleased (k : specialKey) (inputText : string) : M unit :=
  match k with
  | PageUp | PageDown => modify (set_keyPressed false)
  | LeftCommand | RightCommand | FirefoxCommand | Ctrl => modify (set_ctrlPressed false)
  | Alt => modify (set_altPressed false)
  | Enter | UpArrow | DownArrow => modify (set_keyPressed false) ;; emit ResizeInput
  end ;;
  (if Nat.eqb (String.length inputText) 0 then emit ClearModeText else emit ChangeModeText) ;;
  emit UpdateThisCommandItem.

(** ** Autocomplete *)

(** The inner loop of [match] and of [autoCompleteCommand]: [j] runs over
    the [n] remaining positions of [partial]; [ok j] is the test of the
    [if], and [matches] the variable as the loop found it. *)
Fixpoint prefixLoop (ok : nat -> bool) (n j : nat) (matches : bool) : bool :=
  match n with
  | O => matches
  | S n' => if ok j then prefixLoop ok n' (S j) true else false
  end.

(** The outer loop of [match]; [matches] is declared outside it and so
    survives from one item to the next. *)
Fixpoint matchItems (partial : string) (items : list string)
    (matches : bool) (matched : list string) : list string :=
  match items with
  | [] => matched
  | name :: rest =>
      let matches' :=
        prefixLoop (fun j => (charAt j partial =? charAt j name)%string)
          (String.length partial) 0 matches in
      matchItems partial rest matches' (if matches' then matched ++ [name] else matched)
  end.

(** [match(partial, items)]; [partial] is [None] when the caller passed
    [undefined], and reading its length then throws. *)
Definition jsMatch (partial : option string) (items : list string) : option (list string) :=
  match partial with
  | Some partial => Some (matchItems partial items false [])
  | None => match items with [] => Some [] | _ :: _ => None end
  end.

(** The loop of [expandPartialMatch] from position [i], with [n] positions
    of [firstCommand] left. *)
Fixpoint expandLoop (matchedCommands : list string) (firstCommand : string)
    (found : string) (n i : nat) (expanded : string) : string :=
  match n with
  | O => EmptyString
  | S n' =>
      let commandChar := charAt i firstCommand in
      if forallb (fun c => (charAt i c =? commandChar)%string) matchedCommands then
        expandLoop matchedCommands firstCommand found n' (S i) (expanded ++ commandChar)%string
      else (found ++ expanded)%string
  end.

Definition expandPartialMatch (matchedCommands : list string) (partialMatch sign : string)
    : option string :=
  match matchedCommands with
  | [] => None
  | firstCommand :: _ =>
      Some (expandLoop matchedCommands firstCommand
              (if isCommandChar sign then sign ++ partialMatch else partialMatch)%string
              (String.length firstCommand - String.length partialMatch)
              (String.length partialMatch) EmptyString)
  end.

Definition next (o : optionNode) : option (list (string * optionNode)) :=
  match o with OptionNode n => n end.

Definition options := list (string * optionNode).

Fixpoint property (o : options) (key : string) : option optionNode :=
  match o with
  | [] => None
  | (k, v) :: r => if (k =? key)%string then Some v else property r key
  end.

Definition keys (o : options) : list string := map fst o.

(** [phrases[i]] used as a property name: [undefined] reads as its name. *)
Definition propertyName (o : option string) : string :=
  match o with Some s => s | None => "undefined" end.

Definition lastPhrase (phrases : list string) : option string :=
  index phrases (Z.of_nat (List.length phrases) - 1).

Definition autoCompleteOption (inputText : string) (phrases : list string)
    (options : options) : option (list event) :=
  let option := property options (propertyName (index phrases 1)) in
  let partial := lastPhrase phrases in
  match match option with Some o => next o | None => None end with
  | Some optionNext =>
      let nextKeys := keys optionNext in
      match jsMatch partial nextKeys with
      | None => None
      | Some matched =>
          Some (match matched with
                | [only] => [ReplaceLastInputPhrase (only ++ " ")%string]
                | _ :: _ => [QueueMessage (textMessage [join " - " matched])]
                | [] => match nextKeys with
                        | _ :: _ => [QueueMessage (textMessage [join " - " nextKeys])]
                        | [] => []
                        end
                end)
      end
  | None =>
      if Nat.leb (List.length phrases) 2 then
        let firstLevelOptions := keys options in
        match jsMatch partial firstLevelOptions with
        | None => None
        | Some matched =>
            Some (match matched with
                  | [only] => [ReplaceLastInputPhrase (only ++ " ")%string]
                  | _ :: _ => [SetCommandInput (Some (trimSpace inputText));
                               QueueMessage (textMessage [join " - " matched])]
                  | [] => match partial with
                          | Some EmptyString =>
                              [QueueMessage (textMessage [join " - " firstLevelOptions])]
                          | _ => []
                          end
                  end)
        end
      else Some []
  end.

(** The test of the inner loop of [autoCompleteCommand] at position [j]. *)
Definition commandCharOk (partialCommand command : string) (j : nat) : bool :=
  accessAllowed (getCommandAccessLevel command)
  && match getCommandVisibility command with
     | Some v => v <=? getAccessLevel
     | None => false
     end
  && (charAt j partialCommand =? charAt j command)%string.

Definition matchCommands (partialCommand : string) (allCommands : list string) : list string :=
  filter (fun command =>
            prefixLoop (commandCharOk partialCommand command)
              (String.length partialCommand) 0 false)
         allCommands.

Definition autoCompleteCommand (phrases : list string) : option (list event) :=
  match phrases with
  | [] => None
  | first :: _ =>
      let allCommands := getCommands in
      let sign := charAt 0 first in
      if Nat.eqb (List.length phrases) 1 && Nat.ltb 0 (String.length first)
         && (isCommandChar sign || (getMode =? "cmd")%string || isNone getUser) then
        let partialCommand := if isCommandChar sign then slice1 first else first in
        let matched := matchCommands partialCommand allCommands in
        match matched with
        | [only] =>
            let newText :=
              ((if existsb (String.eqb sign) getCommandChars then sign else EmptyString)
               ++ only ++ " ")%string in
            Some [ClearInput; SetCommandInput (Some newText)]
        | _ :: _ =>
            match expandPartialMatch matched partialCommand sign with
            | Some expanded =>
                Some [SetCommandInput (Some (trimSpace expanded));
                      QueueMessage (textMessage [join " - " matched])]
            | None => None
            end
        | [] => Some []
        end
      else Some []
  end.

End Terminal.

(** ** The morse timeline as the design describes it

    Walking the symbols with a running cursor: a pulse symbol gives a
    gain-on event at the cursor and a gain-off event one duration later;
    every symbol moves the cursor by its duration. *)

Definition isPulse (code : ascii) : bool := Ascii.eqb code dot || Ascii.eqb code dash.

Definition symbolDuration (code : ascii) : Z :=
  if Ascii.eqb code dot then 50
  else if Ascii.eqb code dash then 150
  else if Ascii.eqb code morseSeparator then 200
  else 75.

(** The gain events, as (offset, gain value) pairs in scheduling order. *)
Fixpoint timeline (cursor : Z) (codes : list ascii) : list (Z * Z) :=
  match codes with
  | [] => []
  | code :: rest =>
      (if isPulse code then [(cursor, 1); (cursor + symbolDuration code, 0)] else [])
      ++ timeline (cursor + symbolDuration code) rest
  end.

Fixpoint finalCursor (cursor : Z) (codes : list ascii) : Z :=
  match codes with
  | [] => cursor
  | code :: rest => finalCursor (cursor + symbolDuration code) rest
  end.

Definition pulseCount (codes : list ascii) : nat := List.length (filter isPulse codes).

(** The timers [setTimeout] registers for a list of gain events, one after
    the other from handle [id] on, at a call made at time [t]. *)
Fixpoint gainTimers (id t : Z) (events : list (Z * Z)) : list timer :=
  match events with
  | [] => []
  | (offset, value) :: rest =>
      mkTimer id (t + Z.max 0 offset) (CbSetGain value) :: gainTimers (id + 1) t rest
  end.

(** The cleanup timer of a call [playMorse(morseCode, silent)]. *)
Definition cleanupTimer (id t cursor : Z) (morseCode : string) (silent : bool) : timer :=
  mkTimer id (t + Z.max 0 cursor) (CbFinishSoundQueue (2 * jsLength morseCode) morseCode silent).

Definition isConsume (t : timer) : bool :=
  match timerCb t with
  | CbConsumeCommandQueue => true
  | _ => false
  end.

Definition isCleanup (t : timer) : bool :=
  match timerCb t with
  | CbFinishSoundQueue _ _ _ => true
  | _ => false
  end.

(** The cursor a call to [playMorse] starts from. *)
Definition startCursor (s : state) : Z :=
  match soundQueue s with
  | [] => 0
  | _ :: _ => soundTimeout s
  end.

(** ** The dispatcher's schedule

    What draining a queue [q] from time [t] on should give: one execution
    per entry, in order, a [commandTime] apart. *)
Fixpoint schedule (t : Z) (q : list Stored.t) : list (Z * cmdRef * list string) :=
  match q with
  | [] => []
  | c :: rest => (t, Stored.command c, Stored.data c) :: schedule (t + commandTime) rest
  end.

(** The executions recorded in a log: time, command and arguments of each
    call to [commandHandler.triggerCommand] with arguments. *)
Definition executions (l : list (Z * event)) : list (Z * cmdRef * list string) :=
  flat_map (fun te =>
              match snd te with
              | TriggerCommand c (Some d) => [(fst te, c, d)]
              | _ => []
              end) l.

(** Step-handler calls recorded in a log. *)
Definition stepCalls (l : list (Z * event)) : list (Z * option (list string)) :=
  flat_map (fun te =>
              match snd te with
              | TriggerCommandStep n d => [(n, d)]
              | _ => []
              end) l.

(** Messages shown to the user. *)
Definition displayed (es : list event) : list message :=
  flat_map (fun e => match e with QueueMessage m => [m] | _ => [] end) es.

(** Events that change the text in the input field. *)
Definition mutatesInput (e : event) : bool :=
  match e with
  | ClearInput | SetCommandInput _ | ReplaceLastInputPhrase _ => true
  | _ => false
  end.

Definition events (l : list (Z * event)) : list event := map snd l.

(** ** A concrete terminal, for examples *)

Definition initialHelper : commandHelper :=
  {| command := None; onStep := 0; fallbackStep := 0; keysBlocked := false; hideInput := false |}.

(** The module-level variables as [feed.js] initialises them, with an
    empty history. *)
Definition initialState : state :=
  {| commandQueue := []; commmandUsed := false; soundQueue := []; soundTimeout := 0;
     previousCommandPointer := 0; keyPressed := false; ctrlPressed := false;
     altPressed := false; helper := initialHelper; commandHistory := [];
     now := 0; timers := []; nextTimerId := 1; log := [] |}.

Module Demo.

Definition registry : list commandDef :=
  [ mkCommand "help" None false false;
    mkCommand "msg" (Some 1) false true;
    mkCommand "follow" (Some 1) false false;
    mkCommand "followpublic" (Some 1) false false;
    mkCommand "login" None true true;
    mkCommand "logout" (Some 1) false false ].

#[export] Instance handler : CommandHandler :=
  {| getCommand name := find (fun c => String.eqb (commandName c) name) registry;
     getCommands := map commandName registry;
     getCommandAccessLevel name :=
       match find (fun c => String.eqb (commandName c) name) registry with
       | Some c => accessLevel c
       | None => None
       end;
     getCommandVisibility _ := Some 0;
     isCommandChar c := String.eqb c "-";
     getCommandChars := ["-"; "/"];
     (* [login] is a two-step command; other commands finish at once *)
     triggerCommand cmd _ h :=
       match cmd with
       | CmdName "login" => mkHelper (Some "login") 0 0 false false
       | _ => h
       end;
     triggerCommandStep _ h := h;
     abortCommand _ h := h |}.

#[export] Instance user : Storage :=
  {| getUser := Some "rez"; getMode := "cmd"; getAccessLevel := 1;
     getDisableCommands := false; getAliases _ := None |}.

#[export] Instance dom : DomManipulator :=
  {| getInputStart := "public"; getModeText := "[CMD]" |}.

(** Leading and trailing spaces removed. *)
Fixpoint trimLeft (s : string) : string :=
  match s with
  | String " " r => trimLeft r
  | _ => s
  end.

Fixpoint rev (s acc : string) : string :=
  match s with
  | EmptyString => acc
  | String c r => rev r (String c acc)
  end.

#[export] Instance textTools : TextTools :=
  {| trimSpace s := rev (trimLeft (rev (trimLeft s) EmptyString)) EmptyString |}.

#[export] Instance labels : Labels :=
  {| commandFail := ["command not found"];
     mustRegister := ["You must register a new user or login with an existing user"] |}.

End Demo.

(** A cleanup event [offset] milliseconds after the call made in state [s],
    among the timers of [s']. *)
Definition cleanupAt (offset : Z) (s s' : state) : Prop :=
  exists t, In t (timers s') /\ isCleanup t = true /\ fireAt t = now s + offset.

(** What a call left in the timer table, relative to the time of the call:
    offset and callback of each timer registered since [s]. *)
Definition registeredSince (s s' : state) : list (Z * callback) :=
  map (fun t => (fireAt t - now s, timerCb t)) (skipn (List.length (timers s)) (timers s')).

Definition gainEvent (ev : Z * Z) : Z * callback := (fst ev, CbSetGain (snd ev)).

(** Submitting the entries of [invs] one after the other. *)
Fixpoint queueAll (invs : list Stored.t) : M unit :=
  match invs with
  | [] => ret tt
  | i :: rest =>
      queueCommand (Stored.command i) (Stored.data i) (Stored.commandMsg i) ;; queueAll rest
  end.

(** The part of the log written since [s]. *)
Definition logSince (s s' : state) : list (Z * event) :=
  skipn (List.length (log s)) (log s').

(** The echo of a queued entry, shown when it is dispatched at time [t]. *)
Definition echo (c : Stored.t) (t : Z) : list (Z * event) :=
  match Stored.commandMsg c with
  | Some m => [(t, QueueMessage m)]
  | None => []
  end.

(** The two phases of the dispatcher, each with the executions still to
    come.  While draining, the busy flag is set and exactly one timer for
    [consumeCommandQueue] is pending, not yet overdue; the entries of the
    queue will run from its due time on.  When idle, the queue is empty, the
    flag is clear and no such timer is pending. *)
Inductive phase (st : state) : list (Z * cmdRef * list string) -> Prop :=
| Draining (c : timer) :
    commmandUsed st = true ->
    filter isConsume (timers st) = [c] ->
    now st <= fireAt c ->
    phase st (schedule (fireAt c) (commandQueue st))
| Idle :
    commandQueue st = [] ->
    commmandUsed st = false ->
    filter isConsume (timers st) = [] ->
    phase st [].

Section Submission.

Context {CH : CommandHandler}.

(** Submitting the entries the way [enterKeyHandler] does: every
    [queueCommand] is followed by [startCommandQueue]. *)
Fixpoint submitAll (invs : list Stored.t) : M unit :=
  match invs with
  | [] => ret tt
  | i :: rest =>
      queueCommand (Stored.command i) (Stored.data i) (Stored.commandMsg i) ;;
      startCommandQueue ;;
      submitAll rest
  end.

End Submission.

(** ** Statements about a submitted line *)

Section Statements.

Context {CH : CommandHandler} {ST : Storage} {TT : TextTools} {LB : Labels}.

(** The tokens [exit] and [abort]. *)
Definition isAbortToken (phrase : string) : bool :=
  ((phrase =? "exit") || (phrase =? "abort"))%string.

(** The line was handed to the step handler of the active command: one
    call, at the current step, with the line split into phrases. *)
Definition routedToStep (inputText : string) (s s' : state) : Prop :=
  stepCalls (logSince s s') = [(onStep (helper s), Some (split " " (trimSpace inputText)))].

(** Nothing in the log since [s] is a call to [triggerCommand]. *)
Definition noCommandRun (s s' : state) : Prop :=
  forall t cmd cmdParams, ~ In (t, TriggerCommand cmd cmdParams) (logSince s s').

(** Command queue, session and history log are as they were. *)
Definition noStateChange (s s' : state) : Prop :=
  commandQueue s' = commandQueue s
  /\ helper s' = helper s
  /\ commandHistory s' = commandHistory s.

(** In chat mode a logged-in user's line goes out as a chat message unless
    it starts with a command character. *)
Definition sentAsChat (first : string) : bool :=
  isSome getUser && (getMode =? "chat")%string
  && negb (existsb (String.eqb (charAt 0 first)) getCommandChars).

(** The messages [enterKeyHandler] shows for a first phrase that is no
    command and is not sent as chat. *)
Definition failureReport (phrases : list string) : list message :=
  let first := hd EmptyString phrases in
  if isSome getUser && (getMode =? "chat")%string then
    [textMessage [(first ++ ": " ++ join "," commandFail)%string]]
  else if negb (isSome getUser) then
    [textMessage [join "," phrases]; textMessage mustRegister]
  else
    [textMessage [("- " ++ first ++ ": " ++ join "," commandFail)%string]].

End Statements.

(** What [enterKeyHandler] does once the line has been handled. *)
Definition closing (t : Z) : list (Z * event) :=
  [(t, RemoveSubMenu); (t, ClearInput); (t, ClearModeText)].

Module Demo2.
(** A session in the second step of [login] whose handler has blocked
    the keys. *)
Definition lockedLogin : state :=
  set_helper (mkHelper (Some "login") 1 0 true false) initialState.

(** The same session with the keys free. *)
Definition openLogin : state :=
  set_helper (mkHelper (Some "login") 1 0 false false) initialState.
End Demo2.

(** ** Statements about the history and the matchers *)

Section Navigation.

Context {CH : CommandHandler} {ST : Storage} {DM : DomManipulator}
        {TT : TextTools} {LB : Labels}.

(** A key pressed and released; [before] and [after] are the text of the
    input field at the two events. *)
Definition tap (k : specialKey) (before after : string) : M unit :=
  _ <- specialKeyPress k before ;;
  keyReleased k after.

End Navigation.

(** What a handler did to the input field. *)
Definition inputEvents (l : list (Z * event)) : list event :=
  filter mutatesInput (events l).

(** The history log of the example: three lines, the pointer reset. *)
Definition historyABC : state :=
  exec resetPreviousCommandPointer (set_commandHistory ["a"; "b"; "c"] initialState).

(** The common extension of the design: the characters from position
    [partial.length] on that all matches share with the first one, up to
    the first position where one differs. *)
Fixpoint extensionFrom (matches : list string) (first : string) (n i : nat) : string :=
  match n with
  | O => EmptyString
  | S n' =>
      let ch := charAt i first in
      if forallb (fun c => (charAt i c =? ch)%string) matches
      then (ch ++ extensionFrom matches first n' (S i))%string
      else EmptyString
  end.

Definition commonExtension (matches : list string) (partial : string) : string :=
  match matches with
  | [] => EmptyString
  | first :: _ =>
      extensionFrom matches first (String.length first - String.length partial)
        (String.length partial)
  end.

(** An autocomplete call stayed silent: it ended without error, showed
    nothing and left the input field alone. *)
Definition silent (r : option (list event)) : Prop :=
  exists es, r = Some es /\ displayed es = [] /\ filter mutatesInput es = [].

Module Demo3.
(** The options of a command with one sub-option under [a]. *)
Definition options : options :=
  [("a", OptionNode (Some [("b", OptionNode None)]));
   ("c", OptionNode None)].
End Demo3.

(** ** Reachable states

    What can happen to the terminal: a morse playback is requested, a key
    goes down or up, the server answers a command, a timer fires, or time
    passes without any timer coming due. *)

Section Reachable.

Context {CH : CommandHandler} {ST : Storage} {DM : DomManipulator}
        {TT : TextTools} {LB : Labels}.

Inductive step : state -> state -> Prop :=
| StepPlayMorse morseCode silent s : step s (exec (playMorse morseCode silent) s)
| StepEnter inputText s : step s (exec (enterKeyHandler inputText) s)
| StepKeyDown k inputText s : step s (exec (specialKeyPress k inputText) s)
| StepKeyUp k inputText s : step s (exec (keyReleased k inputText) s)
| StepSuccess params s : step s (exec (onCommandSuccess params) s)
| StepFail s : step s (exec onCommandFail s)
| StepCommandStep cmdParams s : step s (exec (onCommandStep cmdParams) s)
| StepTimer s s' : fireTimer s = Some s' -> step s s'
| StepElapse d s :
    0 <= d -> Forall (fun t => now s + d <= fireAt t) (timers s) ->
    step s (set_now (now s + d) s).

(** The state when the page has loaded: nothing queued, nothing playing,
    no timer pending; history, pointer and session are whatever storage
    and the command handler hold. *)
Definition loaded (s : state) : Prop :=
  commandQueue s = [] /\ commmandUsed s = false /\ soundQueue s = []
  /\ soundTimeout s = 0 /\ timers s = [].

Inductive reachable : state -> Prop :=
| ReachLoaded s : loaded s -> reachable s
| ReachStep s s' : reachable s -> step s s' -> reachable s'.

End Reachable.

(** The part of the state the dispatcher and the scheduler depend on. *)
Definition schedulerView (s : state) : list Stored.t * bool * list timer * Z * Z :=
  (commandQueue s, commmandUsed s, timers s, now s, soundTimeout s).

(** What holds in every reachable state: the morse cursor is not negative
    and the dispatcher is in one of its two phases. *)
Definition wellFormed (s : state) : Prop :=
  0 <= soundTimeout s /\ exists pending, phase s pending.

(** * Further statements

    ** Command-name completion *)

Section Visibility.

Context {CH : CommandHandler} {ST : Storage}.

(** The access test of [autoCompleteCommand]: the user's access level
    reaches the command's access level, when it has one, and its
    visibility. *)
Definition commandVisible (command : string) : bool :=
  accessAllowed (getCommandAccessLevel command)
  && match getCommandVisibility command with
     | Some v => v <=? getAccessLevel
     | None => false
     end.

(** The command sign as [autoCompleteCommand] puts it back in front of a
    single match. *)
Definition keptSign (sign : string) : string :=
  if existsb (String.eqb sign) getCommandChars then sign else EmptyString.

End Visibility.

(** ** Statements about a line that is run *)

Section Running.

Context {CH : CommandHandler} {ST : Storage} {DM : DomManipulator}
        {TT : TextTools} {LB : Labels}.

(** The command a first phrase resolves to, when commands are enabled and
    the user's access level reaches that of the command. *)
Definition runnable (first : string) : option commandDef :=
  if getDisableCommands then None
  else match getCommand (toLowerCase first) with
       | Some command => if accessAllowed (accessLevel command) then Some command else None
       | None => None
       end.

(** The entry [enterKeyHandler] queues for a command. *)
Definition entryFor (command : commandDef) (inputText : string) : Stored.t :=
  Stored.mk (CmdName (commandName command))
    (combineSequences (commandName command) (split " " (trimSpace inputText)))
    (printUsedCommand (clearAfterUse command) inputText).

(** The call of the [clear] command before a command that asks for it. *)
Definition clearing (command : commandDef) (t : Z) : list (Z * event) :=
  if clearBeforeUse command then [(t, TriggerCommand (CmdName "clear") None)] else [].

End Running.

Module Demo4.

(** A logged-in user of access level 0, in command mode. *)
#[export] Instance guest : Storage :=
  {| getUser := Some "guest"; getMode := "cmd"; getAccessLevel := 0;
     getDisableCommands := false; getAliases _ := None |}.

(** A logged-in user in chat mode. *)
#[export] Instance chatter : Storage :=
  {| getUser := Some "rez"; getMode := "chat"; getAccessLevel := 1;
     getDisableCommands := false; getAliases _ := None |}.

End Demo4.

(** ** Statements about keys and the history pointer *)

(** The history pointer points into the log or just behind it. *)
Definition pointerInRange (s : state) : Prop :=
  0 <= previousCommandPointer s <= Z.of_nat (List.length (commandHistory s)).

(** The arrow keys browse the history: no key is held, Ctrl is up, the
    keys are not blocked and no multi-step command is active. *)
Definition browsing (s : state) : Prop :=
  keyPressed s = false /\ ctrlPressed s = false
  /\ keysBlocked (helper s) = false /\ idle (helper s).

(** What a key that is ignored leaves in the log. *)
Definition ignoredKey (t : Z) : list (Z * event) :=
  [(t, FocusInput); (t, RemoveSubMenu); (t, PreventDefault)].

(** The keys whose handler marks a key as held. *)
Definition holdsKey (k : specialKey) : bool :=
  match k with
  | Enter | UpArrow | DownArrow => true
  | _ => false
  end.

(** ** Statements about the morse scheduler *)

(** The timers of the morse scheduler: all but the dispatcher's. *)
Definition soundTimers (ts : list timer) : list timer :=
  filter (fun t => negb (isConsume t)) ts.

(** The values the oscillator gain was set to, oldest first. *)
Definition gains (l : list (Z * event)) : list Z :=
  flat_map (fun e => match e with SetGain v => [v] | _ => [] end) (events l).

(** The part of the state a playback depends on. *)
Definition soundView (s : state) : list Z * Z * list timer * list Z :=
  (soundQueue s, soundTimeout s, soundTimers (timers s), gains (log s)).

(** The number of entries a pending cleanup will ask to take from the
    sound queue. *)
Definition removal (t : timer) : Z :=
  match timerCb t with
  | CbFinishSoundQueue timeouts _ _ => Z.max 0 timeouts
  | _ => 0
  end.

Definition pendingRemoval (ts : list timer) : Z :=
  fold_right (fun t acc => removal t + acc) 0 ts.

(** Every handle in the sound queue is accounted for by a pending cleanup. *)
Definition soundQueueCovered (s : state) : Prop :=
  Z.of_nat (List.length (soundQueue s)) <= pendingRemoval (timers s).

(** ** Statements about the tone *)

(** The gain the oscillator was last set to; 0 when it never was. *)
Definition gainNow (l : list (Z * event)) : Z := last (gains l) 0.

(** Timers that switch the tone on, and timers that switch it off. *)
Definition isOn (t : timer) : bool :=
  match timerCb t with
  | CbSetGain value => value =? 1
  | _ => false
  end.

Definition isOff (t : timer) : bool :=
  match timerCb t with
  | CbSetGain value => value =? 0
  | _ => false
  end.

(** How many timers of a table satisfy [f]. *)
Definition pending (f : timer -> bool) (ts : list timer) : nat :=
  List.length (filter f ts).

(** The timers due at [T] or later that switch the tone on, and the
    timers due later than [T] that switch it off. *)
Definition onsFrom (T : Z) (ts : list timer) : nat :=
  pending (fun t => isOn t && (T <=? fireAt t)) ts.

Definition offsAfter (T : Z) (ts : list timer) : nat :=
  pending (fun t => isOff t && (T <? fireAt t)) ts.

(** The tone is paired: from every time [T] on, the timers that switch the
    tone on are matched by timers that switch it off later than [T]. *)
Definition tonePaired (ts : list timer) : Prop :=
  forall T, (onsFrom T ts <= offsAfter T ts)%nat.

(** The tone is guarded: its timers are paired, and while the gain is 1
    there are more timers pending that switch it off than timers that
    switch it on. *)
Definition toneGuarded (s : state) : Prop :=
  tonePaired (timers s)
  /\ (gainNow (log s) = 1 -> (pending isOn (timers s) < pending isOff (timers s))%nat).

Section Steps.

Context {CH : CommandHandler} {ST : Storage} {DM : DomManipulator}
        {TT : TextTools} {LB : Labels}.

(** The states the terminal can get to from [s0]. *)
Inductive steps (s0 : state) : state -> Prop :=
| StepsRefl : steps s0 s0
| StepsStep s s' : steps s0 s -> step s s' -> steps s0 s'.

End Steps.

(** ** Messages from the server *)

(** The properties of a message that [hideMessageProperties] reads or
    writes; [None] is an absent property, and an absent [skipTime] reads
    as [false]. *)
Record chatMessage := mkChat {
  roomName : option string;
  userName : option string;
  extraClass : option string;
  skipTime : bool
}.

Definition set_roomName v (m : chatMessage) : chatMessage :=
  mkChat v (userName m) (extraClass m) (skipTime m).

(** [a === b] for a property that is a string or absent and a value that
    is a string or [null]. *)
Definition sameString (a b : option string) : bool :=
  match a, b with
  | Some x, Some y => (x =? y)%string
  | _, _ => false
  end.

(** [s.indexOf(pattern) >= 0] *)
Definition contains (pattern s : string) : bool := isSome (String.index 0 pattern s).

Section Messages.

Context {ST : Storage}.

(** [modifiedMessage] is the object [message] itself, so the sender that
    the whisper branch compares with the user is the one the first branch
    may just have blanked; [roomName] was read before that. *)
Definition hideMessageProperties (message : chatMessage) : chatMessage :=
  let roomName := roomName message in
  let modifiedMessage :=
    if sameString (extraClass message) (Some "importantMsg") then
      mkChat (Some "") (Some "") (extraClass message) true
    else if sameString (extraClass message) (Some "broadcastMsg") then
      mkChat (Some "") (Some "") (extraClass message) (skipTime message)
    else message in
  match roomName with
  | Some (String c r as room) =>
      match String.index 0 "-whisper" room with
      | Some whisperIndex =>
          if sameString (userName modifiedMessage) getUser then
            set_roomName (Some (substring 0 whisperIndex room)) modifiedMessage
          else
            set_roomName (Some "whisper") modifiedMessage
      | None =>
          if contains "-device" room then set_roomName (Some "device") modifiedMessage
          else if contains "team" room then set_roomName (Some "team") modifiedMessage
          else modifiedMessage
      end
  | _ => modifiedMessage
  end.

(** A message of one of the two classes whose sender and room are blanked. *)
Definition anonymous (message : chatMessage) : bool :=
  sameString (extraClass message) (Some "importantMsg")
  || sameString (extraClass message) (Some "broadcastMsg").

End Messages.

(** ** Position tracking *)

Section Tracking.

(** JavaScript numbers with their comparison [a > b]; nothing is assumed
    of it here. *)
Variable number : Type.
Variable gt : number -> number -> bool.

(** A geolocation fix as [preparePosition] flattens it. *)
Record position := mkPosition {
  latitude : number;
  longitude : number;
  speed : number;
  accuracy : number;
  heading : number;
  timestamp : number
}.

(** The loop of [sendLocation] over the positions still to look at, from
    index [positions.length - 2] down to 0. *)
Fixpoint scanPositions (mostAccuratePos : position) (downwards : list position) : position :=
  match downwards with
  | [] => mostAccuratePos
  | position :: rest =>
      scanPositions
        (if gt (accuracy mostAccuratePos) (accuracy position) then position
         else mostAccuratePos)
        rest
  end.

Definition mostAccuratePos (positions : list position) : option position :=
  match rev positions with
  | [] => None
  | last :: downwards => Some (scanPositions last downwards)
  end.

Context {ST : Storage}.

(** [sendLocation] up to its call of [retrievePosition]: the position
    emitted as [updateLocation], if any, and the new value of [positions]. *)
Definition sendLocation (positions : list position) : option position * list position :=
  if isSome getUser && Nat.ltb 0 (List.length positions) then
    (mostAccuratePos positions, [])
  else (None, positions).

End Tracking.

Arguments mkPosition {number}.
Arguments accuracy {number}.
Arguments mostAccuratePos {number}.
Arguments sendLocation {number} gt {ST}.

(** ** The auto-completion entry point *)

(** [command.autocomplete.type]; [OtherKind] is any type the [switch] of
    [autoComplete] has no case for. *)
Inductive autocompleteKind := Users | Rooms | MyRooms | OtherKind.

(** The two properties of a command object that only [autoComplete] reads. *)
Class CommandDetails := {
  autocomplete : commandDef -> option autocompleteKind;
  commandOptions : commandDef -> option options
}.

(** What auto-completion does outside [feed.js]: a call recorded as an
    [event], or [socketHandler.emit(name, { partialName })]. *)
Inductive effect :=
| Call (e : event)
| SocketEmit (name : string) (partialName : option string).

(** A call of [commandHandler.triggerCommand]. *)
Definition triggersCommand (e : effect) : bool :=
  match e with
  | Call (TriggerCommand _ _) => true
  | _ => false
  end.

Definition socketName (kind : autocompleteKind) : option string :=
  match kind with
  | Users => Some "matchPartialUser"
  | Rooms => Some "matchPartialRoom"
  | MyRooms => Some "matchPartialMyRoom"
  | OtherKind => None
  end.

Section AutoComplete.

Context {CH : CommandHandler} {ST : Storage} {TT : TextTools} {CD : CommandDetails}.

(** The phrases [autoComplete] starts from. *)
Definition typedPhrases (inputText : string) : list string :=
  split " " (trimSpace (toLowerCase inputText)).

(** [(commandHelper.command || phrases[0]).toLowerCase()] *)
Definition completedName (inputText : string) (commandHelper : commandHelper) : string :=
  toLowerCase
    match command commandHelper with
    | Some (String _ _ as active) => active
    | _ => hd EmptyString (typedPhrases inputText)
    end.

(** [autoComplete()] with the input field holding [inputText]; [None] when
    a [TypeError] is thrown on the way. *)
Definition autoComplete (inputText : string) (commandHelper : commandHelper)
    : option (list effect) :=
  let typed := typedPhrases inputText in
  let found := getCommand (completedName inputText commandHelper) in
  let phrases :=
    if isSome found && Nat.eqb (List.length typed) 1 then typed ++ [EmptyString] else typed in
  if Nat.eqb (List.length phrases) 1 && Nat.eqb (String.length (hd EmptyString phrases)) 0 then
    Some [Call (TriggerCommand (CmdName "help") None)]
  else
    match found with
    | None =>
        if negb (keysBlocked commandHelper) && isNone (command commandHelper) then
          match autoCompleteCommand phrases with
          | Some calls => Some (map Call calls ++ [Call ChangeModeText])
          | None => None
          end
        else Some []
    | Some found =>
        match (if Nat.ltb (List.length phrases) 3 then autocomplete found else None) with
        | Some kind =>
            Some match socketName kind with
                 | Some name => [SocketEmit name (index phrases 1)]
                 | None => []
                 end
        | None =>
            match commandOptions found with
            | Some options => option_map (map Call) (autoCompleteOption inputText phrases options)
            | None => Some []
            end
        end
    end.

End AutoComplete.

Module Demo5.
(** [follow] completes room names through the server, [login] has two
    options, the other commands have neither. *)
#[export] Instance details : CommandDetails :=
  {| autocomplete c := if (commandName c =? "follow")%string then Some Rooms else None;
     commandOptions c :=
       if (commandName c =? "login")%string
       then Some [("guest", OptionNode None); ("admin", OptionNode None)]
       else None |}.
End Demo5.

(** ** Statements about coming to rest *)

(** What is still to be done without further input: the pending timers
    and the queued commands. *)
Definition pendingWork (s : state) : nat :=
  (List.length (timers s) + List.length (commandQueue s))%nat.

(** Nothing pending, nothing queued, nothing playing. *)
Definition atRest (s : state) : Prop :=
  timers s = [] /\ commandQueue s = [] /\ commmandUsed s = false /\ soundQueue s = [].

(** The keys that set and clear the Ctrl flag. *)
Definition isCtrlKey (k : specialKey) : bool :=
  match k with
  | Ctrl | LeftCommand | RightCommand | FirefoxCommand => true
  | _ => false
  end.

(** * Properties *)

(** ** Monad and record bookkeeping *)

Lemma exec_bind {A B} (m : M A) (k : A -> M B) s :
  exec (bind m k) s = exec (k (fst (m s))) (snd (m s)).
Proof. unfold exec, bind. destruct (m s); reflexivity. Qed.

Lemma state_eta (s : state) :
  s = mkState (commandQueue s) (commmandUsed s) (soundQueue s) (soundTimeout s)
        (previousCommandPointer s) (keyPressed s) (ctrlPressed s) (altPressed s)
        (helper s) (commandHistory s) (now s) (timers s) (nextTimerId s) (log s).
Proof. destruct s; reflexivity. Qed.

(** Unfolds the record updates and the field reads of a state. *)
Ltac state_fields :=
  cbv [set_commandQueue set_commmandUsed set_soundQueue set_soundTimeout
       set_previousCommandPointer set_keyPressed set_ctrlPressed set_altPressed
       set_helper set_commandHistory set_now set_timers set_nextTimerId set_log
       set_command set_onStep
       commandQueue commmandUsed soundQueue soundTimeout previousCommandPointer
       keyPressed ctrlPressed altPressed helper commandHistory now timers
       nextTimerId log command onStep fallbackStep keysBlocked hideInput].

(** Runs the monadic plumbing of a computation applied to a state. *)
Ltac run_monad :=
  cbv [exec bind ret gets modify when emit setTimeout pushSound fst snd];
  state_fields.

(** ** Morse scheduler *)

Lemma classify_spec code : classify code = (symbolDuration code, isPulse code).
Proof.
  destruct code as [[] [] [] [] [] [] [] []]; reflexivity.
Qed.

Lemma symbolDuration_pos code : 0 < symbolDuration code.
Proof.
  unfold symbolDuration.
  repeat match goal with |- context [if ?b then _ else _] => destruct b end; lia.
Qed.

Lemma finalCursor_ge codes : forall cursor, cursor <= finalCursor cursor codes.
Proof.
  induction codes as [|code rest IH]; intros cursor; cbn [finalCursor]; [lia|].
  specialize (IH (cursor + symbolDuration code)).
  pose proof (symbolDuration_pos code). lia.
Qed.

Lemma timeline_ge codes : forall cursor,
  Forall (fun ev => cursor <= fst ev <= finalCursor cursor codes) (timeline cursor codes).
Proof.
  induction codes as [|code rest IH]; intros cursor; cbn [timeline finalCursor]; [constructor|].
  pose proof (symbolDuration_pos code) as Hd.
  pose proof (finalCursor_ge rest (cursor + symbolDuration code)) as Hf.
  apply Forall_app; split.
  - destruct (isPulse code); repeat constructor; cbn [fst]; lia.
  - eapply Forall_impl; [|apply IH]. cbn beta. intros ev ?. lia.
Qed.

Lemma gainTimers_app evs1 : forall id t evs2,
  gainTimers id t (evs1 ++ evs2)
  = gainTimers id t evs1 ++ gainTimers (id + Z.of_nat (List.length evs1)) t evs2.
Proof.
  induction evs1 as [|[off v] r IH]; intros id t evs2; cbn [gainTimers app List.length].
  - f_equal. lia.
  - rewrite IH. cbn [app]. do 3 f_equal. lia.
Qed.

Lemma length_gainTimers evs : forall id t, List.length (gainTimers id t evs) = List.length evs.
Proof.
  induction evs as [|[off v] r IH]; intros; cbn [gainTimers List.length]; [reflexivity|].
  now rewrite IH.
Qed.

Lemma length_timeline codes : forall cursor,
  List.length (timeline cursor codes) = (2 * pulseCount codes)%nat.
Proof.
  unfold pulseCount.
  induction codes as [|code rest IH]; intros cursor; cbn [timeline filter]; [reflexivity|].
  rewrite length_app, IH. destruct (isPulse code); cbn [List.length]; lia.
Qed.

(** One symbol: what the loop body leaves behind. *)
Lemma morseStep_run code s :
  exec (morseStep code) s =
    mkState (commandQueue s) (commmandUsed s)
      (soundQueue s ++ map timerId (gainTimers (nextTimerId s) (now s) (timeline (soundTimeout s) [code])))
      (soundTimeout s + symbolDuration code)
      (previousCommandPointer s) (keyPressed s) (ctrlPressed s) (altPressed s)
      (helper s) (commandHistory s) (now s)
      (timers s ++ gainTimers (nextTimerId s) (now s) (timeline (soundTimeout s) [code]))
      (nextTimerId s + 2 * Z.of_nat (pulseCount [code]))
      (log s).
Proof.
  unfold morseStep. rewrite classify_spec.
  unfold pulseCount. cbn [timeline filter].
  destruct s as [cq cu sq sto pcp kp cp ap h ch nw tm nid lg]; cbn.
  destruct (isPulse code); run_monad; cbn [app gainTimers map timerId List.length].
  - rewrite <- !app_assoc. cbn [app].
    f_equal. simpl. lia.
  - rewrite !app_nil_r. f_equal. simpl. lia.
Qed.

Lemma timeline_cons cursor code rest :
  timeline cursor (code :: rest)
  = timeline cursor [code] ++ timeline (cursor + symbolDuration code) rest.
Proof. cbn [timeline]. now rewrite app_nil_r. Qed.

Lemma pulseCount_cons code rest :
  pulseCount (code :: rest) = (pulseCount [code] + pulseCount rest)%nat.
Proof. unfold pulseCount. cbn [filter]. destruct (isPulse code); reflexivity. Qed.

Lemma morseLoop_run codes : forall s,
  exec (morseLoop codes) s =
    mkState (commandQueue s) (commmandUsed s)
      (soundQueue s ++ map timerId (gainTimers (nextTimerId s) (now s) (timeline (soundTimeout s) codes)))
      (finalCursor (soundTimeout s) codes)
      (previousCommandPointer s) (keyPressed s) (ctrlPressed s) (altPressed s)
      (helper s) (commandHistory s) (now s)
      (timers s ++ gainTimers (nextTimerId s) (now s) (timeline (soundTimeout s) codes))
      (nextTimerId s + 2 * Z.of_nat (pulseCount codes))
      (log s).
Proof.
  induction codes as [|code rest IH]; intros s.
  - cbn. rewrite !app_nil_r, Z.add_0_r. apply state_eta.
  - cbn [morseLoop]. rewrite exec_bind.
    change (snd (morseStep code s)) with (exec (morseStep code) s).
    rewrite (morseStep_run code s).
    destruct s as [cq cu sq sto pcp kp cp ap h ch nw tm nid lg].
    rewrite IH. state_fields.
    rewrite (timeline_cons sto code rest), (pulseCount_cons code rest).
    rewrite gainTimers_app, map_app, !app_assoc, length_timeline.
    cbn [finalCursor].
    replace (Z.of_nat (2 * pulseCount [code])) with (2 * Z.of_nat (pulseCount [code])) by lia.
    f_equal. lia.
Qed.

(** The whole call: the cursor is reset when the sound queue is empty, the
    symbols are walked, and the cleanup is registered at the final cursor. *)
Lemma playMorse_run morseCode silent s :
  let codes := chars morseCode in
  let start := startCursor s in
  let scheduled := gainTimers (nextTimerId s) (now s) (timeline start codes) in
  exec (playMorse morseCode silent) s =
    mkState (commandQueue s) (commmandUsed s)
      (soundQueue s ++ map timerId scheduled)
      (finalCursor start codes)
      (previousCommandPointer s) (keyPressed s) (ctrlPressed s) (altPressed s)
      (helper s) (commandHistory s) (now s)
      (timers s ++ scheduled ++
         [cleanupTimer (nextTimerId s + 2 * Z.of_nat (pulseCount codes)) (now s)
            (finalCursor start codes) morseCode silent])
      (nextTimerId s + 2 * Z.of_nat (pulseCount codes) + 1)
      (log s).
Proof.
  intros codes start scheduled. subst codes start scheduled.
  unfold playMorse, startCursor.
  rewrite exec_bind. cbn [gets fst snd].
  rewrite exec_bind.
  set (s0 := snd (when (Nat.eqb (List.length (soundQueue s)) 0) (modify (set_soundTimeout 0)) s)).
  assert (Hs0 : s0 = set_soundTimeout (match soundQueue s with [] => 0 | _ :: _ => soundTimeout s end) s).
  { subst s0. destruct s as [cq cu sq sto pcp kp cp ap h ch nw tm nid lg].
    destruct sq; reflexivity. }
  rewrite exec_bind.
  change (snd (morseLoop (chars morseCode) s0)) with (exec (morseLoop (chars morseCode)) s0).
  rewrite morseLoop_run, Hs0.
  destruct s as [cq cu sq sto pcp kp cp ap h ch nw tm nid lg].
  run_monad. unfold cleanupTimer. now rewrite <- app_assoc.
Qed.

Lemma gainTimers_offsets evs : forall id t,
  Forall (fun ev => 0 <= fst ev) evs ->
  map (fun x => (fireAt x - t, timerCb x)) (gainTimers id t evs) = map gainEvent evs.
Proof.
  induction evs as [|[off v] r IH]; intros id t Hall; [reflexivity|].
  inversion Hall as [|? ? Hoff Hr]; subst. cbn [fst] in Hoff.
  cbn [gainTimers map fireAt timerCb]. rewrite IH by assumption.
  unfold gainEvent at 2. cbn [fst snd]. do 2 f_equal. lia.
Qed.

Lemma registeredSince_app s s' added :
  timers s' = timers s ++ added ->
  registeredSince s s' = map (fun t => (fireAt t - now s, timerCb t)) added.
Proof.
  intros H. unfold registeredSince. rewrite H, skipn_app, skipn_all, Nat.sub_diag.
  reflexivity.
Qed.

(** The equations of the timeline, symbol by symbol. *)
Lemma timeline_symbols :
  (forall c r, timeline c (dot :: r) = (c, 1) :: (c + 50, 0) :: timeline (c + 50) r)
  /\ (forall c r, timeline c (dash :: r) = (c, 1) :: (c + 150, 0) :: timeline (c + 150) r)
  /\ (forall c r, timeline c (morseSeparator :: r) = timeline (c + 200) r)
  /\ (forall c x r, x <> dot -> x <> dash -> x <> morseSeparator ->
        timeline c (x :: r) = timeline (c + 75) r).
Proof.
  repeat split; try reflexivity.
  intros c x r Hdot Hdash Hsep. cbn [timeline].
  unfold isPulse, symbolDuration.
  apply Ascii.eqb_neq in Hdot, Hdash, Hsep. now rewrite Hdot, Hdash, Hsep.
Qed.

Lemma finalCursor_symbols :
  (forall c r, finalCursor c (dot :: r) = finalCursor (c + 50) r)
  /\ (forall c r, finalCursor c (dash :: r) = finalCursor (c + 150) r)
  /\ (forall c r, finalCursor c (morseSeparator :: r) = finalCursor (c + 200) r)
  /\ (forall c x r, x <> dot -> x <> dash -> x <> morseSeparator ->
        finalCursor c (x :: r) = finalCursor (c + 75) r).
Proof.
  repeat split; try reflexivity.
  intros c x r Hdot Hdash Hsep. cbn [finalCursor].
  unfold symbolDuration.
  apply Ascii.eqb_neq in Hdot, Hdash, Hsep. now rewrite Hdot, Hdash, Hsep.
Qed.

(** [playMorse] walks the symbol string left to right with a running
    cursor.  The cursor starts at 0 when the sound queue is empty and at the
    value the previous call left otherwise, so that nothing the call
    schedules comes before that value.  A dot gives gain-on at the cursor
    and gain-off 50ms later, a dash the same with 150ms, a separator and
    any other character give no gain event (200ms and 75ms), and every
    symbol moves the cursor by its duration; the cleanup is registered at
    the final cursor, which is also what the call leaves in [soundTimeout]. *)
Theorem playMorse_walks_the_symbols (morseCode : string) (silent : bool) (s : state) :
  0 <= soundTimeout s ->
  let codes := chars morseCode in
  let start := startCursor s in
  let s' := exec (playMorse morseCode silent) s in
  (soundQueue s = [] -> start = 0)
  /\ (soundQueue s <> [] -> start = soundTimeout s)
  /\ firstn (List.length (timers s)) (timers s') = timers s
  /\ registeredSince s s'
     = map gainEvent (timeline start codes)
       ++ [(finalCursor start codes,
            CbFinishSoundQueue (2 * jsLength morseCode) morseCode silent)]
  /\ Forall (fun ev => start <= fst ev <= finalCursor start codes) (timeline start codes)
  /\ soundTimeout s' = finalCursor start codes
  /\ (forall c r, timeline c (dot :: r) = (c, 1) :: (c + 50, 0) :: timeline (c + 50) r)
  /\ (forall c r, timeline c (dash :: r) = (c, 1) :: (c + 150, 0) :: timeline (c + 150) r)
  /\ (forall c r, timeline c (morseSeparator :: r) = timeline (c + 200) r)
  /\ (forall c x r, x <> dot -> x <> dash -> x <> morseSeparator ->
        timeline c (x :: r) = timeline (c + 75) r)
  /\ (forall c x r, finalCursor c (x :: r) = finalCursor (c + symbolDuration x) r).
Proof.
  intros Hpos codes start s'.
  assert (Hstart : 0 <= start).
  { subst start. unfold startCursor. destruct (soundQueue s); lia. }
  pose proof (timeline_ge codes start) as Hge.
  pose proof (finalCursor_ge codes start) as Hfin.
  pose proof (playMorse_run morseCode silent s) as Hrun. cbv zeta in Hrun.
  fold codes start s' in Hrun.
  split; [|split; [|split; [|split; [|split; [|split]]]]].
  - intros Hq. subst start. unfold startCursor. now rewrite Hq.
  - intros Hq. subst start. unfold startCursor. destruct (soundQueue s); congruence.
  - rewrite Hrun. cbn [timers]. rewrite firstn_app, firstn_all, Nat.sub_diag.
    cbn [firstn]. now rewrite app_nil_r.
  - rewrite (registeredSince_app s s' _ (f_equal timers Hrun)).
    rewrite map_app, gainTimers_offsets.
    + cbn [map cleanupTimer fireAt timerCb]. do 3 f_equal.
      rewrite Z.max_r by lia. lia.
    + eapply Forall_impl; [|exact Hge]. cbn beta. intros ev ?. lia.
  - exact Hge.
  - now rewrite Hrun.
  - pose proof timeline_symbols as (H1 & H2 & H3 & H4).
    repeat split; try assumption. 
Qed.

Lemma playMorse_walks_the_symbols_witness :
  0 <= soundTimeout initialState
  /\ registeredSince initialState (exec (playMorse ".#-" true) initialState)
     = [(0, CbSetGain 1); (50, CbSetGain 0); (250, CbSetGain 1); (400, CbSetGain 0);
        (400, CbFinishSoundQueue 6 ".#-" true)].
Proof.
  assert (H : 0 <= soundTimeout initialState) by (vm_compute; discriminate).
  split; [exact H|].
  exact (proj1 (proj2 (proj2 (proj2 (playMorse_walks_the_symbols ".#-" true initialState H))))).
Defined.

Section MorseCleanup.

Context {CH : CommandHandler}.

(** What the cleanup does when its timer fires. *)
Lemma finishSoundQueue_run morseCode silent timeouts st :
  exec (runCallback (CbFinishSoundQueue timeouts morseCode silent)) st
  = let st' := set_soundQueue (splice0 timeouts (soundQueue st)) st in
    if silent then st'
    else set_log (log st ++ [(now st, QueueMessage (morseMessage (removeAll morseSeparator morseCode)))]) st'.
Proof.
  destruct st as [cq cu sq sto pcp kp cp ap h ch nw tm nid lg].
  destruct silent; reflexivity.
Qed.

(** C7, as stated, fails: for [".-#"] played from the initial state (empty
    sound queue) no cleanup is registered 250ms after the call. *)
Lemma morse_dot_dash_separator_no_cleanup_at_250 :
  ~ cleanupAt 250 initialState (exec (playMorse ".-#" false) initialState).
Proof.
  intros (t & Hin & Hclean & Hat).
  assert (Htimers :
            timers (exec (playMorse ".-#" false) initialState)
            = [mkTimer 1 0 (CbSetGain 1); mkTimer 2 50 (CbSetGain 0);
               mkTimer 3 50 (CbSetGain 1); mkTimer 4 200 (CbSetGain 0);
               mkTimer 5 400 (CbFinishSoundQueue 6 ".-#" false)])
    by (vm_compute; reflexivity).
  rewrite Htimers in Hin.
  change (now initialState + 250) with 250 in Hat.
  cbn [In] in Hin.
  repeat (destruct Hin as [Heq | Hin];
          [subst t; cbn in Hclean, Hat; try discriminate; lia|]).
  exact Hin.
Qed.

(** C7, amended.  From an empty sound queue, [".-#"] registers gain-on at 0
    and gain-off at 50 for the dot, gain-on at 50 and gain-off at 200 for
    the dash, nothing for the separator (a gap of 200ms), and the cleanup
    at 400; the cleanup then empties the finished part of the queue and
    shows the text without separators, [".-"]. *)
Theorem morse_dot_dash_separator (s : state) :
  soundQueue s = [] ->
  let s' := exec (playMorse ".-#" false) s in
  registeredSince s s'
  = [(0, CbSetGain 1); (50, CbSetGain 0); (50, CbSetGain 1); (200, CbSetGain 0);
     (400, CbFinishSoundQueue 6 ".-#" false)]
  /\ cleanupAt 400 s s'
  /\ forall st,
       let st' := exec (runCallback (CbFinishSoundQueue 6 ".-#" false)) st in
       displayed (events (skipn (List.length (log st)) (log st')))
       = [morseMessage ".-"].
Proof.
  intros Hq s'.
  pose proof (playMorse_run ".-#" false s) as Hrun. cbv zeta in Hrun. fold s' in Hrun.
  unfold startCursor in Hrun. rewrite Hq in Hrun.
  split; [|split].
  - rewrite (registeredSince_app s s' _ (f_equal timers Hrun)).
    cbn. repeat (f_equal; try lia).
  - exists (cleanupTimer (nextTimerId s + 2 * Z.of_nat (pulseCount (chars ".-#"))) (now s)
              (finalCursor 0 (chars ".-#")) ".-#" false).
    split; [|split; [reflexivity|reflexivity]].
    rewrite Hrun. cbn [timers]. rewrite !in_app_iff. right. right. now left.
  - intros st st'. subst st'. rewrite finishSoundQueue_run. cbv zeta.
    destruct st as [cq cu sq sto pcp kp cp ap h ch nw tm nid lg]. state_fields.
    rewrite skipn_app, skipn_all, Nat.sub_diag. reflexivity.
Qed.



Lemma length_chars (s : string) : List.length (chars s) = String.length s.
Proof.
  unfold chars. induction s as [|c r IH]; cbn; [reflexivity|]. now rewrite IH.
Qed.

Lemma pulseCount_le codes : (pulseCount codes <= List.length codes)%nat.
Proof. unfold pulseCount. apply filter_length_le. Qed.

Lemma pulseCount_all codes :
  pulseCount codes = List.length codes <-> forallb isPulse codes = true.
Proof.
  induction codes as [|code rest IH]; [cbn; tauto|].
  rewrite pulseCount_cons. unfold pulseCount at 1. cbn [filter forallb List.length].
  pose proof (pulseCount_le rest) as Hle.
  destruct (isPulse code); cbn [List.length andb]; rewrite <- ?IH; split; intros;
    try lia; try discriminate.
Qed.

Lemma gainTimers_no_cleanup evs : forall id t,
  existsb isCleanup (gainTimers id t evs) = false.
Proof.
  induction evs as [|[off v] r IH]; intros id t; [reflexivity|].
  cbn [gainTimers existsb]. now rewrite IH.
Qed.

(** C10, amended.  A call [playMorse(morseCode, silent)] appends to the
    sound queue two entries per pulse symbol; the cleanup it registers asks
    to remove twice the length of [morseCode] from the front of the queue,
    which removes that many entries or, when the queue is shorter, all of
    them.  The count asked for equals the count appended exactly when every
    symbol is a pulse symbol; the count removed equals the count appended
    also whenever the queue holds just the entries of this call. *)
Theorem playMorse_appends_pulses_removes_length (morseCode : string) (silent : bool) (s : state) :
  let codes := chars morseCode in
  let s' := exec (playMorse morseCode silent) s in
  let cleanup := CbFinishSoundQueue (2 * jsLength morseCode) morseCode silent in
  (exists appended,
      soundQueue s' = soundQueue s ++ appended
      /\ List.length appended = (2 * pulseCount codes)%nat)
  /\ (exists registered id due,
        timers s' = timers s ++ registered ++ [mkTimer id due cleanup]
        /\ existsb isCleanup registered = false)
  /\ (forall st,
        let st' := exec (runCallback cleanup) st in
        soundQueue st' = skipn (2 * String.length morseCode) (soundQueue st)
        /\ List.length (soundQueue st')
           = (List.length (soundQueue st)
              - Nat.min (2 * String.length morseCode) (List.length (soundQueue st)))%nat)
  /\ ((2 * String.length morseCode = 2 * pulseCount codes)%nat
      <-> forallb isPulse codes = true)
  /\ (forall st,
        List.length (soundQueue st) = (2 * pulseCount codes)%nat ->
        soundQueue (exec (runCallback cleanup) st) = []).
Proof.
  intros codes s' cleanup.
  pose proof (playMorse_run morseCode silent s) as Hrun. cbv zeta in Hrun.
  fold codes s' in Hrun.
  assert (Hcleanup : forall st,
             soundQueue (exec (runCallback cleanup) st)
             = skipn (2 * String.length morseCode) (soundQueue st)).
  { intros st. unfold cleanup. rewrite finishSoundQueue_run. cbv zeta.
    assert (Hn : Z.to_nat (2 * jsLength morseCode) = (2 * String.length morseCode)%nat)
      by (unfold jsLength; lia).
    unfold splice0. rewrite Hn. destruct silent; destruct st; reflexivity. }
  split; [|split; [|split; [|split]]].
  - eexists. split; [rewrite Hrun; reflexivity|].
    now rewrite length_map, length_gainTimers, length_timeline.
  - do 3 eexists. rewrite Hrun. cbn [timers]. unfold cleanupTimer.
    split; [reflexivity|]. apply gainTimers_no_cleanup.
  - intros st st'. subst st'. rewrite Hcleanup.
    split; [reflexivity|]. rewrite length_skipn. lia.
  - rewrite <- (pulseCount_all codes). unfold codes. rewrite length_chars. lia.
  - intros st Hlen. rewrite Hcleanup. apply skipn_all2.
    pose proof (pulseCount_le codes) as Hle. unfold codes in Hle. rewrite length_chars in Hle.
    fold codes in Hle. lia.
Qed.

End MorseCleanup.

(** C10, as stated, fails: played alone, [".#"] appends two entries and its
    cleanup removes two, as many as were appended, though the separator is
    no pulse symbol. *)
Lemma cleanup_removes_what_was_appended_despite_separator :
  let s1 := exec (playMorse ".#" true) initialState in
  let before := runTimers (CH := Demo.handler) 2 s1 in
  let after := runTimers (CH := Demo.handler) 3 s1 in
  (List.length (soundQueue s1) - List.length (soundQueue initialState) = 2)%nat
  /\ filter isCleanup (timers before) = timers before
  /\ (List.length (soundQueue before) - List.length (soundQueue after) = 2)%nat
  /\ forallb isPulse (chars ".#") = false.
Proof.
  cbv zeta.
  split; [vm_compute; reflexivity|].
  split; [vm_compute; reflexivity|].
  split; vm_compute; reflexivity.
Qed.

Lemma morse_dot_dash_separator_witness :
  soundQueue initialState = []
  /\ cleanupAt 400 initialState (exec (playMorse ".-#" false) initialState).
Proof.
  assert (H : soundQueue initialState = []) by reflexivity.
  split; [exact H|].
  exact (proj1 (proj2 (morse_dot_dash_separator (CH := Demo.handler) initialState H))).
Defined.

(** ** Command queue and dispatcher *)

Section Dispatcher.

Context {CH : CommandHandler}.

Lemma executions_app l1 l2 : executions (l1 ++ l2) = executions l1 ++ executions l2.
Proof. unfold executions. apply flat_map_app. Qed.

Lemma executions_echo c t : executions (echo c t) = [].
Proof. unfold echo. destruct (Stored.commandMsg c); reflexivity. Qed.

(** One round of [consumeCommandQueue] on a queue that is not empty. *)
Lemma consume_cons c rest s :
  commandQueue s = c :: rest ->
  exec consumeCommandQueue s =
    mkState rest true (soundQueue s) (soundTimeout s) (previousCommandPointer s)
      (keyPressed s) (ctrlPressed s) (altPressed s)
      (triggerCommand (Stored.command c) (Some (Stored.data c)) (helper s))
      (commandHistory s) (now s)
      (timers s ++ [mkTimer (nextTimerId s) (now s + commandTime) CbConsumeCommandQueue])
      (nextTimerId s + 1)
      (log s ++ echo c (now s)
         ++ [(now s, TriggerCommand (Stored.command c) (Some (Stored.data c)))]).
Proof.
  intros Hq. destruct s as [cq cu sq sto pcp kp cp ap h ch nw tm nid lg].
  cbn in Hq. subst cq. unfold consumeCommandQueue, echo.
  destruct c as [cmd dat [m|]]; cbn; rewrite <- ?app_assoc; reflexivity.
Qed.

Lemma consume_nil s :
  commandQueue s = [] -> exec consumeCommandQueue s = set_commmandUsed false s.
Proof.
  intros Hq. destruct s as [cq cu sq sto pcp kp cp ap h ch nw tm nid lg].
  cbn in Hq. subst cq. reflexivity.
Qed.

(** With the dispatcher's timer the only one pending, firing it runs the
    next round one [commandTime] later. *)
Lemma fire_consume s id :
  timers s = [mkTimer id (now s + commandTime) CbConsumeCommandQueue] ->
  fireTimer s
  = Some (exec consumeCommandQueue (set_now (now s + commandTime) (set_timers [] s))).
Proof.
  intros Ht. unfold fireTimer. rewrite Ht. cbn [nextTimer timerId timerCb fireAt runCallback].
  rewrite Z.max_r by (unfold commandTime; lia). reflexivity.
Qed.

(** Draining: after [k] timer firings the first [k + 1] entries have been
    executed, in order, [commandTime] apart, and nothing else. *)
Lemma drain q : forall s k,
  commandQueue s = q -> timers s = [] ->
  let s' := runTimers k (exec consumeCommandQueue s) in
  executions (log s') = executions (log s) ++ firstn (S k) (schedule (now s) q)
  /\ commandQueue s' = skipn (S k) q
  /\ commmandUsed s' = Nat.ltb k (List.length q)
  /\ List.length (timers s') = (if Nat.ltb k (List.length q) then 1 else 0)%nat.
Proof.
  induction q as [|c rest IH]; intros s k Hq Ht.
  - cbv zeta. rewrite (consume_nil s Hq).
    assert (Hfix : runTimers k (set_commmandUsed false s) = set_commmandUsed false s).
    { destruct k; [reflexivity|]. cbn [runTimers]. unfold fireTimer.
      destruct s; cbn in Ht |- *. now rewrite Ht. }
    rewrite Hfix. destruct s; cbn in Hq, Ht |- *. subst.
    rewrite app_nil_r. repeat split; reflexivity.
  - cbv zeta. rewrite (consume_cons c rest s Hq).
    set (s1 := mkState _ _ _ _ _ _ _ _ _ _ _ _ _ _).
    destruct k as [|k].
    + cbn [runTimers]. subst s1. cbn [log commandQueue commmandUsed timers].
      rewrite Ht, !executions_app, executions_echo. cbn.
      repeat split; reflexivity.
    + cbn [runTimers].
      rewrite (fire_consume s1 (nextTimerId s)) by (subst s1; cbn; now rewrite Ht).
      set (s2 := set_now _ _).
      specialize (IH s2 k eq_refl eq_refl). cbv zeta in IH.
      destruct IH as (Hex & Hcq & Hused & Htm).
      rewrite Hex, Hcq, Hused, Htm. subst s2 s1. state_fields.
      rewrite !executions_app, executions_echo. cbn [app executions flat_map snd fst].
      cbn [schedule firstn skipn List.length]. rewrite <- app_assoc.
      repeat split; reflexivity.
Qed.

Lemma length_schedule q : forall t, List.length (schedule t q) = List.length q.
Proof. induction q as [|c r IH]; intros t; cbn; [reflexivity|]. now rewrite IH. Qed.

Lemma queueAll_run invs : forall s,
  exec (queueAll invs) s = set_commandQueue (commandQueue s ++ invs) s.
Proof.
  induction invs as [|[c d m] rest IH]; intros s.
  - cbn. rewrite app_nil_r. destruct s; reflexivity.
  - cbn [queueAll]. rewrite exec_bind, IH. destruct s; cbn.
    now rewrite <- app_assoc.
Qed.

(** *** Draining next to other timers *)

Lemma nextTimer_none ts : nextTimer ts = None -> ts = [].
Proof.
  destruct ts as [|t r]; [reflexivity|]. cbn [nextTimer].
  destruct (nextTimer r) as [[u r']|]; [|discriminate].
  destruct (fireAt t <=? fireAt u); discriminate.
Qed.

(** The timer taken is one of the table, the rest is the table without it,
    and no timer of the table is due before it. *)
Lemma nextTimer_spec ts : forall u rest,
  nextTimer ts = Some (u, rest) ->
  exists l1 l2,
    ts = l1 ++ u :: l2 /\ rest = l1 ++ l2
    /\ Forall (fun x => fireAt u <= fireAt x) ts.
Proof.
  induction ts as [|t r IH]; intros u rest Hnext; [discriminate|].
  cbn [nextTimer] in Hnext.
  destruct (nextTimer r) as [[v r']|] eqn:Hr.
  - destruct (IH v r' eq_refl) as (l1 & l2 & Hts & Hrest & Hmin).
    destruct (fireAt t <=? fireAt v) eqn:Hle; inversion Hnext; subst u rest; clear Hnext.
    + exists [], r. repeat split. constructor; [lia|].
      apply Z.leb_le in Hle. eapply Forall_impl; [|exact Hmin]. cbn beta. intros; lia.
    + exists (t :: l1), l2. rewrite Hts, Hrest. repeat split.
      apply Z.leb_gt in Hle. constructor; [lia|]. now rewrite <- Hts.
  - inversion Hnext; subst u rest. apply nextTimer_none in Hr. subst r.
    exists [], []. repeat split. constructor; [lia|constructor].
Qed.

(** Callbacks other than the dispatcher's leave the dispatcher alone. *)
Lemma other_callback cb st :
  cb <> CbConsumeCommandQueue ->
  let st' := exec (runCallback cb) st in
  commandQueue st' = commandQueue st /\ commmandUsed st' = commmandUsed st
  /\ timers st' = timers st /\ now st' = now st
  /\ executions (log st') = executions (log st).
Proof.
  intros Hcb. destruct st as [cq cu sq sto pcp kp cp ap h ch nw tm nid lg].
  destruct cb as [v|n m [|]|]; try congruence; cbn; repeat split;
    rewrite executions_app; cbn; now rewrite app_nil_r.
Qed.

Lemma isConsume_cb t : isConsume t = true -> timerCb t = CbConsumeCommandQueue.
Proof. unfold isConsume. now destruct (timerCb t). Qed.

Lemma not_isConsume_cb t : isConsume t = false -> timerCb t <> CbConsumeCommandQueue.
Proof. unfold isConsume. destruct (timerCb t); congruence. Qed.

Lemma filter_one_split {A} (f : A -> bool) l1 u l2 c :
  filter f (l1 ++ u :: l2) = [c] ->
  (f u = true /\ u = c /\ filter f (l1 ++ l2) = [])
  \/ (f u = false /\ filter f (l1 ++ l2) = [c]).
Proof.
  rewrite !filter_app. cbn [filter]. destruct (f u) eqn:Hu; intros H.
  - left. destruct (filter f l1) as [|x [|y r]]; cbn in H.
    + inversion H as [[Hc Hl2]]. rewrite Hl2. repeat split.
    + inversion H.
    + discriminate.
  - right. split; [reflexivity|exact H].
Qed.

(** One timer firing: at most one queued entry is executed, it is the next
    of the pending schedule, and the dispatcher is again in a phase, with
    one timer or one pending execution less. *)
Lemma phase_step st pending st1 :
  phase st pending ->
  fireTimer st = Some st1 ->
  exists done pending',
    pending = done ++ pending'
    /\ (List.length done <= 1)%nat
    /\ executions (log st1) = executions (log st) ++ done
    /\ phase st1 pending'
    /\ (List.length (timers st1) + List.length pending' + 1
        = List.length (timers st) + List.length pending)%nat.
Proof.
  intros Hphase Hfire. unfold fireTimer in Hfire.
  destruct (nextTimer (timers st)) as [[u rest]|] eqn:Hnext; [|discriminate].
  inversion Hfire as [Hst1]; clear Hfire. subst st1.
  destruct (nextTimer_spec _ _ _ Hnext) as (l1 & l2 & Hts & Hrest & Hmin).
  set (st0 := set_now (Z.max (now st) (fireAt u)) (set_timers rest st)) in *.
  assert (Hst0 : commandQueue st0 = commandQueue st /\ commmandUsed st0 = commmandUsed st
                 /\ timers st0 = rest /\ now st0 = Z.max (now st) (fireAt u)
                 /\ log st0 = log st)
    by (subst st0; destruct st; repeat split).
  destruct Hst0 as (Hq0 & Hu0 & Ht0 & Hn0 & Hl0).
  assert (Hlen : List.length (timers st) = S (List.length rest)).
  { rewrite Hts, Hrest, !length_app. cbn [List.length]. lia. }
  destruct (isConsume u) eqn:Hu.
  - (* the dispatcher's own timer *)
    pose proof (isConsume_cb u Hu) as Hcb. rewrite Hcb. cbn [runCallback].
    destruct Hphase as [c Hbusy Hone Hnow | Hq Hidle Hnone].
    + rewrite Hts in Hone. apply filter_one_split in Hone.
      destruct Hone as [(_ & -> & Hnone) | (Hu' & _)]; [|congruence].
      rewrite <- Hrest in Hnone.
      assert (Hnow0 : now st0 = fireAt c) by (rewrite Hn0; lia).
      destruct (commandQueue st) as [|x q'] eqn:Hq.
      * exists [], []. rewrite (consume_nil st0) by congruence.
        split; [reflexivity|]. split; [cbn; lia|].
        split; [destruct st0; cbn in *; now rewrite app_nil_r, Hl0|].
        split; [apply Idle; destruct st0; cbn in *; congruence|].
        destruct st0; cbn in *. subst. lia.
      * exists [(fireAt c, Stored.command x, Stored.data x)], (schedule (fireAt c + commandTime) q').
        rewrite (consume_cons x q' st0) by congruence.
        split; [reflexivity|]. split; [cbn; lia|].
        split; [cbn [log]; rewrite !executions_app, executions_echo, Hl0, Hnow0; reflexivity|].
        split.
        { pose proof (Draining
                        (mkState q' true (soundQueue st0) (soundTimeout st0)
                           (previousCommandPointer st0) (keyPressed st0) (ctrlPressed st0)
                           (altPressed st0)
                           (triggerCommand (Stored.command x) (Some (Stored.data x)) (helper st0))
                           (commandHistory st0) (now st0)
                           (timers st0 ++ [mkTimer (nextTimerId st0) (now st0 + commandTime)
                                             CbConsumeCommandQueue])
                           (nextTimerId st0 + 1)
                           (log st0 ++ echo x (now st0)
                              ++ [(now st0, TriggerCommand (Stored.command x) (Some (Stored.data x)))]))
                        (mkTimer (nextTimerId st0) (now st0 + commandTime) CbConsumeCommandQueue))
            as Hd.
          cbn [commmandUsed timers now fireAt commandQueue] in Hd.
          rewrite <- Hnow0. apply Hd; [reflexivity| |unfold commandTime; lia].
          rewrite filter_app, Ht0, Hnone. reflexivity. }
        cbn [timers]. rewrite length_app, Ht0, !length_schedule. cbn [List.length]. lia.
    + rewrite Hts in Hnone. rewrite filter_app in Hnone. cbn [filter] in Hnone.
      rewrite Hu in Hnone. destruct (filter isConsume l1); discriminate.
  - (* a timer of somebody else *)
    pose proof (other_callback (timerCb u) st0 (not_isConsume_cb u Hu)) as Hother.
    cbv zeta in Hother.
    destruct Hother as (Hq1 & Hu1 & Ht1 & Hn1 & Hl1).
    exists [], pending. split; [reflexivity|]. split; [cbn; lia|].
    split; [now rewrite Hl1, Hl0, app_nil_r|].
    split; [|rewrite Ht1, Ht0; lia].
    destruct Hphase as [c Hbusy Hone Hnow | Hq Hidle Hnone].
    + rewrite Hts in Hone. apply filter_one_split in Hone.
      destruct Hone as [(Hu' & _) | (_ & Hone)]; [congruence|].
      rewrite <- Hrest in Hone.
      assert (Hin : In c (timers st)).
      { assert (Hc : In c (filter isConsume rest)) by (rewrite Hone; now left).
        apply filter_In in Hc. destruct Hc as [Hc _].
        rewrite Hts. rewrite Hrest in Hc. apply in_app_iff in Hc. apply in_app_iff.
        destruct Hc; [now left|right; now right]. }
      rewrite Forall_forall in Hmin. specialize (Hmin c Hin).
      rewrite <- Hq0, <- Hq1. apply Draining; [congruence|congruence|].
      rewrite Hn1, Hn0. lia.
    + apply Idle; [congruence|congruence|].
      rewrite Ht1, Ht0, Hrest. rewrite Hts in Hnone.
      rewrite filter_app in Hnone |- *. cbn [filter] in Hnone. rewrite Hu in Hnone. exact Hnone.
Qed.

Lemma phase_no_timers st pending : phase st pending -> timers st = [] -> pending = [].
Proof.
  intros [c _ Hone _ | _ _ _] Ht; [|reflexivity].
  rewrite Ht in Hone. discriminate.
Qed.

(** Any number of timer firings: the executions so far are a first part of
    the pending schedule, no more than one per firing, and once every
    timer and every queued entry has had its firing nothing is left. *)
Lemma phase_run k : forall st pending,
  phase st pending ->
  exists done pending',
    pending = done ++ pending'
    /\ (List.length done <= k)%nat
    /\ executions (log (runTimers k st)) = executions (log st) ++ done
    /\ phase (runTimers k st) pending'
    /\ ((List.length (timers st) + List.length pending <= k)%nat ->
        pending' = [] /\ timers (runTimers k st) = []).
Proof.
  induction k as [|k IH]; intros st pending Hphase.
  - exists [], pending. cbn [runTimers]. rewrite app_nil_r.
    split; [reflexivity|]. split; [cbn; lia|]. split; [reflexivity|].
    split; [assumption|]. intros Hfuel. split.
    + destruct pending; [reflexivity|cbn in *; lia].
    + destruct (timers st); [reflexivity|cbn in *; lia].
  - cbn [runTimers]. destruct (fireTimer st) as [st1|] eqn:Hfire.
    + destruct (phase_step st pending st1 Hphase Hfire)
        as (done1 & pending1 & Hsplit1 & Hlen1 & Hex1 & Hphase1 & Hmeasure).
      destruct (IH st1 pending1 Hphase1) as (done2 & pending2 & Hsplit2 & Hlen2 & Hex2 & Hphase2 & Hall).
      exists (done1 ++ done2), pending2.
      split; [rewrite Hsplit1, Hsplit2; now rewrite app_assoc|].
      split; [rewrite length_app; lia|].
      split; [rewrite Hex2, Hex1; now rewrite app_assoc|].
      split; [exact Hphase2|].
      intros Hfuel. apply Hall. lia.
    + unfold fireTimer in Hfire.
      destruct (nextTimer (timers st)) as [[u rest]|] eqn:Hnext; [discriminate|].
      apply nextTimer_none in Hnext.
      pose proof (phase_no_timers st pending Hphase Hnext) as Hpending. subst pending.
      exists [], []. rewrite !app_nil_r.
      split; [reflexivity|]. split; [cbn; lia|]. split; [reflexivity|].
      split; [assumption|]. intros _. split; [reflexivity|assumption].
Qed.

(** Starting the queue from an idle dispatcher. *)
Lemma start_phase invs s :
  commandQueue s = [] -> commmandUsed s = false -> filter isConsume (timers s) = [] ->
  let started := exec consumeCommandQueue (set_commandQueue invs s) in
  exists first pending,
    schedule (now s) invs = first ++ pending
    /\ (List.length first <= 1)%nat
    /\ executions (log started) = executions (log s) ++ first
    /\ phase started pending
    /\ (List.length (timers started) + List.length pending
        = List.length (timers s) + List.length invs)%nat.
Proof.
  intros Hq Hidle Hnone started. subst started.
  destruct invs as [|x rest].
  - exists [], []. rewrite consume_nil by (destruct s; reflexivity).
    destruct s as [cq cu sq sto pcp kp cp ap h ch nw tm nid lg]. cbn in *. subst.
    rewrite app_nil_r. repeat split; try lia. now apply Idle.
  - exists [(now s, Stored.command x, Stored.data x)], (schedule (now s + commandTime) rest).
    rewrite (consume_cons x rest) by (destruct s; reflexivity).
    destruct s as [cq cu sq sto pcp kp cp ap h ch nw tm nid lg]. cbn in Hq, Hidle, Hnone. subst.
    state_fields.
    split; [reflexivity|]. split; [cbn; lia|].
    split; [rewrite !executions_app, executions_echo; reflexivity|].
    split.
    + pose proof (Draining
                    (mkState rest true sq sto pcp kp cp ap
                       (triggerCommand (Stored.command x) (Some (Stored.data x)) h) ch nw
                       (tm ++ [mkTimer nid (nw + commandTime) CbConsumeCommandQueue]) (nid + 1)
                       (lg ++ echo x nw
                           ++ [(nw, TriggerCommand (Stored.command x) (Some (Stored.data x)))]))
                    (mkTimer nid (nw + commandTime) CbConsumeCommandQueue)) as Hd.
      cbn [commmandUsed timers now fireAt commandQueue] in Hd.
      apply Hd; [reflexivity| |unfold commandTime; lia].
      rewrite filter_app, Hnone. reflexivity.
    + rewrite length_app, length_schedule. cbn [List.length]. lia.
Qed.

Lemma start_busy st : commmandUsed st = true -> startCommandQueue st = (tt, st).
Proof.
  intros Hbusy. unfold startCommandQueue, bind, gets, when. now rewrite Hbusy.
Qed.

Lemma start_idle st : commmandUsed st = false ->
  exec startCommandQueue st = exec consumeCommandQueue st.
Proof.
  intros Hidle. unfold startCommandQueue, exec, bind, gets, when. now rewrite Hidle.
Qed.

Lemma submitAll_busy invs : forall st,
  commmandUsed st = true ->
  exec (submitAll invs) st = set_commandQueue (commandQueue st ++ invs) st.
Proof.
  induction invs as [|[c d m] rest IH]; intros st Hbusy.
  - cbn. rewrite app_nil_r. destruct st; reflexivity.
  - cbn [submitAll Stored.command Stored.data Stored.commandMsg].
    rewrite exec_bind, exec_bind.
    set (st1 := snd (queueCommand c d m st)).
    assert (Hst1 : st1 = set_commandQueue (commandQueue st ++ [Stored.mk c d m]) st) by reflexivity.
    assert (Hb1 : commmandUsed st1 = true) by (rewrite Hst1; destruct st; exact Hbusy).
    rewrite (start_busy st1 Hb1). cbn [snd fst].
    rewrite IH by exact Hb1. rewrite Hst1. destruct st; cbn. now rewrite <- app_assoc.
Qed.

Lemma schedule_nth invs : forall t i c,
  nth_error invs i = Some c ->
  nth_error (schedule t invs) i
  = Some (t + commandTime * Z.of_nat i, Stored.command c, Stored.data c).
Proof.
  induction invs as [|x rest IH]; intros t i c Hnth; destruct i as [|i]; try discriminate.
  - cbn in Hnth |- *. inversion Hnth; subst. do 3 f_equal. lia.
  - cbn [nth_error schedule] in Hnth |- *. rewrite (IH _ _ _ Hnth). do 3 f_equal. lia.
Qed.

(** C1.  Entries enqueued while the dispatcher is idle are executed in the
    order submitted and [commandTime] (1000ms) apart: whatever else is
    pending in the timer table, after any number of timer firings the
    executions are a first part of that schedule, at most one more than
    there were firings, and once every timer has fired they are all of it
    and the dispatcher is idle again.  With no other timer pending, every
    firing runs exactly one entry.  Starting the queue while it is busy
    changes nothing, so that starting it after every single enqueue gives
    the same run. *)
Theorem dispatcher_runs_in_submission_order (invs : list Stored.t) (s : state) :
  commandQueue s = [] -> commmandUsed s = false -> filter isConsume (timers s) = [] ->
  let started := exec (queueAll invs ;; startCommandQueue) s in
  let plan := schedule (now s) invs in
  (forall k,
      exists done pending,
        plan = done ++ pending
        /\ (List.length done <= S k)%nat
        /\ executions (log (runTimers k started)) = executions (log s) ++ done)
  /\ (forall k,
        (List.length (timers s) + List.length invs <= k)%nat ->
        let s' := runTimers k started in
        executions (log s') = executions (log s) ++ plan
        /\ commandQueue s' = [] /\ commmandUsed s' = false /\ timers s' = [])
  /\ (timers s = [] ->
      forall k,
        let s' := runTimers k started in
        executions (log s') = executions (log s) ++ firstn (S k) plan
        /\ commandQueue s' = skipn (S k) invs
        /\ commmandUsed s' = Nat.ltb k (List.length invs))
  /\ (forall i c, nth_error invs i = Some c ->
        nth_error plan i = Some (now s + 1000 * Z.of_nat i, Stored.command c, Stored.data c))
  /\ (forall st, commmandUsed st = true -> startCommandQueue st = (tt, st))
  /\ exec (submitAll invs) s = started.
Proof.
  intros Hq Hidle Hnone started plan.
  assert (Hstarted : started = exec consumeCommandQueue (set_commandQueue invs s)).
  { subst started. rewrite exec_bind.
    change (snd (queueAll invs s)) with (exec (queueAll invs) s).
    rewrite queueAll_run, Hq. cbn [app fst].
    apply start_idle. destruct s; exact Hidle. }
  destruct (start_phase invs s Hq Hidle Hnone)
    as (first & pending & Hplan & Hfirst & Hex0 & Hphase0 & Hsize).
  rewrite <- Hstarted in Hex0, Hphase0, Hsize. fold plan in Hplan.
  split; [|split; [|split; [|split; [|split]]]].
  - intros k.
    destruct (phase_run k started pending Hphase0) as (done & rest & Hsplit & Hlen & Hex & _ & _).
    exists (first ++ done), rest.
    split; [rewrite Hplan, Hsplit; now rewrite app_assoc|].
    split; [rewrite length_app; lia|].
    rewrite Hex, Hex0. now rewrite app_assoc.
  - intros k Hfuel. cbv zeta.
    destruct (phase_run k started pending Hphase0)
      as (done & rest & Hsplit & Hlen & Hex & Hphase & Hall).
    destruct (Hall ltac:(lia)) as (Hrest & Htimers). subst rest.
    rewrite app_nil_r in Hsplit. subst done.
    split; [rewrite Hex, Hex0, Hplan; now rewrite app_assoc|].
    destruct Hphase as [c _ Hone _ | Hq' Hidle' _].
    + rewrite Htimers in Hone. discriminate.
    + repeat split; assumption.
  - intros Ht k. rewrite Hstarted.
    pose proof (drain invs (set_commandQueue invs s) k) as H. cbv zeta in H.
    replace (log (set_commandQueue invs s)) with (log s) in H by (destruct s; reflexivity).
    replace (now (set_commandQueue invs s)) with (now s) in H by (destruct s; reflexivity).
    destruct H as (H1 & H2 & H3 & _); [destruct s; reflexivity | destruct s; exact Ht|].
    repeat split; assumption.
  - intros i c Hnth. apply schedule_nth. exact Hnth.
  - exact start_busy.
  - rewrite Hstarted. destruct invs as [|[c d m] rest].
    + cbn [submitAll]. rewrite consume_nil by (destruct s; reflexivity).
      destruct s; cbn in Hq, Hidle |- *. now subst.
    + cbn [submitAll Stored.command Stored.data Stored.commandMsg].
      rewrite exec_bind, exec_bind.
      set (st1 := snd (queueCommand c d m s)).
      assert (Hst1 : st1 = set_commandQueue [Stored.mk c d m] s).
      { subst st1. unfold queueCommand, modify. cbn [snd]. now rewrite Hq. }
      change (snd (startCommandQueue st1)) with (exec startCommandQueue st1).
      rewrite start_idle by (rewrite Hst1; destruct s; exact Hidle).
      rewrite (consume_cons (Stored.mk c d m) [] st1) by (rewrite Hst1; destruct s; reflexivity).
      rewrite submitAll_busy by reflexivity.
      rewrite (consume_cons (Stored.mk c d m) rest (set_commandQueue (Stored.mk c d m :: rest) s))
        by (destruct s; reflexivity).
      rewrite Hst1. destruct s; reflexivity.
Qed.

End Dispatcher.

(** The dispatcher started while a morse playback is pending. *)
Lemma dispatcher_runs_in_submission_order_witness :
  let invs := [Stored.mk (CmdName "help") [] None;
               Stored.mk (CmdName "follow") ["public"] (Some (textMessage ["follow public"]))] in
  let s := exec (playMorse ".-" true) initialState in
  commandQueue s = [] /\ commmandUsed s = false
  /\ filter isConsume (timers s) = []
  /\ executions
       (log (runTimers (CH := Demo.handler) 7
               (exec (queueAll invs ;; startCommandQueue (CH := Demo.handler)) s)))
     = [(0, CmdName "help", []); (1000, CmdName "follow", ["public"])].
Proof.
  cbv zeta.
  assert (H1 : commandQueue (exec (playMorse ".-" true) initialState) = []) by reflexivity.
  assert (H2 : commmandUsed (exec (playMorse ".-" true) initialState) = false) by reflexivity.
  assert (H3 : filter isConsume (timers (exec (playMorse ".-" true) initialState)) = [])
    by reflexivity.
  split; [exact H1|]. split; [exact H2|]. split; [exact H3|].
  exact (proj1 (proj1 (proj2 (dispatcher_runs_in_submission_order (CH := Demo.handler)
                                [Stored.mk (CmdName "help") [] None;
                                 Stored.mk (CmdName "follow") ["public"]
                                   (Some (textMessage ["follow public"]))]
                                (exec (playMorse ".-" true) initialState) H1 H2 H3))
                 7%nat ltac:(vm_compute; lia))).
Defined.

(** ** Multi-step command session *)

Lemma logSince_app s s' added : log s' = log s ++ added -> logSince s s' = added.
Proof.
  intros H. unfold logSince. rewrite H, skipn_app, skipn_all, Nat.sub_diag. reflexivity.
Qed.

Section Session.

Context {CH : CommandHandler}.

Lemma onCommandSuccess_log (p : successParams) (s : state) :
  log (exec (onCommandSuccess p) s)
  = log s ++ [(now s,
               if noStepCall p then ResetCommand false
               else TriggerCommandStep
                      (if freezeStep p then onStep (helper s) else onStep (helper s) + 1)
                      (newData p))].
Proof.
  destruct s as [cq cu sq sto pcp kp cp ap h ch nw tm nid lg].
  destruct p as [[] [] d]; reflexivity.
Qed.

Lemma onCommandSuccess_helper (p : successParams) (s : state) :
  helper (exec (onCommandSuccess p) s)
  = if noStepCall p then resetCommand false (helper s)
    else triggerCommandStep (newData p)
           (if freezeStep p then helper s
            else set_onStep (onStep (helper s) + 1) (helper s)).
Proof.
  destruct s as [cq cu sq sto pcp kp cp ap h ch nw tm nid lg].
  destruct p as [[] [] d]; reflexivity.
Qed.

Lemma onCommandFail_idle (s : state) : idle (helper (exec onCommandFail s)).
Proof.
  destruct s as [cq cu sq sto pcp kp cp ap [[active|] st fb kb hi] ch nw tm nid lg];
    reflexivity.
Qed.

End Session.

(** ** Submission of a line *)

Section EnterKey.

Context {CH : CommandHandler} {ST : Storage} {DM : DomManipulator}
        {TT : TextTools} {LB : Labels}.

Lemma enter_locked inputText s :
  keysBlocked (helper s) = true ->
  let s' := exec (enterKeyHandler inputText) s in
  log s' = log s ++ closing (now s)
  /\ helper s' = helper s
  /\ commandQueue s' = commandQueue s
  /\ commandHistory s' = commandHistory s.
Proof.
  intros Hlocked.
  destruct s as [cq cu sq sto pcp kp cp ap [c st fb kb hi] ch nw tm nid lg].
  cbn in Hlocked. subst kb. cbn. rewrite <- !app_assoc. repeat split.
Qed.

Lemma enter_active inputText active s :
  command (helper s) = Some active ->
  keysBlocked (helper s) = false ->
  let phrases := split " " (trimSpace inputText) in
  let s' := exec (enterKeyHandler inputText) s in
  log s'
  = log s
    ++ (if isAbortToken (hd EmptyString phrases)
        then [(now s, AbortCommand active); (now s, ResetCommand true)]
        else (if hideInput (helper s) then []
              else [(now s, QueueMessage (textMessage [inputText]))])
             ++ [(now s, TriggerCommandStep (onStep (helper s)) (Some phrases))])
    ++ closing (now s)
  /\ helper s'
     = (if isAbortToken (hd EmptyString phrases)
        then resetCommand true (abortCommand active (helper s))
        else triggerCommandStep (Some phrases) (helper s))
  /\ commandQueue s' = commandQueue s
  /\ commandHistory s' = commandHistory s.
Proof.
  intros Hactive Hfree.
  destruct s as [cq cu sq sto pcp kp cp ap [c st fb kb hi] ch nw tm nid lg].
  cbn in Hactive, Hfree. subst c kb. cbv zeta.
  unfold enterKeyHandler, isAbortToken. run_monad. cbn [negb].
  destruct ((hd EmptyString (split " " (trimSpace inputText)) =? "exit")%string
            || (hd EmptyString (split " " (trimSpace inputText)) =? "abort")%string);
    [|destruct hi]; run_monad; unfold callAbortCommand, callResetCommand, callTriggerCommandStep,
      resetPreviousCommandPointer; run_monad; cbn [negb app]; rewrite <- ?app_assoc;
      repeat split.
Qed.

(** C3, amended.  While a command is active no line is resolved as a
    top-level command: nothing is run or queued and the history is left
    alone.  When the keys are not blocked, a line whose first phrase is
    [exit] or [abort] aborts and resets the session to idle, and every other
    line is handed, split into phrases, to the step handler of the active
    command at the current step.  When the keys are blocked the line is
    dropped: the session is as it was and no handler is called. *)
Theorem active_session_takes_the_line (inputText active : string) (s : state) :
  command (helper s) = Some active ->
  let phrases := split " " (trimSpace inputText) in
  let s' := exec (enterKeyHandler inputText) s in
  (noCommandRun s s'
   /\ commandQueue s' = commandQueue s
   /\ commandHistory s' = commandHistory s)
  /\ (keysBlocked (helper s) = false ->
      isAbortToken (hd EmptyString phrases) = false ->
      routedToStep inputText s s'
      /\ helper s' = triggerCommandStep (Some phrases) (helper s))
  /\ (keysBlocked (helper s) = false ->
      isAbortToken (hd EmptyString phrases) = true ->
      idle (helper s')
      /\ stepCalls (logSince s s') = []
      /\ firstn 2 (events (logSince s s')) = [AbortCommand active; ResetCommand true])
  /\ (keysBlocked (helper s) = true ->
      helper s' = helper s /\ stepCalls (logSince s s') = []).
Proof.
  intros Hactive phrases s'.
  destruct (keysBlocked (helper s)) eqn:Hkeys.
  - destruct (enter_locked inputText s Hkeys) as (Hlog & Hh & Hq & Hhist).
    fold s' in Hlog, Hh, Hq, Hhist. apply logSince_app in Hlog.
    split; [|split; [|split]]; try discriminate.
    + split; [|split; assumption].
      intros t cmd cmdParams Hin. rewrite Hlog in Hin. cbn in Hin.
      repeat (destruct Hin as [Hin|Hin]; [discriminate|]). exact Hin.
    + intros _. split; [assumption|]. now rewrite Hlog.
  - destruct (enter_active inputText active s Hactive Hkeys) as (Hlog & Hh & Hq & Hhist).
    fold phrases s' in Hlog, Hh, Hq, Hhist. apply logSince_app in Hlog.
    split; [|split; [|split]]; try discriminate.
    + split; [|split; assumption].
      intros t cmd cmdParams Hin. rewrite Hlog in Hin.
      destruct (isAbortToken (hd EmptyString phrases)); [|destruct (hideInput (helper s))];
        cbn in Hin; repeat (destruct Hin as [Hin|Hin]; [discriminate|]); exact Hin.
    + intros _ Htoken. rewrite Htoken in Hlog, Hh. split; [|exact Hh].
      unfold routedToStep. rewrite Hlog.
      destruct (hideInput (helper s)); reflexivity.
    + intros _ Htoken. rewrite Htoken in Hlog, Hh.
      rewrite Hlog, Hh. repeat split.
Qed.

(** For a first phrase that resolves to no command. *)
Lemma enter_unknown inputText s :
  keysBlocked (helper s) = false ->
  command (helper s) = None ->
  let phrases := split " " (trimSpace inputText) in
  let first := hd EmptyString phrases in
  first <> EmptyString ->
  getCommand (toLowerCase first) = None ->
  sentAsChat first = false ->
  let s' := exec (enterKeyHandler inputText) s in
  log s' = log s ++ map (fun m => (now s, QueueMessage m)) (failureReport phrases)
             ++ closing (now s)
  /\ helper s' = helper s
  /\ commandQueue s' = commandQueue s
  /\ commandHistory s'
     = if isSome getUser && negb (getMode =? "chat")%string
       then commandHistory s ++ [join " " phrases]
       else commandHistory s.
Proof.
  intros Hfree Hidle phrases first Hfirst Hnone Hchat.
  destruct s as [cq cu sq sto pcp kp cp ap [c st fb kb hi] ch nw tm nid lg].
  cbn in Hfree, Hidle. subst c kb. cbv zeta.
  unfold enterKeyHandler, resolveCommand, notRun, failureReport, sentAsChat in *.
  fold phrases. fold first. fold first in Hchat.
  assert (Hlen : Nat.ltb 0 (String.length first) = true).
  { destruct first; [congruence|reflexivity]. }
  run_monad. cbn [negb]. rewrite Hlen, Hnone.
  replace (if negb getDisableCommands then None else None) with (@None commandDef)
    by (destruct getDisableCommands; reflexivity).
  rewrite !andb_true_r.
  destruct (isSome getUser) eqn:Huser; cbn [andb negb] in Hchat |- *.
  - destruct (getMode =? "chat")%string eqn:Hmode; cbn [andb negb] in Hchat |- *.
    + apply negb_false_iff in Hchat. rewrite Hchat. cbn [negb].
      unfold resetPreviousCommandPointer. run_monad. cbn [map app].
      rewrite <- !app_assoc. repeat split.
    + unfold pushCommandHistory, resetPreviousCommandPointer. run_monad. cbn [map app].
      rewrite <- !app_assoc. repeat split.
  - unfold resetPreviousCommandPointer. run_monad. cbn [map app].
    rewrite <- !app_assoc. repeat split.
Qed.

Lemma concat_cons_char sep c h t :
  String.concat sep (String c h :: t) = String c (String.concat sep (h :: t)).
Proof. destruct t; reflexivity. Qed.

Lemma split_not_nil sep s : split sep s <> [].
Proof.
  destruct s as [|c r]; cbn; [discriminate|].
  destruct (Ascii.eqb c sep); [discriminate|].
  destruct (split sep r); discriminate.
Qed.

(** Joining the phrases of a line with the separator it was split at gives
    the line back. *)
Lemma join_split (s : string) : join " " (split " " s) = s.
Proof.
  unfold join. induction s as [|c r IH]; [reflexivity|].
  cbn [split]. pose proof (split_not_nil " " r) as Hne.
  destruct (split " " r) as [|h t] eqn:Hs; [congruence|].
  destruct (Ascii.eqb c " ") eqn:Hc.
  - apply Ascii.eqb_eq in Hc. subst c.
    change (String.concat " " (EmptyString :: h :: t))
      with (String " " (String.concat " " (h :: t))).
    now rewrite IH.
  - rewrite concat_cons_char. now rewrite IH.
Qed.

(** C9, amended.  At top level, with the keys free, a line whose first
    phrase resolves to no command and which is not sent as a chat message
    is answered with a failure message; the command queue and the session
    are unchanged.  The history log is unchanged when no user is logged in
    or the terminal is in chat mode; for a logged-in user outside chat mode
    the line, as trimmed, is appended to it. *)
Theorem unknown_command_is_reported (inputText : string) (s : state) :
  keysBlocked (helper s) = false ->
  command (helper s) = None ->
  let phrases := split " " (trimSpace inputText) in
  let first := hd EmptyString phrases in
  first <> EmptyString ->
  getCommand (toLowerCase first) = None ->
  sentAsChat first = false ->
  let s' := exec (enterKeyHandler inputText) s in
  displayed (events (logSince s s')) = failureReport phrases
  /\ failureReport phrases <> []
  /\ commandQueue s' = commandQueue s
  /\ helper s' = helper s
  /\ (isSome getUser && negb (getMode =? "chat")%string = false ->
      commandHistory s' = commandHistory s)
  /\ (isSome getUser && negb (getMode =? "chat")%string = true ->
      commandHistory s' = commandHistory s ++ [trimSpace inputText]).
Proof.
  intros Hfree Hidle phrases first Hfirst Hnone Hchat s'.
  destruct (enter_unknown inputText s Hfree Hidle Hfirst Hnone Hchat)
    as (Hlog & Hh & Hq & Hhist).
  fold phrases s' in Hlog, Hh, Hq, Hhist.
  apply logSince_app in Hlog.
  split; [|split; [|split; [|split; [|split]]]]; try assumption.
  - rewrite Hlog. unfold events, displayed. rewrite map_app, flat_map_app, map_map.
    cbn [closing map flat_map snd app]. rewrite app_nil_r.
    clear. induction (failureReport phrases) as [|m r IH]; [reflexivity|].
    cbn [map flat_map snd app]. now rewrite IH.
  - unfold failureReport.
    destruct (isSome getUser && (getMode =? "chat")%string); [discriminate|].
    destruct (negb (isSome getUser)); discriminate.
  - intros Hcase. now rewrite Hcase in Hhist.
  - intros Hcase. rewrite Hcase in Hhist. rewrite Hhist.
    unfold phrases. now rewrite join_split.
Qed.

End EnterKey.

(** ** How a session moves and ends *)

Section SessionEnd.

Context {CH : CommandHandler} {ST : Storage} {DM : DomManipulator}
        {TT : TextTools} {LB : Labels}.

(** C2, amended.  A success signal that asks for the next step and does
    not freeze moves the step cursor up by exactly 1 and then calls the step
    handler, which sees the new cursor; with the freeze flag the handler is
    called at the unchanged cursor; with the no-further-step flag the
    session as it stands is reset, without an increment and without a step
    call.  A failure signal aborts and resets an active command and so
    leaves the session idle, whatever the cursor was.  A submitted line
    whose first phrase is [exit] or [abort] does the same to an active
    command, whatever the cursor was, when the keys are not blocked; when
    they are blocked the line is dropped and the session stays active. *)
Theorem session_cursor_moves (p : successParams) (inputText : string) (s : state) :
  let s' := exec (onCommandSuccess p) s in
  let failed := exec onCommandFail s in
  let aborted := exec (enterKeyHandler inputText) s in
  (noStepCall p = false -> freezeStep p = false ->
     stepCalls (logSince s s') = [(onStep (helper s) + 1, newData p)]
     /\ helper s' = triggerCommandStep (newData p)
                      (set_onStep (onStep (helper s) + 1) (helper s)))
  /\ (noStepCall p = false -> freezeStep p = true ->
     stepCalls (logSince s s') = [(onStep (helper s), newData p)]
     /\ helper s' = triggerCommandStep (newData p) (helper s))
  /\ (noStepCall p = true ->
     idle (helper s')
     /\ helper s' = resetCommand false (helper s)
     /\ stepCalls (logSince s s') = []
     /\ events (logSince s s') = [ResetCommand false])
  /\ idle (helper failed)
  /\ (forall active, command (helper s) = Some active ->
        events (logSince s failed) = [AbortCommand active; ResetCommand true])
  /\ (forall active, command (helper s) = Some active ->
        isAbortToken (hd EmptyString (split " " (trimSpace inputText))) = true ->
        (keysBlocked (helper s) = false ->
           idle (helper aborted)
           /\ helper aborted = resetCommand true (abortCommand active (helper s))
           /\ events (logSince s aborted)
              = [AbortCommand active; ResetCommand true] ++ events (closing (now s)))
        /\ (keysBlocked (helper s) = true ->
            helper aborted = helper s
            /\ command (helper aborted) = Some active
            /\ events (logSince s aborted) = events (closing (now s)))).
Proof.
  intros s' failed aborted.
  pose proof (onCommandSuccess_log p s) as Hlog.
  pose proof (onCommandSuccess_helper p s) as Hh.
  fold s' in Hlog, Hh.
  apply logSince_app in Hlog.
  split; [|split; [|split; [|split; [|split]]]].
  - intros Hn Hf. rewrite Hn, Hf in Hlog, Hh. rewrite Hlog, Hh. split; reflexivity.
  - intros Hn Hf. rewrite Hn, Hf in Hlog, Hh. rewrite Hlog, Hh. split; reflexivity.
  - intros Hn. rewrite Hn in Hlog, Hh. rewrite Hlog, Hh.
    repeat split.
  - apply onCommandFail_idle.
  - intros active Hactive.
    assert (Hl : log failed
                 = log s ++ [(now s, AbortCommand active); (now s, ResetCommand true)]).
    { subst failed.
      destruct s as [cq cu sq sto pcp kp cp ap [c st fb kb hi] ch nw tm nid lg].
      cbn in Hactive. subst c. cbn. now rewrite <- app_assoc. }
    now rewrite (logSince_app _ _ _ Hl).
  - intros active Hactive Htoken. split.
    + intros Hfree.
      destruct (enter_active inputText active s Hactive Hfree) as (Hl & Hhelper & _ & _).
      fold aborted in Hl, Hhelper. rewrite Htoken in Hl, Hhelper.
      apply logSince_app in Hl. rewrite Hl, Hhelper. repeat split.
    + intros Hlocked.
      destruct (enter_locked inputText s Hlocked) as (Hl & Hhelper & _ & _).
      fold aborted in Hl, Hhelper. apply logSince_app in Hl.
      rewrite Hl, Hhelper. repeat split. exact Hactive.
Qed.

End SessionEnd.

(** C2, as stated, fails: an abort line submitted to an active session
    whose keys are blocked does not return the session to idle. *)
Lemma blocked_session_ignores_abort :
  command (helper Demo2.lockedLogin) = Some "login"
  /\ isAbortToken (hd EmptyString (split " " (trimSpace (TextTools := Demo.textTools) "abort")))
     = true
  /\ ~ idle (helper (exec (enterKeyHandler (CH := Demo.handler) (ST := Demo.user)
                             (DM := Demo.dom) (TT := Demo.textTools) (LB := Demo.labels)
                             "abort")
                       Demo2.lockedLogin))
  /\ command (helper (exec (enterKeyHandler (CH := Demo.handler) (ST := Demo.user)
                              (DM := Demo.dom) (TT := Demo.textTools) (LB := Demo.labels)
                              "abort")
                        Demo2.lockedLogin))
     = Some "login".
Proof.
  split; [reflexivity|]. split; [reflexivity|].
  split; [unfold idle; vm_compute; discriminate|]. vm_compute. reflexivity.
Qed.

Lemma session_cursor_moves_witness :
  let p := mkSuccess false false (Some ["secret"]) in
  noStepCall p = false /\ freezeStep p = false
  /\ stepCalls (logSince Demo2.openLogin
                  (exec (onCommandSuccess (CH := Demo.handler) p) Demo2.openLogin))
     = [(2, Some ["secret"])]
  /\ command (helper Demo2.openLogin) = Some "login"
  /\ keysBlocked (helper Demo2.openLogin) = false
  /\ idle (helper (exec (enterKeyHandler (CH := Demo.handler) (ST := Demo.user)
                           (DM := Demo.dom) (TT := Demo.textTools) (LB := Demo.labels)
                           "abort")
                     Demo2.openLogin)).
Proof.
  cbv zeta.
  assert (H1 : noStepCall (mkSuccess false false (Some ["secret"])) = false) by reflexivity.
  assert (H2 : freezeStep (mkSuccess false false (Some ["secret"])) = false) by reflexivity.
  assert (H3 : command (helper Demo2.openLogin) = Some "login") by reflexivity.
  assert (H4 : keysBlocked (helper Demo2.openLogin) = false) by reflexivity.
  pose proof (session_cursor_moves (CH := Demo.handler) (ST := Demo.user) (DM := Demo.dom)
                (TT := Demo.textTools) (LB := Demo.labels)
                (mkSuccess false false (Some ["secret"])) "abort" Demo2.openLogin) as H.
  cbv zeta in H. destruct H as (Hstep & _ & _ & _ & _ & Habort).
  split; [exact H1|]. split; [exact H2|].
  split; [exact (proj1 (Hstep H1 H2))|].
  split; [exact H3|]. split; [exact H4|].
  exact (proj1 (proj1 (Habort "login" H3 eq_refl) H4)).
Defined.


(** C3, as stated, fails: a line submitted to an active session whose keys
    are blocked is not handed to the step handler, though it is no abort
    token. *)
Lemma locked_session_drops_the_line :
  command (helper Demo2.lockedLogin) = Some "login"
  /\ isAbortToken (hd EmptyString (split " " (trimSpace (TextTools := Demo.textTools) "rez"))) = false
  /\ ~ routedToStep (TT := Demo.textTools) "rez" Demo2.lockedLogin
         (exec (enterKeyHandler (CH := Demo.handler) (ST := Demo.user) (DM := Demo.dom)
                  (TT := Demo.textTools) (LB := Demo.labels) "rez")
               Demo2.lockedLogin).
Proof.
  split; [reflexivity|]. split; [reflexivity|].
  unfold routedToStep. vm_compute. discriminate.
Qed.

Lemma active_session_takes_the_line_witness :
  command (helper Demo2.openLogin) = Some "login"
  /\ routedToStep (TT := Demo.textTools) "rez" Demo2.openLogin
       (exec (enterKeyHandler (CH := Demo.handler) (ST := Demo.user) (DM := Demo.dom)
                (TT := Demo.textTools) (LB := Demo.labels) "rez")
             Demo2.openLogin).
Proof.
  assert (H : command (helper Demo2.openLogin) = Some "login") by reflexivity.
  split; [exact H|].
  exact (proj1 (proj1 (proj2 (active_session_takes_the_line
                                (CH := Demo.handler) (ST := Demo.user) (DM := Demo.dom)
                                (TT := Demo.textTools) (LB := Demo.labels)
                                "rez" "login" Demo2.openLogin H))
                 eq_refl eq_refl)).
Defined.

(** C9, as stated, fails: for a logged-in user in command mode a line that
    names no command is appended to the history log. *)
Lemma unknown_command_enters_history :
  getCommand (CommandHandler := Demo.handler)
    (toLowerCase (hd EmptyString (split " " (trimSpace (TextTools := Demo.textTools) "foo"))))
  = None
  /\ ~ noStateChange initialState
         (exec (enterKeyHandler (CH := Demo.handler) (ST := Demo.user) (DM := Demo.dom)
                  (TT := Demo.textTools) (LB := Demo.labels) "foo")
               initialState).
Proof.
  split; [reflexivity|].
  intros (_ & _ & Hhist). vm_compute in Hhist. discriminate.
Qed.

Lemma unknown_command_is_reported_witness :
  keysBlocked (helper initialState) = false
  /\ command (helper initialState) = None
  /\ commandHistory
       (exec (enterKeyHandler (CH := Demo.handler) (ST := Demo.user) (DM := Demo.dom)
                (TT := Demo.textTools) (LB := Demo.labels) " foo bar ")
             initialState)
     = ["foo bar"].
Proof.
  assert (H1 : keysBlocked (helper initialState) = false) by reflexivity.
  assert (H2 : command (helper initialState) = None) by reflexivity.
  split; [exact H1|]. split; [exact H2|].
  refine (proj2 (proj2 (proj2 (proj2 (proj2
            (unknown_command_is_reported
               (CH := Demo.handler) (ST := Demo.user) (DM := Demo.dom)
               (TT := Demo.textTools) (LB := Demo.labels)
               " foo bar " initialState H1 H2 _ eq_refl eq_refl))))) eq_refl).
  vm_compute. discriminate.
Defined.

(** ** History navigation *)

Section History.

Context {CH : CommandHandler} {ST : Storage} {DM : DomManipulator}
        {TT : TextTools} {LB : Labels}.

Lemma upArrow_history s : commandHistory (exec upArrow s) = commandHistory s.
Proof.
  destruct s as [cq cu sq sto pcp kp [] ap [[c|] st fb [] hi] ch nw tm nid lg];
    try reflexivity; unfold upArrow; run_monad; cbn [negb isNone isSome andb];
    destruct (0 <? pcp); reflexivity.
Qed.

Lemma downArrow_history s : commandHistory (exec downArrow s) = commandHistory s.
Proof.
  destruct s as [cq cu sq sto pcp kp [] ap [[c|] st fb [] hi] ch nw tm nid lg];
    try reflexivity; unfold downArrow; run_monad; cbn [negb isNone isSome andb];
    destruct (pcp <? Z.of_nat (List.length ch) - 1);
    [|destruct (pcp =? Z.of_nat (List.length ch) - 1)]; reflexivity.
Qed.

Lemma keyReleased_history k after s :
  commandHistory (exec (keyReleased k after) s) = commandHistory s.
Proof.
  destruct s as [cq cu sq sto pcp kp cp ap h ch nw tm nid lg].
  unfold keyReleased. destruct k; destruct (Nat.eqb (String.length after) 0); reflexivity.
Qed.

(** C5.  With the log [a, b, c] and the pointer reset to its length 3: up
    shows [c] and leaves the pointer at 2, up again shows [b] (pointer 1),
    down shows [c] (pointer 2), down again clears the line (pointer 3) and
    a further down clears the line with the pointer still at 3.  Neither
    arrow key, pressed or released, changes the log in any state. *)
Theorem history_navigation_example :
  let up := tap UpArrow in
  let down := tap DownArrow in
  let s0 := historyABC in
  let s1 := exec (up "" "c") s0 in
  let s2 := exec (up "c" "b") s1 in
  let s3 := exec (down "b" "c") s2 in
  let s4 := exec (down "c" "") s3 in
  let s5 := exec (down "" "") s4 in
  previousCommandPointer s0 = 3
  /\ (inputEvents (logSince s0 s1) = [ClearInput; SetCommandInput (Some "c")]
      /\ previousCommandPointer s1 = 2)
  /\ (inputEvents (logSince s1 s2) = [ClearInput; SetCommandInput (Some "b")]
      /\ previousCommandPointer s2 = 1)
  /\ (inputEvents (logSince s2 s3) = [ClearInput; SetCommandInput (Some "c")]
      /\ previousCommandPointer s3 = 2)
  /\ (inputEvents (logSince s3 s4) = [ClearInput] /\ previousCommandPointer s4 = 3)
  /\ (inputEvents (logSince s4 s5) = [ClearInput] /\ previousCommandPointer s5 = 3)
  /\ commandHistory s5 = ["a"; "b"; "c"]
  /\ (forall s before after,
        commandHistory (exec (tap UpArrow before after) s) = commandHistory s
        /\ commandHistory (exec (tap DownArrow before after) s) = commandHistory s).
Proof.
  cbv zeta.
  repeat match goal with |- _ /\ _ => split end; try (vm_compute; reflexivity).
  intros s before after. unfold tap. rewrite !exec_bind, !keyReleased_history.
  destruct s as [cq cu sq sto pcp [] cp ap h ch nw tm nid lg]; [split; reflexivity|].
  unfold specialKeyPress. cbv [bind emit modify gets fst snd]. state_fields. cbn [negb].
  split.
  - match goal with |- context [upArrow ?st] =>
      pose proof (upArrow_history st) as Hup; unfold exec in Hup;
      destruct (upArrow st) as [u st'] end.
    cbn [fst snd ret] in *. exact Hup.
  - match goal with |- context [downArrow ?st] =>
      pose proof (downArrow_history st) as Hdown; unfold exec in Hdown;
      destruct (downArrow st) as [u st'] end.
    cbn [fst snd ret] in *. exact Hdown.
Qed.

End History.

(** ** Autocomplete *)

Lemma append_nil_r (s : string) : (s ++ "")%string = s.
Proof. induction s as [|c r IH]; cbn; [reflexivity|]. now rewrite IH. Qed.

Lemma append_assoc (a b c : string) : ((a ++ b) ++ c)%string = (a ++ (b ++ c))%string.
Proof. induction a as [|x r IH]; cbn; [reflexivity|]. now rewrite IH. Qed.

Lemma length_append (a b : string) :
  String.length (a ++ b) = (String.length a + String.length b)%nat.
Proof. induction a as [|x r IH]; cbn; [reflexivity|]. now rewrite IH. Qed.

Lemma length_charAt (s : string) : forall i,
  (i < String.length s)%nat -> String.length (charAt i s) = 1%nat.
Proof.
  unfold charAt. induction s as [|c r IH]; intros i Hi; cbn in Hi; [lia|].
  destruct i as [|i]; [reflexivity|]. cbn [String.get]. apply IH. lia.
Qed.

(** The loop of [expandPartialMatch] against the common extension: when
    the matches part ways before the first one ends, the loop returns what
    it was given to start from, followed by the extension. *)
Lemma expandLoop_diverging matches first found : forall n i expanded,
  (i + n <= String.length first)%nat ->
  (String.length (extensionFrom matches first n i) < n)%nat ->
  expandLoop matches first found n i expanded
  = (found ++ expanded ++ extensionFrom matches first n i)%string.
Proof.
  induction n as [|n IH]; intros i expanded Hrange Hshort; cbn in Hshort; [lia|].
  cbn [expandLoop extensionFrom] in *.
  destruct (forallb (fun c => (charAt i c =? charAt i first)%string) matches).
  - rewrite length_append, length_charAt in Hshort by lia.
    rewrite IH by lia. now rewrite append_assoc.
  - now rewrite append_nil_r.
Qed.

(** When no match parts ways before the first one ends, the loop runs out
    and returns the empty string. *)
Lemma expandLoop_exhausted matches first found : forall n i expanded,
  (i + n <= String.length first)%nat ->
  String.length (extensionFrom matches first n i) = n ->
  expandLoop matches first found n i expanded = EmptyString.
Proof.
  induction n as [|n IH]; intros i expanded Hrange Hfull; [reflexivity|].
  cbn [expandLoop extensionFrom] in *.
  destruct (forallb (fun c => (charAt i c =? charAt i first)%string) matches).
  - rewrite length_append, length_charAt in Hfull by lia.
    apply IH; lia.
  - discriminate.
Qed.

Section Autocomplete.

Context {CH : CommandHandler} {ST : Storage} {TT : TextTools}.

(** With two or more matches, [autoCompleteCommand] shows the
    whole list of matches, joined by [" - "], and sets the input to what
    [expandPartialMatch] returns.  When the matches part ways before the
    first of them ends, that is the new input text: the command sign, if
    the line began with one, the partial and the common extension.  For
    the matches [followpublic, follow] and the partial [fo] the common
    extension is [llow] and the text returned ends in [follow]. *)
Theorem ambiguous_completion (phrase first second : string) (others : list string) :
  let sign := charAt 0 phrase in
  let partialCommand := if isCommandChar sign then slice1 phrase else phrase in
  let matched := first :: second :: others in
  let signText := if isCommandChar sign then sign else EmptyString in
  phrase <> EmptyString ->
  isCommandChar sign || (getMode =? "cmd")%string || isNone getUser = true ->
  matchCommands partialCommand getCommands = matched ->
  (exists expanded,
      expandPartialMatch matched partialCommand sign = Some expanded
      /\ autoCompleteCommand [phrase]
         = Some [SetCommandInput (Some (trimSpace expanded));
                 QueueMessage (textMessage [join " - " matched])]
      /\ ((String.length (commonExtension matched partialCommand)
           < String.length first - String.length partialCommand)%nat ->
          expanded = (signText ++ partialCommand ++ commonExtension matched partialCommand)%string))
  /\ commonExtension ["followpublic"; "follow"] "fo" = "llow"
  /\ expandPartialMatch ["followpublic"; "follow"] "fo" sign = Some (signText ++ "follow")%string
  /\ join " - " ["follow"; "followpublic"] = "follow - followpublic".
Proof.
  intros sign partialCommand matched signText Hphrase Hguard Hmatched.
  split; [|split; [|split]]; try reflexivity.
  - eexists. split; [reflexivity|]. split.
    + unfold autoCompleteCommand. fold sign. cbn [List.length Nat.eqb andb].
      assert (Hlen : Nat.ltb 0 (String.length phrase) = true)
        by (destruct phrase; [congruence|reflexivity]).
      rewrite Hlen, Hguard. fold partialCommand. rewrite Hmatched.
      subst matched. reflexivity.
    + intros Hshort. subst matched. cbn [commonExtension] in Hshort |- *.
      rewrite expandLoop_diverging by (assumption || lia).
      subst signText. destruct (isCommandChar sign); cbn [append];
        now rewrite ?append_assoc.
  - unfold expandPartialMatch. subst signText.
    destruct (isCommandChar sign); cbn; now rewrite ?append_assoc.
Qed.

(** When no match parts ways with the first one before it ends, the loop
    of [expandPartialMatch] runs out and the empty string is returned. *)
Lemma expansion_lost_when_first_runs_out (first : string) (others : list string)
    (partialMatch sign : string) :
  String.length (commonExtension (first :: others) partialMatch)
  = (String.length first - String.length partialMatch)%nat ->
  expandPartialMatch (first :: others) partialMatch sign = Some EmptyString.
Proof.
  intros Hfull. unfold expandPartialMatch. f_equal.
  cbn [commonExtension] in Hfull.
  destruct (Nat.le_gt_cases (String.length partialMatch) (String.length first)) as [Hle|Hgt].
  - apply expandLoop_exhausted; [lia|exact Hfull].
  - replace (String.length first - String.length partialMatch)%nat with 0%nat by lia.
    reflexivity.
Qed.

End Autocomplete.

(** C4.  The expansion of [fo] among [follow] and [followpublic] is lost.
    The extension the two matches share beyond [fo] is [llow], and the loop
    of [expandPartialMatch] collects it; but [follow], the first match,
    ends before any match parts ways with it, so the loop runs out and the
    function falls through to its last line, which returns the empty
    string whatever the command sign.  [autoCompleteCommand] then shows the
    two candidates and puts the empty string into the input field, so that
    what was typed is gone.  With the same matches in the other order the
    loop meets the end of [follow] as a mismatch and the text returned is
    [follow]. *)
Theorem expansion_of_follow_is_empty :
  commonExtension ["follow"; "followpublic"] "fo" = "llow"
  /\ (forall sign,
        expandPartialMatch (CH := Demo.handler) ["follow"; "followpublic"] "fo" sign
        = Some EmptyString)
  /\ expandPartialMatch (CH := Demo.handler) ["follow"; "followpublic"] "fo" "f" <> Some "llow"
  /\ expandPartialMatch (CH := Demo.handler) ["follow"; "followpublic"] "fo" "f" <> Some "follow"
  /\ matchCommands (CH := Demo.handler) (ST := Demo.user) "fo"
       (getCommands (CommandHandler := Demo.handler))
     = ["follow"; "followpublic"]
  /\ autoCompleteCommand (CH := Demo.handler) (ST := Demo.user) (TT := Demo.textTools) ["fo"]
     = Some [SetCommandInput (Some EmptyString);
             QueueMessage (textMessage ["follow - followpublic"])]
  /\ expandPartialMatch (CH := Demo.handler) ["followpublic"; "follow"] "fo" "f"
     = Some "follow".
Proof.
  split; [reflexivity|].
  split; [intros sign; apply expansion_lost_when_first_runs_out; reflexivity|].
  split; [discriminate|]. split; [discriminate|].
  split; [vm_compute; reflexivity|].
  split; [vm_compute; reflexivity|].
  reflexivity.
Qed.

Lemma ambiguous_completion_witness :
  "lo" <> EmptyString
  /\ autoCompleteCommand (CH := Demo.handler) (ST := Demo.user) (TT := Demo.textTools) ["lo"]
     = Some [SetCommandInput (Some "log"); QueueMessage (textMessage ["login - logout"])].
Proof.
  assert (H1 : "lo" <> EmptyString) by discriminate.
  split; [exact H1|].
  destruct (ambiguous_completion (CH := Demo.handler) (ST := Demo.user) (TT := Demo.textTools)
              "lo" "login" "logout" [] H1 eq_refl eq_refl) as [(expanded & Hexp & Hauto & Hext) _].
  rewrite Hauto. rewrite Hext; [reflexivity|]. vm_compute. lia.
Defined.

(** An empty partial matches nothing: the inner loop of [match] never runs
    and [matches] keeps the value it had. *)
Lemma matchItems_empty_partial items : forall matched,
  matchItems EmptyString items false matched = matched.
Proof.
  induction items as [|name rest IH]; intros matched; [reflexivity|].
  cbn [matchItems String.length prefixLoop]. apply IH.
Qed.

Section NoMatch.

Context {CH : CommandHandler} {ST : Storage} {TT : TextTools}.

(** C8, amended.  When nothing matches, no autocomplete call changes the
    input field or raises an error.  Command-name matching then shows
    nothing.  Option matching shows nothing either, with two exceptions:
    under an option that has further options it lists all of them, and at
    the first level with an empty partial (which matches nothing) it lists
    all first-level options. *)
Theorem no_match_leaves_input_alone :
  (forall phrase others partialCommand,
      partialCommand = (if isCommandChar (charAt 0 phrase) then slice1 phrase else phrase) ->
      matchCommands partialCommand getCommands = [] ->
      silent (autoCompleteCommand (phrase :: others)))
  /\ (forall inputText phrases options partial option nextOptions,
        lastPhrase phrases = Some partial ->
        property options (propertyName (index phrases 1)) = Some option ->
        next option = Some nextOptions ->
        jsMatch (Some partial) (keys nextOptions) = Some [] ->
        exists es,
          autoCompleteOption inputText phrases options = Some es
          /\ filter mutatesInput es = []
          /\ displayed es
             = match keys nextOptions with
               | [] => []
               | _ :: _ => [textMessage [join " - " (keys nextOptions)]]
               end)
  /\ (forall inputText phrases options partial,
        lastPhrase phrases = Some partial ->
        match property options (propertyName (index phrases 1)) with
        | Some option => next option = None
        | None => True
        end ->
        (List.length phrases <= 2)%nat ->
        jsMatch (Some partial) (keys options) = Some [] ->
        exists es,
          autoCompleteOption inputText phrases options = Some es
          /\ filter mutatesInput es = []
          /\ displayed es
             = if (partial =? "")%string
               then [textMessage [join " - " (keys options)]]
               else [])
  /\ (forall inputText phrases options,
        match property options (propertyName (index phrases 1)) with
        | Some option => next option = None
        | None => True
        end ->
        (2 < List.length phrases)%nat ->
        silent (autoCompleteOption inputText phrases options))
  /\ (forall items, jsMatch (Some EmptyString) items = Some []).
Proof.
  split; [|split; [|split; [|split]]].
  - intros phrase others partialCommand Hpartial Hnone. unfold silent, autoCompleteCommand.
    rewrite <- Hpartial, Hnone.
    exists []. split; [|split; reflexivity].
    now destruct (_ && _ && _).
  - intros inputText phrases options partial option nextOptions Hlast Hprop Hnext Hmatch.
    unfold autoCompleteOption. rewrite Hprop, Hnext, Hlast, Hmatch.
    eexists. split; [reflexivity|].
    destruct (keys nextOptions); split; reflexivity.
  - intros inputText phrases options partial Hlast Hprop Hlen Hmatch.
    unfold autoCompleteOption. rewrite Hlast, Hmatch.
    apply Nat.leb_le in Hlen. rewrite Hlen.
    assert (Hnone : match
                      match property options (propertyName (index phrases 1)) with
                      | Some o => next o
                      | None => None
                      end
                    with Some _ => False | None => True end).
    { destruct (property options (propertyName (index phrases 1))); [now rewrite Hprop|exact I]. }
    destruct (match property options (propertyName (index phrases 1)) with
              | Some o => next o
              | None => None
              end); [contradiction|].
    eexists. split; [reflexivity|].
    destruct partial as [|c r]; split; reflexivity.
  - intros inputText phrases options Hprop Hlen.
    unfold silent, autoCompleteOption.
    assert (Hleb : Nat.leb (List.length phrases) 2 = false) by (apply Nat.leb_gt; lia).
    rewrite Hleb.
    destruct (property options (propertyName (index phrases 1))) as [option|].
    + rewrite Hprop. exists []. repeat split.
    + exists []. repeat split.
  - intros items. unfold jsMatch. now rewrite matchItems_empty_partial.
Qed.

End NoMatch.

(** C8, as stated, fails: under the option [a], whose only further option
    is [b], the partial [z] matches nothing and the call lists [b]. *)
Lemma no_match_under_option_lists_the_options :
  jsMatch (Some "z") ["b"] = Some []
  /\ autoCompleteOption (TT := Demo.textTools) "cmd a z" ["cmd"; "a"; "z"] Demo3.options
     = Some [QueueMessage (textMessage ["b"])]
  /\ ~ silent (autoCompleteOption (TT := Demo.textTools) "cmd a z" ["cmd"; "a"; "z"] Demo3.options).
Proof.
  split; [reflexivity|]. split; [reflexivity|].
  intros (es & Hes & Hshown & _).
  vm_compute in Hes. inversion Hes; subst es. discriminate.
Qed.

Lemma no_match_leaves_input_alone_witness :
  lastPhrase ["cmd"; "a"; "z"] = Some "z"
  /\ exists es,
       autoCompleteOption (TT := Demo.textTools) "cmd a z" ["cmd"; "a"; "z"] Demo3.options = Some es
       /\ filter mutatesInput es = []
       /\ displayed es = [textMessage ["b"]].
Proof.
  assert (H : lastPhrase ["cmd"; "a"; "z"] = Some "z") by reflexivity.
  split; [exact H|].
  exact (proj1 (proj2 (no_match_leaves_input_alone (CH := Demo.handler) (ST := Demo.user)
                         (TT := Demo.textTools)))
           "cmd a z" ["cmd"; "a"; "z"] Demo3.options "z"
           (OptionNode (Some [("b", OptionNode None)])) [("b", OptionNode None)]
           H eq_refl eq_refl eq_refl).
Defined.

(** ** Reachable states are well formed *)

Lemma phase_view s s' pending :
  commandQueue s' = commandQueue s -> commmandUsed s' = commmandUsed s ->
  timers s' = timers s -> now s' = now s ->
  phase s pending -> phase s' pending.
Proof.
  intros Hq Hu Ht Hn [c Hbusy Hone Hnow | Hq0 Hidle Hnone].
  - rewrite <- Hq. apply Draining; congruence.
  - apply Idle; congruence.
Qed.

Lemma wellFormed_view s s' :
  schedulerView s' = schedulerView s -> wellFormed s -> wellFormed s'.
Proof.
  unfold schedulerView. intros Hview (Hpos & pending & Hphase).
  inversion Hview as [[Hq Hu Ht Hn Hs]].
  split; [congruence|]. exists pending. now apply (phase_view s s').
Qed.

Section WellFormed.

Context {CH : CommandHandler} {ST : Storage} {DM : DomManipulator}
        {TT : TextTools} {LB : Labels}.

Lemma loaded_wellFormed s : loaded s -> wellFormed s.
Proof.
  intros (Hq & Hu & _ & Hs & Ht). split; [lia|].
  exists []. apply Idle; [assumption|assumption|now rewrite Ht].
Qed.

Lemma filter_isConsume_gainTimers evs : forall id t,
  filter isConsume (gainTimers id t evs) = [].
Proof.
  induction evs as [|[off v] r IH]; intros id t; [reflexivity|].
  cbn [gainTimers filter isConsume timerCb]. apply IH.
Qed.

Lemma playMorse_wellFormed morseCode silent s :
  wellFormed s -> wellFormed (exec (playMorse morseCode silent) s).
Proof.
  intros (Hpos & pending & Hphase).
  rewrite playMorse_run. cbv zeta. split.
  - cbn [soundTimeout].
    pose proof (finalCursor_ge (chars morseCode) (startCursor s)).
    unfold startCursor in *. destruct (soundQueue s); lia.
  - exists pending.
    set (added := gainTimers _ _ _ ++ [_]).
    assert (Hadded : filter isConsume (timers s ++ added) = filter isConsume (timers s)).
    { subst added. rewrite !filter_app, filter_isConsume_gainTimers. cbn.
      now rewrite app_nil_r. }
    destruct Hphase as [c Hbusy Hone Hnow | Hq Hidle Hnone].
    + pose proof (Draining
                    (mkState (commandQueue s) (commmandUsed s)
                       (soundQueue s ++ map timerId (gainTimers (nextTimerId s) (now s)
                                                       (timeline (startCursor s) (chars morseCode))))
                       (finalCursor (startCursor s) (chars morseCode))
                       (previousCommandPointer s) (keyPressed s) (ctrlPressed s) (altPressed s)
                       (helper s) (commandHistory s) (now s) (timers s ++ added)
                       (nextTimerId s + 2 * Z.of_nat (pulseCount (chars morseCode)) + 1) (log s))
                    c) as Hd.
      cbn [commmandUsed timers now commandQueue] in Hd.
      apply Hd; [assumption| |assumption]. now rewrite Hadded.
    + apply Idle; cbn; [assumption|assumption|]. now rewrite Hadded.
Qed.

Lemma submit_wellFormed c d m s :
  wellFormed s -> wellFormed (exec (queueCommand c d m ;; startCommandQueue) s).
Proof.
  intros (Hpos & pending & Hphase). rewrite exec_bind.
  set (s1 := snd (queueCommand c d m s)).
  assert (Hs1 : s1 = set_commandQueue (commandQueue s ++ [Stored.mk c d m]) s) by reflexivity.
  destruct Hphase as [t Hbusy Hone Hnow | Hq Hidle Hnone].
  - assert (Hb1 : commmandUsed s1 = true) by (rewrite Hs1; destruct s; exact Hbusy).
    unfold exec. rewrite (start_busy s1 Hb1). cbn [snd fst].
    split; [rewrite Hs1; destruct s; exact Hpos|].
    exists (schedule (fireAt t) (commandQueue s1)).
    apply Draining; rewrite Hs1; destruct s; assumption.
  - change (snd (startCommandQueue s1)) with (exec startCommandQueue s1). cbn [fst].
    rewrite start_idle by (rewrite Hs1; destruct s; exact Hidle).
    rewrite (consume_cons (Stored.mk c d m) [] s1)
      by (rewrite Hs1, Hq; destruct s; reflexivity).
    split; [rewrite Hs1; destruct s; exact Hpos|].
    exists (schedule (now s1 + commandTime) []).
    pose proof (Draining
                  (mkState [] true (soundQueue s1) (soundTimeout s1) (previousCommandPointer s1)
                     (keyPressed s1) (ctrlPressed s1) (altPressed s1)
                     (triggerCommand c (Some d) (helper s1)) (commandHistory s1) (now s1)
                     (timers s1 ++ [mkTimer (nextTimerId s1) (now s1 + commandTime)
                                      CbConsumeCommandQueue])
                     (nextTimerId s1 + 1)
                     (log s1 ++ echo (Stored.mk c d m) (now s1)
                        ++ [(now s1, TriggerCommand c (Some d))]))
                  (mkTimer (nextTimerId s1) (now s1 + commandTime) CbConsumeCommandQueue)) as Hd.
    cbn [commmandUsed timers now fireAt commandQueue] in Hd.
    apply Hd; [reflexivity| |unfold commandTime; lia].
    rewrite filter_app. replace (timers s1) with (timers s) by (rewrite Hs1; destruct s; reflexivity).
    now rewrite Hnone.
Qed.

(** Unfolds every function of the module down to the state record. *)
Ltac run_all :=
  cbv [exec bind ret gets modify when emit setTimeout pushSound
       callTriggerCommand callTriggerCommandStep callAbortCommand callResetCommand
       pushCommandHistory resetPreviousCommandPointer queueCommand startCommandQueue
       consumeCommandQueue setCommandUsed fst snd schedulerView
       Stored.command Stored.data Stored.commandMsg];
  state_fields.

Ltac split_ifs :=
  repeat (run_all;
          match goal with
          | |- context [if ?b then _ else _] => destruct b eqn:?
          | |- context [match ?o with Some _ => _ | None => _ end] => destruct o eqn:?
          end).

Lemma enter_view inputText s :
  schedulerView (exec (enterKeyHandler inputText) s) = schedulerView s
  \/ exists c d m,
       schedulerView (exec (enterKeyHandler inputText) s)
       = schedulerView (exec (queueCommand c d m ;; startCommandQueue) s).
Proof.
  destruct s as [cq cu sq sto pcp kp cp ap [c st fb kb hi] ch nw tm nid lg].
  unfold enterKeyHandler, resolveCommand, notRun. run_all.
  destruct kb; cbn [negb]; [left; reflexivity|].
  destruct c as [active|].
  - left. split_ifs; reflexivity.
  - destruct (Nat.ltb 0 (String.length (hd EmptyString (split " " (trimSpace inputText)))));
      [|left; reflexivity].
    destruct (if negb getDisableCommands
              then getCommand (toLowerCase (hd EmptyString (split " " (trimSpace inputText))))
              else None) as [command|] eqn:Hcommand.
    + destruct (accessAllowed (accessLevel command)).
      * right.
        exists (CmdName (commandName command)),
               (combineSequences (commandName command) (split " " (trimSpace inputText))),
               (printUsedCommand (clearAfterUse command) inputText).
        destruct cu, cq as [|[tc td [tmsg|]] cq], (clearBeforeUse command),
          (printUsedCommand (clearAfterUse command) inputText);
          run_all; cbn [negb app]; run_all; reflexivity.
      * destruct (isSome getUser && (getMode =? "chat")%string && true) eqn:Hchat.
        -- destruct (negb (existsb (String.eqb (charAt 0 (hd EmptyString (split " " (trimSpace inputText))))) getCommandChars)).
           ++ destruct (getCommand "msg"); [|left; reflexivity].
              right. exists (CmdFunc "msg"), (split " " (trimSpace inputText)), None.
              destruct cu, cq as [|[tc td [tmsg|]] cq];
                run_all; cbn [negb app]; run_all; reflexivity.
           ++ left. reflexivity.
        -- left. destruct (negb (isSome getUser)); reflexivity.
    + destruct (isSome getUser && (getMode =? "chat")%string && true) eqn:Hchat.
      * destruct (negb (existsb (String.eqb (charAt 0 (hd EmptyString (split " " (trimSpace inputText))))) getCommandChars)).
        -- destruct (getCommand "msg"); [|left; reflexivity].
           right. exists (CmdFunc "msg"), (split " " (trimSpace inputText)), None.
              destruct cu, cq as [|[tc td [tmsg|]] cq];
                run_all; cbn [negb app]; run_all; reflexivity.
        -- left. reflexivity.
      * left. destruct (negb (isSome getUser)); reflexivity.
Qed.

Lemma enter_wellFormed inputText s :
  wellFormed s -> wellFormed (exec (enterKeyHandler inputText) s).
Proof.
  intros Hwf. destruct (enter_view inputText s) as [Hview | (c & d & m & Hview)].
  - now apply (wellFormed_view s).
  - apply (wellFormed_view (exec (queueCommand c d m ;; startCommandQueue) s)); [exact Hview|].
    now apply submit_wellFormed.
Qed.

Lemma keyDown_view k inputText s :
  schedulerView (exec (specialKeyPress k inputText) s) = schedulerView s
  \/ exists s0,
       schedulerView s0 = schedulerView s
       /\ schedulerView (exec (specialKeyPress k inputText) s)
          = schedulerView (exec (enterKeyHandler inputText) s0).
Proof.
  destruct s as [cq cu sq sto pcp kp cp ap h ch nw tm nid lg].
  unfold specialKeyPress. cbv [bind emit modify gets fst snd exec]. state_fields.
  destruct kp; cbn [negb]; [left; reflexivity|].
  destruct k; try (left; reflexivity).
  - right.
    exists (mkState cq cu sq sto pcp false cp ap h ch nw tm nid
              ((lg ++ [(nw, FocusInput)]) ++ [(nw, RemoveSubMenu)])).
    split; [reflexivity|].
    match goal with |- context [enterKeyHandler inputText ?st] =>
      destruct (enterKeyHandler inputText st) as [[|] st'] end; destruct st'; reflexivity.
  - left. unfold upArrow. run_all. destruct cp; [reflexivity|].
    destruct h as [[c|] st fb [] hi]; cbn [negb isNone isSome andb]; try reflexivity.
    destruct (0 <? pcp); reflexivity.
  - left. unfold downArrow. run_all. destruct cp; [reflexivity|].
    destruct h as [[c|] st fb [] hi]; cbn [negb isNone isSome andb]; try reflexivity.
    destruct (pcp <? Z.of_nat (List.length ch) - 1);
      [|destruct (pcp =? Z.of_nat (List.length ch) - 1)]; reflexivity.
Qed.

Lemma keyUp_view k inputText s :
  schedulerView (exec (keyReleased k inputText) s) = schedulerView s.
Proof.
  destruct s as [cq cu sq sto pcp kp cp ap h ch nw tm nid lg].
  unfold keyReleased. destruct k; destruct (Nat.eqb (String.length inputText) 0); reflexivity.
Qed.

Lemma session_view s :
  (forall params, schedulerView (exec (onCommandSuccess params) s) = schedulerView s)
  /\ schedulerView (exec onCommandFail s) = schedulerView s
  /\ (forall cmdParams, schedulerView (exec (onCommandStep cmdParams) s) = schedulerView s).
Proof.
  destruct s as [cq cu sq sto pcp kp cp ap [[c|] st fb kb hi] ch nw tm nid lg];
    repeat split; try reflexivity; intros [[] [] d]; reflexivity.
Qed.

Lemma fireTimer_soundTimeout s s' : fireTimer s = Some s' -> soundTimeout s' = soundTimeout s.
Proof.
  unfold fireTimer. destruct (nextTimer (timers s)) as [[u rest]|]; [|discriminate].
  intros H. inversion H; subst s'; clear H.
  destruct s as [cq cu sq sto pcp kp cp ap h ch nw tm nid lg].
  destruct (timerCb u) as [v|n m [|]|]; try reflexivity.
  cbn [runCallback]. unfold consumeCommandQueue. run_all.
  destruct cq as [|[tc td [tmsg|]] cq]; reflexivity.
Qed.

Lemma step_wellFormed s s' : step s s' -> wellFormed s -> wellFormed s'.
Proof.
  intros Hstep Hwf. destruct Hstep as
      [morseCode silent s | inputText s | k inputText s | k inputText s
      | params s | s | cmdParams s | s s' Hfire | d s Hd Hdue].
  - now apply playMorse_wellFormed.
  - now apply enter_wellFormed.
  - destruct (keyDown_view k inputText s) as [Hview | (s0 & Hs0 & Hview)].
    + now apply (wellFormed_view s).
    + apply (wellFormed_view (exec (enterKeyHandler inputText) s0)); [exact Hview|].
      apply enter_wellFormed. now apply (wellFormed_view s).
  - apply (wellFormed_view s); [apply keyUp_view|assumption].
  - apply (wellFormed_view s); [apply session_view|assumption].
  - apply (wellFormed_view s); [apply session_view|assumption].
  - apply (wellFormed_view s); [apply session_view|assumption].
  - destruct Hwf as (Hpos & pending & Hphase). split.
    + now rewrite (fireTimer_soundTimeout s s' Hfire).
    + destruct (phase_step s pending s' Hphase Hfire) as (_ & pending' & _ & _ & _ & Hphase' & _).
      now exists pending'.
  - destruct Hwf as (Hpos & pending & Hphase). split; [destruct s; exact Hpos|].
    exists pending. destruct Hphase as [c Hbusy Hone Hnow | Hq Hidle Hnone].
    + pose proof (Draining (set_now (now s + d) s) c) as Hdr.
      replace (commandQueue (set_now (now s + d) s)) with (commandQueue s) in Hdr
        by (destruct s; reflexivity).
      apply Hdr; try (destruct s; assumption).
      assert (Hin : In c (timers s)).
      { assert (Hc : In c (filter isConsume (timers s))) by (rewrite Hone; now left).
        now apply filter_In in Hc. }
      rewrite Forall_forall in Hdue. specialize (Hdue c Hin). destruct s; exact Hdue.
    + apply Idle; destruct s; assumption.
Qed.

(** Every reachable state is well formed. *)
Lemma reachable_wellFormed s : reachable s -> wellFormed s.
Proof.
  induction 1 as [s Hloaded | s s' _ IH Hstep].
  - now apply loaded_wellFormed.
  - now apply (step_wellFormed s s').
Qed.

(** In a reachable state a clear busy flag is all it takes for the
    dispatcher to be idle. *)
Lemma reachable_idle s :
  reachable s -> commmandUsed s = false ->
  commandQueue s = [] /\ filter isConsume (timers s) = [] /\ 0 <= soundTimeout s.
Proof.
  intros Hreach Hidle.
  destruct (reachable_wellFormed s Hreach) as (Hpos & pending & Hphase).
  destruct Hphase as [c Hbusy _ _ | Hq _ Hnone]; [congruence|].
  repeat split; assumption.
Qed.

End WellFormed.

(** ** Overlapping playbacks *)

Section FiredTimers.

Context {CH : CommandHandler} {ST : Storage} {DM : DomManipulator}
        {TT : TextTools} {LB : Labels}.

Lemma runTimers_reachable n : forall s, reachable s -> reachable (runTimers n s).
Proof.
  induction n as [|n IH]; intros s Hs; cbn [runTimers]; [exact Hs|].
  destruct (fireTimer s) as [s'|] eqn:Hfire; [|exact Hs].
  apply IH. eapply ReachStep; [exact Hs|]. now apply StepTimer.
Qed.

End FiredTimers.

(** C6.  Overlapping playback requests can collide.  [.#] is requested on
    the loaded page and [-] right after it: the second request is queued
    behind the first, its dash due from 250 to 400.  At 250 the cleanup of
    the first request comes due before the dash starts; it asks for four
    handles, twice the length of [.#], where the request had put in two,
    and so takes the handles of the dash as well.  The sound queue is now
    empty while the dash is still pending.  A request for [.] made then
    starts at offset 0 instead of behind the dash, 150 later: its dot
    sounds together with the dash and its gain-off at 300 cuts the dash
    short. *)
Theorem overlapping_playback_collides :
  let fired n := runTimers (CH := Demo.handler) n in
  let first := exec (playMorse ".#" true) initialState in
  let second := exec (playMorse "-" true) first in
  let later := fired 3%nat second in
  let third := exec (playMorse "." true) later in
  registeredSince first second
  = [(250, CbSetGain 1); (400, CbSetGain 0); (400, CbFinishSoundQueue 2 "-" true)]
  /\ reachable (CH := Demo.handler) (ST := Demo.user) (DM := Demo.dom)
       (TT := Demo.textTools) (LB := Demo.labels) later
  /\ now later = 250
  /\ soundQueue later = []
  /\ map (fun t => (fireAt t, timerCb t)) (timers later)
     = [(250, CbSetGain 1); (400, CbSetGain 0); (400, CbFinishSoundQueue 2 "-" true)]
  /\ startCursor later = 0
  /\ registeredSince later third
     = [(0, CbSetGain 1); (50, CbSetGain 0); (50, CbFinishSoundQueue 2 "." true)]
  /\ log (fired 6%nat third)
     = [(0, SetGain 1); (50, SetGain 0);
        (250, SetGain 1); (250, SetGain 1); (300, SetGain 0); (400, SetGain 0)].
Proof.
  cbv zeta.
  split; [vm_compute; reflexivity|].
  split.
  { apply runTimers_reachable.
    eapply ReachStep; [|apply StepPlayMorse].
    eapply ReachStep; [|apply StepPlayMorse].
    apply ReachLoaded. repeat split. }
  split; [vm_compute; reflexivity|].
  split; [vm_compute; reflexivity|].
  split; [vm_compute; reflexivity|].
  split; [vm_compute; reflexivity|].
  split; [vm_compute; reflexivity|].
  vm_compute. reflexivity.
Qed.

(** * Further properties *)

(** Unfolds the functions of the module down to the state record. *)
Ltac run_module :=
  cbv [exec bind ret gets modify when emit setTimeout pushSound
       callTriggerCommand callTriggerCommandStep callAbortCommand callResetCommand
       pushCommandHistory resetPreviousCommandPointer queueCommand startCommandQueue
       consumeCommandQueue setCommandUsed fst snd
       Stored.command Stored.data Stored.commandMsg];
  state_fields.

Ltac crunch := repeat (progress (run_module; cbn [app negb])).

(** ** More on the matchers *)

Lemma charAt_cons_S c r j : charAt (S j) (String c r) = charAt j r.
Proof. reflexivity. Qed.

Lemma prefixLoop_forallb ok : forall n j matches,
  prefixLoop ok n j matches
  = match n with
    | O => matches
    | S _ => forallb ok (seq j n)
    end.
Proof.
  induction n as [|n IH]; intros j matches; [reflexivity|].
  cbn [prefixLoop seq forallb]. destruct (ok j); [|reflexivity].
  rewrite IH. destruct n; reflexivity.
Qed.

Lemma forallb_seq_shift (f : nat -> bool) : forall n a,
  forallb f (seq (S a) n) = forallb (fun j => f (S j)) (seq a n).
Proof.
  induction n as [|n IH]; intros a; [reflexivity|].
  cbn [seq forallb]. now rewrite IH.
Qed.

(** Comparing [partial] and [name] position by position over the length
    of [partial] is the prefix test. *)
Lemma positions_prefix partial : forall name,
  forallb (fun j => (charAt j partial =? charAt j name)%string) (seq 0 (String.length partial))
  = String.prefix partial name.
Proof.
  induction partial as [|c r IH]; intros name; [destruct name; reflexivity|].
  cbn [String.length seq forallb]. rewrite forallb_seq_shift.
  destruct name as [|d s].
  - reflexivity.
  - cbn [String.prefix]. unfold charAt at 1 2. cbn [String.get].
    destruct (ascii_dec c d) as [->|Hne].
    + rewrite String.eqb_refl. cbn [andb]. rewrite <- IH. reflexivity.
    + assert (Hcd : (String c "" =? String d "")%string = false).
      { apply String.eqb_neq. congruence. }
      rewrite Hcd. reflexivity.
Qed.

Lemma matchItems_prefix partial items : forall matches matched,
  partial <> EmptyString ->
  matchItems partial items matches matched = matched ++ filter (String.prefix partial) items.
Proof.
  induction items as [|name rest IH]; intros matches matched Hne.
  - cbn. now rewrite app_nil_r.
  - cbn [matchItems filter]. rewrite prefixLoop_forallb.
    destruct (String.length partial) eqn:Hlen; [destruct partial; [congruence|discriminate]|].
    rewrite <- Hlen, positions_prefix.
    rewrite IH by assumption.
    destruct (String.prefix partial name); [now rewrite <- app_assoc|reflexivity].
Qed.

(** [match] returns the items that begin with the partial, in their
    order, when the partial is not empty; for an empty partial it returns
    nothing, and for a missing one it fails unless there is no item. *)
Theorem match_returns_the_items_with_the_prefix (items : list string) :
  (forall partial, partial <> EmptyString ->
     jsMatch (Some partial) items = Some (filter (String.prefix partial) items))
  /\ jsMatch (Some EmptyString) items = Some []
  /\ (jsMatch None items = None <-> items <> []).
Proof.
  split; [|split].
  - intros partial Hne. unfold jsMatch. now rewrite matchItems_prefix.
  - unfold jsMatch. now rewrite matchItems_empty_partial.
  - destruct items; cbn; split; congruence.
Qed.

Lemma match_returns_the_items_with_the_prefix_witness :
  "fo" <> EmptyString
  /\ jsMatch (Some "fo") ["help"; "follow"; "msg"; "followpublic"]
     = Some ["follow"; "followpublic"].
Proof.
  assert (H : "fo" <> EmptyString) by discriminate.
  split; [exact H|].
  exact (proj1 (match_returns_the_items_with_the_prefix
                  ["help"; "follow"; "msg"; "followpublic"]) "fo" H).
Defined.

Lemma forallb_seq_and (a : bool) (f : nat -> bool) : forall n j,
  forallb (fun i => a && f i) (seq j (S n)) = a && forallb f (seq j (S n)).
Proof.
  induction n as [|n IH]; intros j.
  - cbn. destruct a, (f j); reflexivity.
  - change (seq j (S (S n))) with (j :: seq (S j) (S n)).
    cbn [forallb]. rewrite IH. destruct a, (f j); reflexivity.
Qed.

Section CommandCompletion.

Context {CH : CommandHandler} {ST : Storage} {TT : TextTools}.

Lemma matchCommands_filter partialCommand allCommands :
  partialCommand <> EmptyString ->
  matchCommands partialCommand allCommands
  = filter (fun command => commandVisible command && String.prefix partialCommand command)
      allCommands.
Proof.
  intros Hne. unfold matchCommands. apply filter_ext. intros command.
  rewrite prefixLoop_forallb.
  destruct (String.length partialCommand) eqn:Hlen;
    [destruct partialCommand; [congruence|discriminate]|].
  unfold commandCharOk, commandVisible.
  rewrite (forallb_seq_and _ (fun j => (charAt j partialCommand =? charAt j command)%string)).
  now rewrite <- Hlen, positions_prefix.
Qed.

(** Command-name completion picks, among the commands of the registry, the
    visible ones that begin with the partial.  A single match replaces the
    input by the match and a space, behind the command sign if the line
    began with one; no match leaves everything alone.  Nothing is
    completed for a line of several phrases, nor for a logged-in user
    outside command mode who typed no command sign. *)
Theorem command_completion (phrase : string) (others : list string) :
  let sign := charAt 0 phrase in
  let partialCommand := if isCommandChar sign then slice1 phrase else phrase in
  let matched :=
    filter (fun command => commandVisible command && String.prefix partialCommand command)
      getCommands in
  (partialCommand <> EmptyString ->
   isCommandChar sign || (getMode =? "cmd")%string || isNone getUser = true ->
   (forall only, matched = [only] ->
      autoCompleteCommand [phrase]
      = Some [ClearInput; SetCommandInput (Some (keptSign sign ++ only ++ " ")%string)])
   /\ (matched = [] -> autoCompleteCommand [phrase] = Some []))
  /\ (isCommandChar sign || (getMode =? "cmd")%string || isNone getUser = false ->
      autoCompleteCommand (phrase :: others) = Some [])
  /\ (others <> [] -> autoCompleteCommand (phrase :: others) = Some []).
Proof.
  intros sign partialCommand matched. split; [|split].
  - intros Hne Hguard.
    assert (Hphrase : Nat.ltb 0 (String.length phrase) = true).
    { destruct phrase; [|reflexivity]. subst partialCommand sign. cbn in Hne.
      destruct (isCommandChar ""); congruence. }
    assert (Hm : matchCommands partialCommand getCommands = matched)
      by (now apply matchCommands_filter).
    unfold autoCompleteCommand. fold sign. cbn [List.length Nat.eqb andb].
    rewrite Hphrase, Hguard. fold partialCommand. rewrite Hm.
    split.
    + intros only Hone. rewrite Hone. reflexivity.
    + intros Hnone. rewrite Hnone. reflexivity.
  - intros Hguard. unfold autoCompleteCommand. fold sign. rewrite Hguard.
    now rewrite !andb_false_r.
  - intros Hothers. unfold autoCompleteCommand.
    destruct others as [|o r]; [congruence|]. reflexivity.
Qed.

End CommandCompletion.

Lemma command_completion_witness :
  slice1 "-help" <> EmptyString
  /\ autoCompleteCommand (CH := Demo.handler) (ST := Demo.user) (TT := Demo.textTools) ["-help"]
     = Some [ClearInput; SetCommandInput (Some "-help ")].
Proof.
  split; [discriminate|].
  refine (proj1 (proj1 (command_completion (CH := Demo.handler) (ST := Demo.user)
                          (TT := Demo.textTools) "-help" [])
                   _ eq_refl) "help" eq_refl).
  vm_compute. discriminate.
Defined.

(** ** Lines that are run *)

Section RunningLines.

Context {CH : CommandHandler} {ST : Storage} {DM : DomManipulator}
        {TT : TextTools} {LB : Labels}.

(** At top level, with the keys free, a line whose first phrase resolves
    to a command the user may run is appended, as trimmed, to the history,
    and the history pointer is set behind it.  A command that asks for it
    has [clear] triggered at once, before anything else.  With the
    dispatcher idle the command itself then runs at once, with the aliased
    sequence and the remaining phrases as arguments, after its echo; with
    the dispatcher busy it is put at the end of the queue and does not run
    yet: apart from that [clear], nothing is called but what closes every
    submission, and no timer is registered. *)
Theorem known_command_is_queued (inputText : string) (command : commandDef) (s : state) :
  keysBlocked (helper s) = false ->
  idle (helper s) ->
  let phrases := split " " (trimSpace inputText) in
  let first := hd EmptyString phrases in
  first <> EmptyString ->
  runnable first = Some command ->
  let s' := exec (enterKeyHandler inputText) s in
  let entry := entryFor command inputText in
  commandHistory s' = commandHistory s ++ [trimSpace inputText]
  /\ previousCommandPointer s' = Z.of_nat (List.length (commandHistory s')) 
  /\ (commmandUsed s = true ->
      commandQueue s' = commandQueue s ++ [entry]
      /\ logSince s s' = clearing command (now s) ++ closing (now s)
      /\ timers s' = timers s)
  /\ (commmandUsed s = false -> commandQueue s = [] ->
      commandQueue s' = [] /\ commmandUsed s' = true
      /\ logSince s s'
         = clearing command (now s) ++ echo entry (now s)
           ++ [(now s, TriggerCommand (Stored.command entry) (Some (Stored.data entry)))]
           ++ closing (now s)
      /\ timers s'
         = timers s ++ [mkTimer (nextTimerId s) (now s + commandTime) CbConsumeCommandQueue]).
Proof.
  intros Hfree Hidle phrases first Hfirst Hrun s' entry.
  assert (Hlen : Nat.ltb 0 (String.length first) = true)
    by (destruct first; [congruence|reflexivity]).
  unfold runnable in Hrun.
  destruct getDisableCommands eqn:Hdis; [discriminate|].
  destruct (getCommand (toLowerCase first)) as [found|] eqn:Hget; [|discriminate].
  destruct (accessAllowed (accessLevel found)) eqn:Hacc; [|discriminate].
  inversion Hrun; subst found; clear Hrun.
  assert (Hjoin : join " " phrases = trimSpace inputText) by apply join_split.
  subst s' entry. unfold entryFor, clearing. fold phrases.
  destruct s as [cq cu sq sto pcp kp cp ap [c st fb kb hi] ch nw tm nid lg].
  unfold idle in Hidle. cbn in Hfree, Hidle. subst c kb.
  unfold logSince, enterKeyHandler, resolveCommand.
  fold phrases. fold first. run_module. cbn [negb].
  rewrite Hlen, Hdis. cbn [negb]. rewrite Hget, Hacc, Hjoin.
  destruct (clearBeforeUse command), cu; run_module; cbn [negb]; run_module;
    rewrite ?length_app; cbn [List.length].
  - (* clear first, dispatcher busy *)
    split; [reflexivity|]. split; [reflexivity|]. split; [|discriminate].
    intros _. rewrite <- !app_assoc, skipn_app, skipn_all, Nat.sub_diag.
    repeat split.
  - (* clear first, dispatcher idle *)
    split; [destruct cq as [|[c0 d0 [m0|]] cq],
                     (printUsedCommand (clearAfterUse command) inputText);
            cbn [app]; run_module; reflexivity|].
    split; [destruct cq as [|[c0 d0 [m0|]] cq],
                     (printUsedCommand (clearAfterUse command) inputText);
            cbn [app]; run_module; rewrite ?length_app; reflexivity|].
    split; [discriminate|]. intros _ Hq. subst cq. cbn [app]. run_module.
    unfold echo. cbn [Stored.commandMsg].
    destruct (printUsedCommand (clearAfterUse command) inputText); run_module;
      rewrite <- !app_assoc, skipn_app, skipn_all, Nat.sub_diag; repeat split.
  - split; [reflexivity|]. split; [reflexivity|]. split; [|discriminate].
    intros _. rewrite <- !app_assoc, skipn_app, skipn_all, Nat.sub_diag.
    repeat split.
  - split; [destruct cq as [|[c0 d0 [m0|]] cq],
                     (printUsedCommand (clearAfterUse command) inputText);
            cbn [app]; run_module; reflexivity|].
    split; [destruct cq as [|[c0 d0 [m0|]] cq],
                     (printUsedCommand (clearAfterUse command) inputText);
            cbn [app]; run_module; rewrite ?length_app; reflexivity|].
    split; [discriminate|]. intros _ Hq. subst cq. cbn [app]. run_module.
    unfold echo. cbn [Stored.commandMsg].
    destruct (printUsedCommand (clearAfterUse command) inputText); run_module;
      rewrite <- !app_assoc, skipn_app, skipn_all, Nat.sub_diag; repeat split.
Qed.

End RunningLines.

Lemma known_command_is_queued_witness :
  keysBlocked (helper initialState) = false
  /\ idle (helper initialState)
  /\ commandHistory
       (exec (enterKeyHandler (CH := Demo.handler) (ST := Demo.user) (DM := Demo.dom)
                (TT := Demo.textTools) (LB := Demo.labels) "Follow public ")
             initialState)
     = ["Follow public"].
Proof.
  assert (H1 : keysBlocked (helper initialState) = false) by reflexivity.
  assert (H2 : idle (helper initialState)) by reflexivity.
  split; [exact H1|]. split; [exact H2|].
  refine (proj1 (known_command_is_queued
                   (CH := Demo.handler) (ST := Demo.user) (DM := Demo.dom)
                   (TT := Demo.textTools) (LB := Demo.labels)
                   "Follow public " (mkCommand "follow" (Some 1) false false) initialState
                   H1 H2 _ eq_refl)).
  vm_compute. discriminate.
Defined.

Section OtherLines.

Context {CH : CommandHandler} {ST : Storage} {DM : DomManipulator}
        {TT : TextTools} {LB : Labels}.

(** A command that is disabled, or above the user's access level, is
    treated like a name that is no command: at top level, with the keys
    free, such a line that is not sent as chat is never queued and never
    run, and the failure is reported. *)
Theorem command_not_allowed_is_not_run (inputText : string) (s : state) :
  keysBlocked (helper s) = false ->
  idle (helper s) ->
  let phrases := split " " (trimSpace inputText) in
  let first := hd EmptyString phrases in
  first <> EmptyString ->
  runnable first = None ->
  sentAsChat first = false ->
  let s' := exec (enterKeyHandler inputText) s in
  commandQueue s' = commandQueue s
  /\ commmandUsed s' = commmandUsed s
  /\ timers s' = timers s
  /\ helper s' = helper s
  /\ noCommandRun s s'
  /\ displayed (events (logSince s s')) = failureReport phrases.
Proof.
  intros Hfree Hidle phrases first Hfirst Hrun Hchat s'.
  assert (Hlen : Nat.ltb 0 (String.length first) = true)
    by (destruct first; [congruence|reflexivity]).
  assert (Hresolve :
            match (if negb getDisableCommands then getCommand (toLowerCase first) else None) with
            | Some command => accessAllowed (accessLevel command) = false
            | None => True
            end).
  { unfold runnable in Hrun. destruct getDisableCommands; [exact I|]. cbn [negb].
    destruct (getCommand (toLowerCase first)) as [command|]; [|exact I].
    destruct (accessAllowed (accessLevel command)); [discriminate|reflexivity]. }
  assert (Hnot : exec (enterKeyHandler inputText) s
                 = exec (modify (set_keyPressed true) ;;
                         _ <- notRun inputText phrases ;;
                         emit RemoveSubMenu ;; resetPreviousCommandPointer ;;
                         emit ClearInput ;; emit ClearModeText) s).
  { destruct s as [cq cu sq sto pcp kp cp ap [c st fb kb hi] ch nw tm nid lg].
    unfold idle in Hidle. cbn in Hfree, Hidle. subst c kb.
    unfold enterKeyHandler, resolveCommand. fold phrases. fold first.
    cbv [exec bind gets modify fst snd]. state_fields. cbn [negb]. rewrite Hlen.
    destruct (if negb getDisableCommands then getCommand (toLowerCase first) else None)
      as [command|]; [rewrite Hresolve|];
      unfold notRun; fold first; unfold sentAsChat in Hchat; rewrite Hlen, andb_true_r;
      (destruct (isSome getUser && (getMode =? "chat")%string) eqn:Hc;
       [cbn [andb] in Hchat; apply negb_false_iff in Hchat; rewrite Hchat; reflexivity
       |destruct (negb (isSome getUser)); reflexivity]). }
  subst s'. rewrite Hnot. clear Hnot.
  destruct s as [cq cu sq sto pcp kp cp ap h ch nw tm nid lg].
  unfold notRun, failureReport, noCommandRun, logSince. fold first.
  unfold sentAsChat in Hchat. rewrite Hlen, andb_true_r.
  destruct (isSome getUser && (getMode =? "chat")%string) eqn:Hc.
  - cbn [andb] in Hchat. apply negb_false_iff in Hchat. rewrite Hchat. cbn [negb].
    run_module. rewrite <- !app_assoc, skipn_app, skipn_all, Nat.sub_diag. cbn [skipn app].
    repeat split. intros t cmd p Hin. cbn in Hin.
    repeat (destruct Hin as [Hin|Hin]; [discriminate|]). exact Hin.
  - destruct (negb (isSome getUser)); run_module;
      rewrite <- !app_assoc, skipn_app, skipn_all, Nat.sub_diag; cbn [skipn app];
      repeat split; intros t cmd p Hin; cbn in Hin;
      repeat (destruct Hin as [Hin|Hin]; [discriminate|]); exact Hin.
Qed.

(** In chat mode a logged-in user's line that starts with no command sign
    and names no runnable command goes out through the [msg] command with
    all its phrases as arguments: at once when the dispatcher is idle, else
    behind what is queued.  The history is not touched.  When the registry
    has no [msg] command the handler breaks off before anything is queued. *)
Theorem chat_line_is_sent_as_message (inputText : string) (s : state) :
  keysBlocked (helper s) = false ->
  idle (helper s) ->
  let phrases := split " " (trimSpace inputText) in
  let first := hd EmptyString phrases in
  first <> EmptyString ->
  runnable first = None ->
  sentAsChat first = true ->
  let r := enterKeyHandler inputText s in
  let s' := snd r in
  commandHistory s' = commandHistory s
  /\ (getCommand "msg" = None ->
      fst r = TypeError /\ s' = set_keyPressed true s)
  /\ (getCommand "msg" <> None ->
      fst r = Normal
      /\ (commmandUsed s = true ->
          commandQueue s' = commandQueue s ++ [Stored.mk (CmdFunc "msg") phrases None]
          /\ executions (logSince s s') = [])
      /\ (commmandUsed s = false -> commandQueue s = [] ->
          commandQueue s' = []
          /\ executions (logSince s s') = [(now s, CmdFunc "msg", phrases)])).
Proof.
  intros Hfree Hidle phrases first Hfirst Hrun Hchat r s'.
  assert (Hlen : Nat.ltb 0 (String.length first) = true)
    by (destruct first; [congruence|reflexivity]).
  assert (Hresolve :
            match (if negb getDisableCommands then getCommand (toLowerCase first) else None) with
            | Some command => accessAllowed (accessLevel command) = false
            | None => True
            end).
  { unfold runnable in Hrun. destruct getDisableCommands; [exact I|]. cbn [negb].
    destruct (getCommand (toLowerCase first)) as [command|]; [|exact I].
    destruct (accessAllowed (accessLevel command)); [discriminate|reflexivity]. }
  unfold sentAsChat in Hchat. apply andb_prop in Hchat. destruct Hchat as [Hmode Hsign].
  subst s' r.
  destruct s as [cq cu sq sto pcp kp cp ap [c st fb kb hi] ch nw tm nid lg].
  unfold idle in Hidle. cbn in Hfree, Hidle. subst c kb.
  unfold enterKeyHandler, resolveCommand, logSince. fold phrases. fold first.
  cbv [exec bind gets modify fst snd]. state_fields. cbn [negb]. rewrite Hlen.
  assert (Hbody :
            (match (if negb getDisableCommands then getCommand (toLowerCase first) else None) with
             | Some command =>
                 if accessAllowed (accessLevel command)
                 then (pushCommandHistory (join " " phrases) ;;
                       when (clearBeforeUse command) (callTriggerCommand (CmdName "clear") None) ;;
                       queueCommand (CmdName (commandName command))
                         (combineSequences (commandName command) phrases)
                         (printUsedCommand (clearAfterUse command) inputText) ;;
                       startCommandQueue ;; ret Normal)
                 else notRun inputText phrases
             | None => notRun inputText phrases
             end)
            = notRun inputText phrases).
  { destruct (if negb getDisableCommands then getCommand (toLowerCase first) else None);
      [now rewrite Hresolve|reflexivity]. }
  cbv [bind] in Hbody. rewrite Hbody. clear Hbody.
  unfold notRun. fold first. rewrite Hmode, Hlen, Hsign. cbn [andb].
  destruct (getCommand "msg") as [msg|].
  - split; [destruct cu, cq as [|[c0 d0 [m0|]] cq]; cbn [app]; run_module; reflexivity|].
    split; [discriminate|]. intros _.
    split; [destruct cu, cq as [|[c0 d0 [m0|]] cq]; cbn [app]; run_module; reflexivity|].
    split.
    + intros ->. crunch.
      rewrite <- !app_assoc, skipn_app, skipn_all, Nat.sub_diag. repeat split.
    + intros -> ->. crunch.
      rewrite <- !app_assoc, skipn_app, skipn_all, Nat.sub_diag. repeat split.
  - cbv [ret]. split; [reflexivity|]. split; [intros _; split; reflexivity|].
    intros Hmsg. congruence.
Qed.

End OtherLines.

Lemma command_not_allowed_is_not_run_witness :
  keysBlocked (helper initialState) = false
  /\ idle (helper initialState)
  /\ getCommand (CommandHandler := Demo.handler) "follow"
     = Some (mkCommand "follow" (Some 1) false false)
  /\ commandQueue
       (exec (enterKeyHandler (CH := Demo.handler) (ST := Demo4.guest) (DM := Demo.dom)
                (TT := Demo.textTools) (LB := Demo.labels) "follow public")
             initialState)
     = commandQueue initialState.
Proof.
  assert (H1 : keysBlocked (helper initialState) = false) by reflexivity.
  assert (H2 : idle (helper initialState)) by reflexivity.
  split; [exact H1|]. split; [exact H2|]. split; [reflexivity|].
  refine (proj1 (command_not_allowed_is_not_run
                   (CH := Demo.handler) (ST := Demo4.guest) (DM := Demo.dom)
                   (TT := Demo.textTools) (LB := Demo.labels)
                   "follow public" initialState H1 H2 _ eq_refl eq_refl)).
  vm_compute. discriminate.
Defined.

Lemma chat_line_is_sent_as_message_witness :
  keysBlocked (helper initialState) = false
  /\ idle (helper initialState)
  /\ commandHistory
       (snd (enterKeyHandler (CH := Demo.handler) (ST := Demo4.chatter) (DM := Demo.dom)
               (TT := Demo.textTools) (LB := Demo.labels) "hello there" initialState))
     = commandHistory initialState.
Proof.
  assert (H1 : keysBlocked (helper initialState) = false) by reflexivity.
  assert (H2 : idle (helper initialState)) by reflexivity.
  split; [exact H1|]. split; [exact H2|].
  refine (proj1 (chat_line_is_sent_as_message
                   (CH := Demo.handler) (ST := Demo4.chatter) (DM := Demo.dom)
                   (TT := Demo.textTools) (LB := Demo.labels)
                   "hello there" initialState H1 H2 _ eq_refl eq_refl)).
  vm_compute. discriminate.
Defined.

(** ** Keys *)

Section Keys.

Context {CH : CommandHandler} {ST : Storage} {DM : DomManipulator}
        {TT : TextTools} {LB : Labels}.

Lemma enter_keyPressed inputText s :
  keyPressed (snd (enterKeyHandler inputText s)) = true.
Proof.
  destruct s as [cq cu sq sto pcp kp cp ap [c st fb kb hi] ch nw tm nid lg].
  unfold enterKeyHandler, resolveCommand, notRun.
  cbv [bind gets modify fst snd]. state_fields.
  destruct kb; cbn [negb]; [reflexivity|].
  destruct c as [active|].
  - destruct (_ || _)%bool; [reflexivity|]. destruct hi; reflexivity.
  - destruct (Nat.ltb 0 _); [|destruct (printUsedCommand false " "); reflexivity].
    destruct (if negb getDisableCommands then _ else None) as [command|].
    + destruct (accessAllowed (accessLevel command)).
      * destruct (clearBeforeUse command), cu, cq as [|[c0 d0 [m0|]] cq],
          (printUsedCommand (clearAfterUse command) inputText); reflexivity.
      * destruct (isSome getUser && (getMode =? "chat")%string && true).
        -- destruct (negb _); [|reflexivity].
           destruct (getCommand "msg"); [|reflexivity].
           destruct cu, cq as [|[c0 d0 [m0|]] cq]; reflexivity.
        -- destruct (negb (isSome getUser)); reflexivity.
    + destruct (isSome getUser && (getMode =? "chat")%string && true).
      * destruct (negb _); [|reflexivity].
        destruct (getCommand "msg"); [|reflexivity].
        destruct cu, cq as [|[c0 d0 [m0|]] cq]; reflexivity.
      * destruct (negb (isSome getUser)); reflexivity.
Qed.

(** While a key is held every key-down is ignored: nothing but the log
    changes.  Enter and the arrow keys mark the key as held until a key is
    released, so a key that repeats while it is held down acts once. *)
Theorem held_key_is_ignored (k k' : specialKey) (inputText inputText' : string) (s : state) :
  (keyPressed s = true ->
   specialKeyPress k inputText s = (Normal, set_log (log s ++ ignoredKey (now s)) s))
  /\ (holdsKey k = true ->
      let s1 := snd (specialKeyPress k inputText s) in
      keyPressed s1 = true
      /\ specialKeyPress k' inputText' s1
         = (Normal, set_log (log s1 ++ ignoredKey (now s1)) s1)
      /\ keyPressed (exec (keyReleased k inputText') s1) = false).
Proof.
  assert (Hheld : forall key text st, keyPressed st = true ->
            specialKeyPress key text st = (Normal, set_log (log st ++ ignoredKey (now st)) st)).
  { intros key text st Hst.
    destruct st as [cq cu sq sto pcp kp cp ap h ch nw tm nid lg]. cbn in Hst. subst kp.
    unfold specialKeyPress, ignoredKey. cbv [bind emit modify gets ret fst snd]. state_fields.
    cbn [negb]. now rewrite <- !app_assoc. }
  split; [apply Hheld|].
  intros Hk s1.
  assert (Hs1 : keyPressed s1 = true).
  { subst s1. destruct (keyPressed s) eqn:Hkp.
    - rewrite (Hheld k inputText s Hkp). destruct s; exact Hkp.
    - destruct s as [cq cu sq sto pcp kp cp ap h ch nw tm nid lg]. cbn in Hkp. subst kp.
      unfold specialKeyPress. cbv [bind emit modify gets fst snd]. state_fields. cbn [negb].
      destruct k; try discriminate.
      + match goal with |- context [enterKeyHandler inputText ?st] =>
          pose proof (enter_keyPressed inputText st) as He;
          destruct (enterKeyHandler inputText st) as [[|] st'] end;
          cbn [fst snd] in *; destruct st'; exact He.
      + destruct h as [c st fb kb hi]. unfold upArrow.
        destruct cp, kb, c, (0 <? pcp) eqn:Hp;
          cbv [bind emit modify gets when ret fst snd isNone isSome negb andb]; state_fields;
          rewrite ?Hp; reflexivity.
      + destruct h as [c st fb kb hi]. unfold downArrow.
        destruct cp, kb, c;
          cbv [bind emit modify gets when ret fst snd isNone isSome negb andb]; state_fields;
          try reflexivity;
          destruct (pcp <? Z.of_nat (List.length ch) - 1);
          [|destruct (pcp =? Z.of_nat (List.length ch) - 1)]; state_fields; reflexivity. }
  split; [exact Hs1|]. split; [now apply Hheld|].
  destruct s1 as [cq cu sq sto pcp kp cp ap h ch nw tm nid lg].
  unfold keyReleased. destruct k; try discriminate;
    destruct (Nat.eqb (String.length inputText') 0); reflexivity.
Qed.

End Keys.

Lemma held_key_is_ignored_witness :
  keyPressed (set_keyPressed true initialState) = true
  /\ holdsKey Enter = true
  /\ commandHistory
       (snd (specialKeyPress (CH := Demo.handler) (ST := Demo.user) (DM := Demo.dom)
               (TT := Demo.textTools) (LB := Demo.labels) Enter "help"
               (set_keyPressed true initialState)))
     = []
  /\ keyPressed
       (snd (specialKeyPress (CH := Demo.handler) (ST := Demo.user) (DM := Demo.dom)
               (TT := Demo.textTools) (LB := Demo.labels) Enter "help"
               (set_keyPressed true initialState)))
     = true.
Proof.
  assert (H : keyPressed (set_keyPressed true initialState) = true) by reflexivity.
  assert (K : holdsKey Enter = true) by reflexivity.
  destruct (held_key_is_ignored (CH := Demo.handler) (ST := Demo.user) (DM := Demo.dom)
              (TT := Demo.textTools) (LB := Demo.labels)
              Enter Enter "help" "help" (set_keyPressed true initialState)) as [H1 H2].
  split; [exact H|]. split; [exact K|]. split.
  - rewrite (H1 H). reflexivity.
  - exact (proj1 (H2 K)).
Defined.

(** ** Browsing the history *)

Section Browsing.

Context {CH : CommandHandler} {ST : Storage} {DM : DomManipulator}
        {TT : TextTools} {LB : Labels}.

Lemma index_in_range {A} (a : list A) (i : Z) :
  0 <= i < Z.of_nat (List.length a) -> exists x, index a i = Some x /\ In x a.
Proof.
  intros Hi. unfold index. destruct (Z.ltb_spec i 0); [lia|].
  destruct (nth_error a (Z.to_nat i)) as [x|] eqn:Hx.
  - exists x. split; [reflexivity|]. eapply nth_error_In; eassumption.
  - apply nth_error_None in Hx. lia.
Qed.

Lemma tap_up_run before after s :
  browsing s ->
  let p := previousCommandPointer s in
  exists added,
    exec (tap UpArrow before after) s
    = set_log (log s ++ added) (set_previousCommandPointer (if 0 <? p then p - 1 else p) s)
    /\ inputEvents added
       = if 0 <? p then [ClearInput; SetCommandInput (index (commandHistory s) (p - 1))] else [].
Proof.
  destruct s as [cq cu sq sto pcp kp cp ap [c st fb kb hi] ch nw tm nid lg].
  intros (Hkp & Hcp & Hkb & Hc). cbv [idle] in Hc. cbn in Hkp, Hcp, Hkb, Hc. subst kp cp kb c.
  cbn [previousCommandPointer].
  unfold tap, specialKeyPress, upArrow, keyReleased.
  destruct (0 <? pcp) eqn:Hp, (Nat.eqb (String.length after) 0);
    cbv [exec bind emit modify gets when ret fst snd isNone isSome negb andb]; state_fields;
    rewrite ?Hp; state_fields; rewrite <- !app_assoc; cbn [app];
    eexists; (split; [reflexivity|reflexivity]).
Qed.

Lemma tap_down_run before after s :
  browsing s ->
  let p := previousCommandPointer s in
  let length := Z.of_nat (List.length (commandHistory s)) in
  exists added,
    exec (tap DownArrow before after) s
    = set_log (log s ++ added) (set_previousCommandPointer (if p <? length then p + 1 else p) s)
    /\ inputEvents added
       = if p <? length - 1
         then [ClearInput; SetCommandInput (index (commandHistory s) (p + 1))]
         else [ClearInput].
Proof.
  destruct s as [cq cu sq sto pcp kp cp ap [c st fb kb hi] ch nw tm nid lg].
  intros (Hkp & Hcp & Hkb & Hc). cbv [idle] in Hc. cbn in Hkp, Hcp, Hkb, Hc. subst kp cp kb c.
  cbn [previousCommandPointer commandHistory].
  unfold tap, specialKeyPress, downArrow, keyReleased.
  destruct (pcp <? Z.of_nat (List.length ch) - 1) eqn:Hp;
    [|destruct (pcp =? Z.of_nat (List.length ch) - 1) eqn:Hq];
    destruct (pcp <? Z.of_nat (List.length ch)) eqn:Hr; try lia;
    destruct (Nat.eqb (String.length after) 0);
    cbv [exec bind emit modify gets when ret fst snd isNone isSome negb andb]; state_fields;
    rewrite ?Hp, ?Hq; state_fields; rewrite <- !app_assoc; cbn [app];
    eexists; (split; [reflexivity|reflexivity]).
Qed.

Lemma browsing_frame s added p :
  browsing s -> browsing (set_log added (set_previousCommandPointer p s)).
Proof. destruct s. exact (fun H => H). Qed.

(** What the arrow keys do while the history is browsed, for a pointer in
    range.  Up moves the pointer one entry back and shows that entry; at
    the first entry it changes nothing.  Down moves one entry on and shows
    it; from the last entry it moves behind the log and clears the line,
    and there it only clears the line.  The line shown is always an entry
    of the log, and the pointer stays in range. *)
Theorem arrow_keys_walk_the_history (before after : string) (s : state) :
  browsing s -> pointerInRange s ->
  let p := previousCommandPointer s in
  let history := commandHistory s in
  let length := Z.of_nat (List.length history) in
  let up := exec (tap UpArrow before after) s in
  let down := exec (tap DownArrow before after) s in
  (browsing up /\ pointerInRange up /\ commandHistory up = history
   /\ (0 < p ->
       previousCommandPointer up = p - 1
       /\ exists line, nth_error history (Z.to_nat (p - 1)) = Some line
            /\ inputEvents (logSince s up) = [ClearInput; SetCommandInput (Some line)])
   /\ (p = 0 -> previousCommandPointer up = 0 /\ inputEvents (logSince s up) = []))
  /\ (browsing down /\ pointerInRange down /\ commandHistory down = history
      /\ (p + 1 < length ->
          previousCommandPointer down = p + 1
          /\ exists line, nth_error history (Z.to_nat (p + 1)) = Some line
               /\ inputEvents (logSince s down) = [ClearInput; SetCommandInput (Some line)])
      /\ (length <= p + 1 ->
          previousCommandPointer down = length
          /\ inputEvents (logSince s down) = [ClearInput])).
Proof.
  intros Hb Hr p history length up down.
  destruct (tap_up_run before after s Hb) as (addedU & HU & HinU).
  destruct (tap_down_run before after s Hb) as (addedD & HD & HinD).
  fold p in HU, HinU, HD, HinD. fold history in HinU, HinD. fold length in HD, HinD.
  fold up in HU. fold down in HD.
  assert (HlogU : logSince s up = addedU) by (apply logSince_app; rewrite HU; destruct s; reflexivity).
  assert (HlogD : logSince s down = addedD) by (apply logSince_app; rewrite HD; destruct s; reflexivity).
  rewrite HlogU, HlogD.
  assert (HhU : commandHistory up = history) by (rewrite HU; destruct s; reflexivity).
  assert (HhD : commandHistory down = history) by (rewrite HD; destruct s; reflexivity).
  assert (HpU : previousCommandPointer up = if 0 <? p then p - 1 else p)
    by (rewrite HU; destruct s; reflexivity).
  assert (HpD : previousCommandPointer down = if p <? length then p + 1 else p)
    by (rewrite HD; destruct s; reflexivity).
  unfold pointerInRange in *. fold p history length in Hr.
  rewrite HhU, HhD, HpU, HpD. fold length.
  split; (split; [rewrite ?HU, ?HD; apply browsing_frame; exact Hb|]).
  - split; [destruct (Z.ltb_spec 0 p); lia|]. split; [reflexivity|]. split.
    + intros Hp. destruct (Z.ltb_spec 0 p); [|lia]. split; [reflexivity|].
      destruct (index_in_range history (p - 1)) as (line & Hline & _); [fold length; lia|].
      exists line. rewrite HinU, Hline. split; [|reflexivity].
      unfold index in Hline. destruct (Z.ltb_spec (p - 1) 0); [lia|exact Hline].
    + intros ->. rewrite HinU. split; reflexivity.
  - split; [destruct (Z.ltb_spec p length); lia|]. split; [reflexivity|]. split.
    + intros Hp. destruct (Z.ltb_spec p length); [|lia]. split; [reflexivity|].
      destruct (index_in_range history (p + 1)) as (line & Hline & _); [fold length; lia|].
      exists line. rewrite HinD, Hline.
      destruct (Z.ltb_spec p (length - 1)); [|lia]. split; [|reflexivity].
      unfold index in Hline. destruct (Z.ltb_spec (p + 1) 0); [lia|exact Hline].
    + intros Hp. rewrite HinD. destruct (Z.ltb_spec p (length - 1)); [lia|].
      split; [|reflexivity]. destruct (Z.ltb_spec p length); lia.
Qed.

(** Down undoes up and up undoes down: after up then down the pointer is
    where it was unless it stood at the first entry, and after down then
    up it is where it was unless it stood behind the log.  Pressing up
    [k] times from behind the log leaves the pointer [k] entries from the
    end, and at the first entry once [k] exceeds the length. *)
Theorem up_and_down_cancel (before after : string) (s : state) :
  browsing s -> pointerInRange s ->
  let p := previousCommandPointer s in
  let length := Z.of_nat (List.length (commandHistory s)) in
  let up := tap UpArrow before after in
  let down := tap DownArrow before after in
  (0 < p -> previousCommandPointer (exec down (exec up s)) = p)
  /\ (p < length -> previousCommandPointer (exec up (exec down s)) = p)
  /\ (forall k, previousCommandPointer (Nat.iter k (exec up) s) = Z.max 0 (p - Z.of_nat k))
  /\ (forall k, previousCommandPointer (Nat.iter k (exec down) s)
                = Z.min length (p + Z.of_nat k)).
Proof.
  intros Hb Hr p length up down.
  assert (Hup : forall st, browsing st ->
            browsing (exec up st) /\ commandHistory (exec up st) = commandHistory st
            /\ previousCommandPointer (exec up st)
               = if 0 <? previousCommandPointer st then previousCommandPointer st - 1
                 else previousCommandPointer st).
  { intros st Hst. unfold up. destruct (tap_up_run before after st Hst) as (added & -> & _).
    split; [apply browsing_frame; exact Hst|]. destruct st; split; reflexivity. }
  assert (Hdown : forall st, browsing st ->
            browsing (exec down st) /\ commandHistory (exec down st) = commandHistory st
            /\ previousCommandPointer (exec down st)
               = if previousCommandPointer st <? Z.of_nat (List.length (commandHistory st))
                 then previousCommandPointer st + 1 else previousCommandPointer st).
  { intros st Hst. unfold down. destruct (tap_down_run before after st Hst) as (added & -> & _).
    split; [apply browsing_frame; exact Hst|]. destruct st; split; reflexivity. }
  unfold pointerInRange in Hr. fold p length in Hr.
  destruct (Hup s Hb) as (HbU & HhU & HpU). destruct (Hdown s Hb) as (HbD & HhD & HpD).
  fold p in HpU, HpD. fold length in HpD.
  split; [|split; [|split]].
  - intros Hp. destruct (Hdown _ HbU) as (_ & _ & ->). rewrite HhU, HpU. fold length.
    destruct (Z.ltb_spec 0 p); [|lia]. destruct (Z.ltb_spec (p - 1) length); lia.
  - intros Hp. destruct (Hup _ HbD) as (_ & _ & ->). rewrite HpD.
    destruct (Z.ltb_spec p length); [|lia]. destruct (Z.ltb_spec 0 (p + 1)); lia.
  - intros k.
    enough (H : browsing (Nat.iter k (exec up) s)
                /\ previousCommandPointer (Nat.iter k (exec up) s) = Z.max 0 (p - Z.of_nat k))
      by apply H.
    induction k as [|k [IHb IHp]].
    + split; [exact Hb|]. cbn [Nat.iter nat_rect]. fold p. lia.
    + change (Nat.iter (S k) (exec up) s) with (exec up (Nat.iter k (exec up) s)).
      destruct (Hup _ IHb) as (Hb' & _ & ->). split; [exact Hb'|].
      rewrite IHp. destruct (Z.ltb_spec 0 (Z.max 0 (p - Z.of_nat k))); lia.
  - intros k.
    enough (H : browsing (Nat.iter k (exec down) s)
                /\ commandHistory (Nat.iter k (exec down) s) = commandHistory s
                /\ previousCommandPointer (Nat.iter k (exec down) s)
                   = Z.min length (p + Z.of_nat k))
      by apply H.
    induction k as [|k (IHb & IHh & IHp)].
    + split; [exact Hb|]. split; [reflexivity|]. cbn [Nat.iter nat_rect]. fold p. lia.
    + change (Nat.iter (S k) (exec down) s) with (exec down (Nat.iter k (exec down) s)).
      destruct (Hdown _ IHb) as (Hb' & Hh' & ->). split; [exact Hb'|].
      split; [congruence|]. rewrite IHh, IHp. fold length.
      destruct (Z.ltb_spec (Z.min length (p + Z.of_nat k)) length); lia.
Qed.

End Browsing.

Lemma arrow_keys_walk_the_history_witness :
  browsing historyABC /\ pointerInRange historyABC
  /\ previousCommandPointer
       (exec (tap (CH := Demo.handler) (ST := Demo.user) (DM := Demo.dom)
                (TT := Demo.textTools) (LB := Demo.labels) UpArrow "" "c") historyABC) = 2.
Proof.
  assert (Hb : browsing historyABC) by (repeat split).
  assert (Hr : pointerInRange historyABC) by (unfold pointerInRange; cbn; lia).
  split; [exact Hb|]. split; [exact Hr|].
  destruct (arrow_keys_walk_the_history (CH := Demo.handler) (ST := Demo.user) (DM := Demo.dom)
              (TT := Demo.textTools) (LB := Demo.labels) "" "c" historyABC Hb Hr)
    as [(_ & _ & _ & Hup & _) _].
  destruct Hup as [Hup _]; [cbn; lia|]. exact Hup.
Defined.

Lemma up_and_down_cancel_witness :
  browsing historyABC /\ pointerInRange historyABC
  /\ previousCommandPointer
       (Nat.iter 2 (exec (tap (CH := Demo.handler) (ST := Demo.user) (DM := Demo.dom)
                           (TT := Demo.textTools) (LB := Demo.labels) UpArrow "" "c"))
          historyABC) = 1.
Proof.
  assert (Hb : browsing historyABC) by (repeat split).
  assert (Hr : pointerInRange historyABC) by (unfold pointerInRange; cbn; lia).
  split; [exact Hb|]. split; [exact Hr|].
  destruct (up_and_down_cancel (CH := Demo.handler) (ST := Demo.user) (DM := Demo.dom)
              (TT := Demo.textTools) (LB := Demo.labels) "" "c" historyABC Hb Hr)
    as (_ & _ & Hup & _).
  exact (Hup 2%nat).
Defined.

(** ** The history log over all events *)

Section HistoryLog.

Context {CH : CommandHandler} {ST : Storage} {DM : DomManipulator}
        {TT : TextTools} {LB : Labels}.

Ltac history_leaf H :=
  split;
  [ first [ exists []; crunch; rewrite app_nil_r; reflexivity
          | eexists; crunch; reflexivity ]
  | intros H; crunch; unfold pointerInRange in *;
    cbn [previousCommandPointer commandHistory] in *;
    rewrite ?length_app; cbn [List.length]; lia ].

Ltac unchanged :=
  split; [exists []; rewrite app_nil_r; reflexivity | exact (fun H => H)].

Lemma enter_history inputText s :
  let s' := snd (enterKeyHandler inputText s) in
  (exists added, commandHistory s' = commandHistory s ++ added)
  /\ (pointerInRange s -> pointerInRange s').
Proof.
  destruct s as [cq cu sq sto pcp kp cp ap [c st fb kb hi] ch nw tm nid lg].
  cbv zeta. unfold enterKeyHandler, resolveCommand, notRun.
  cbv [bind gets modify fst snd]. state_fields.
  destruct kb; cbn [negb]; [history_leaf H|].
  destruct c as [active|].
  - destruct (_ || _)%bool; [history_leaf H|]. destruct hi; history_leaf H.
  - destruct (Nat.ltb 0 _); [|destruct (printUsedCommand false " "); history_leaf H].
    destruct (if negb getDisableCommands then _ else None) as [command|].
    + destruct (accessAllowed (accessLevel command)).
      * destruct (clearBeforeUse command), cu, cq as [|[c0 d0 [m0|]] cq],
          (printUsedCommand (clearAfterUse command) inputText); history_leaf H.
      * destruct (isSome getUser && (getMode =? "chat")%string && true).
        -- destruct (negb _); [|history_leaf H].
           destruct (getCommand "msg"); [|history_leaf H].
           destruct cu, cq as [|[c0 d0 [m0|]] cq]; history_leaf H.
        -- destruct (negb (isSome getUser)); history_leaf H.
    + destruct (isSome getUser && (getMode =? "chat")%string && true).
      * destruct (negb _); [|history_leaf H].
        destruct (getCommand "msg"); [|history_leaf H].
        destruct cu, cq as [|[c0 d0 [m0|]] cq]; history_leaf H.
      * destruct (negb (isSome getUser)); history_leaf H.
Qed.

Lemma callback_history cb s :
  commandHistory (exec (runCallback cb) s) = commandHistory s
  /\ previousCommandPointer (exec (runCallback cb) s) = previousCommandPointer s.
Proof.
  destruct s as [cq cu sq sto pcp kp cp ap h ch nw tm nid lg].
  destruct cb as [v|n m [|]|]; try (split; reflexivity).
  cbn [runCallback]. unfold consumeCommandQueue.
  destruct cq as [|[tc td [tmsg|]] cq]; split; reflexivity.
Qed.

(** Keys, commands, playbacks and timers keep the history.  None of these
    events removes or rewrites an entry of the history log, and none takes
    a pointer that is in range out of range: a playback request, a
    submitted line, a key going down or up, the answer of the server to a
    multi-step command (success, failure, step), a timer that fires, time
    that passes.  Entries are taken out of the log only where [feed.js]
    resets its local values, on logout, ban and disconnect, which is not
    one of these events. *)
Theorem keys_commands_and_timers_keep_the_history (s s' : state) :
  step s s' ->
  (exists added, commandHistory s' = commandHistory s ++ added)
  /\ (pointerInRange s -> pointerInRange s').
Proof.
  assert (Hsame : forall a b, commandHistory b = commandHistory a ->
            previousCommandPointer b = previousCommandPointer a ->
            (exists added, commandHistory b = commandHistory a ++ added)
            /\ (pointerInRange a -> pointerInRange b)).
  { intros a b Hh Hp. split; [exists []; now rewrite app_nil_r|].
    unfold pointerInRange. now rewrite Hh, Hp. }
  intros Hstep. destruct Hstep as [morseCode sil s | inputText s | k inputText s | k inputText s
                                   | params s | s | cmdParams s | s s' Hfire | d s Hd Hts].
  - apply Hsame; rewrite playMorse_run; reflexivity.
  - apply enter_history.
  - destruct s as [cq cu sq sto pcp kp cp ap h ch nw tm nid lg].
    unfold specialKeyPress. cbv [bind emit modify gets fst snd exec]. state_fields.
    destruct kp; cbn [negb]; [unchanged|].
    destruct k; try unchanged.
    + match goal with |- context [enterKeyHandler inputText ?st] =>
        pose proof (enter_history inputText st) as He;
        destruct (enterKeyHandler inputText st) as [[|] st'] end;
        cbn [fst snd] in *; destruct st'; exact He.
    + destruct h as [c st fb kb hi]. unfold upArrow.
      destruct cp, kb, c;
        cbv [bind emit modify gets when ret fst snd isNone isSome negb andb]; state_fields;
        try unchanged.
      destruct (Z.ltb_spec 0 pcp); state_fields; try unchanged.
      split; [exists []; now rewrite app_nil_r|].
      unfold pointerInRange. cbn [previousCommandPointer commandHistory]. lia.
    + destruct h as [c st fb kb hi]. unfold downArrow.
      destruct cp, kb, c;
        cbv [bind emit modify gets when ret fst snd isNone isSome negb andb]; state_fields;
        try unchanged.
      destruct (Z.ltb_spec pcp (Z.of_nat (List.length ch) - 1));
        [|destruct (Z.eqb_spec pcp (Z.of_nat (List.length ch) - 1))]; state_fields;
        try unchanged;
        (split; [exists []; now rewrite app_nil_r|]);
        unfold pointerInRange; cbn [previousCommandPointer commandHistory]; lia.
  - apply Hsame; [apply keyReleased_history|].
    destruct s as [cq cu sq sto pcp kp cp ap h ch nw tm nid lg].
    unfold keyReleased. destruct k; destruct (Nat.eqb (String.length inputText) 0); reflexivity.
  - destruct s as [cq cu sq sto pcp kp cp ap h ch nw tm nid lg].
    destruct params as [[] [] d]; apply Hsame; reflexivity.
  - destruct s as [cq cu sq sto pcp kp cp ap [[c|] st fb kb hi] ch nw tm nid lg];
      apply Hsame; reflexivity.
  - destruct s as [cq cu sq sto pcp kp cp ap h ch nw tm nid lg]. apply Hsame; reflexivity.
  - unfold fireTimer in Hfire. destruct (nextTimer (timers s)) as [[u rest]|]; [|discriminate].
    inversion Hfire; subst s'; clear Hfire.
    destruct (callback_history (timerCb u) (set_now (Z.max (now s) (fireAt u)) (set_timers rest s)))
      as [Hh Hp].
    apply Hsame; [rewrite Hh | rewrite Hp]; destruct s; reflexivity.
  - destruct s. apply Hsame; reflexivity.
Qed.

End HistoryLog.

Lemma keys_commands_and_timers_keep_the_history_witness :
  pointerInRange
    (exec (enterKeyHandler (CH := Demo.handler) (ST := Demo.user) (DM := Demo.dom)
             (TT := Demo.textTools) (LB := Demo.labels) "help") historyABC).
Proof.
  apply (keys_commands_and_timers_keep_the_history (CH := Demo.handler) (ST := Demo.user) (DM := Demo.dom)
           (TT := Demo.textTools) (LB := Demo.labels) historyABC).
  - apply StepEnter.
  - unfold pointerInRange. cbn. lia.
Defined.

(** ** The morse scheduler among the other events *)

Section SoundFrame.

Context {CH : CommandHandler} {ST : Storage} {DM : DomManipulator}
        {TT : TextTools} {LB : Labels}.

Ltac sound_leaf :=
  crunch; unfold soundView, soundTimers, gains, events; state_fields;
  rewrite ?filter_app, ?map_app, ?flat_map_app;
  cbn [map flat_map filter app snd negb isConsume timerCb];
  rewrite ?app_nil_r; reflexivity.

Lemma enter_soundView inputText s :
  soundView (snd (enterKeyHandler inputText s)) = soundView s.
Proof.
  destruct s as [cq cu sq sto pcp kp cp ap [c st fb kb hi] ch nw tm nid lg].
  unfold enterKeyHandler, resolveCommand, notRun.
  cbv [bind gets modify fst snd]. state_fields.
  destruct kb; cbn [negb]; [sound_leaf|].
  destruct c as [active|].
  - destruct (_ || _)%bool; [sound_leaf|]. destruct hi; sound_leaf.
  - destruct (Nat.ltb 0 _); [|destruct (printUsedCommand false " "); sound_leaf].
    destruct (if negb getDisableCommands then _ else None) as [command|].
    + destruct (accessAllowed (accessLevel command)).
      * destruct (clearBeforeUse command), cu, cq as [|[c0 d0 [m0|]] cq],
          (printUsedCommand (clearAfterUse command) inputText); sound_leaf.
      * destruct (isSome getUser && (getMode =? "chat")%string && true).
        -- destruct (negb _); [|sound_leaf].
           destruct (getCommand "msg"); [|sound_leaf].
           destruct cu, cq as [|[c0 d0 [m0|]] cq]; sound_leaf.
        -- destruct (negb (isSome getUser)); sound_leaf.
    + destruct (isSome getUser && (getMode =? "chat")%string && true).
      * destruct (negb _); [|sound_leaf].
        destruct (getCommand "msg"); [|sound_leaf].
        destruct cu, cq as [|[c0 d0 [m0|]] cq]; sound_leaf.
      * destruct (negb (isSome getUser)); sound_leaf.
Qed.

Lemma keyDown_soundView k inputText s :
  soundView (exec (specialKeyPress k inputText) s) = soundView s.
Proof.
  destruct s as [cq cu sq sto pcp kp cp ap h ch nw tm nid lg].
  unfold specialKeyPress. cbv [bind emit modify gets fst snd exec]. state_fields.
  destruct kp; cbn [negb]; [sound_leaf|].
  destruct k; try sound_leaf.
  - match goal with |- context [enterKeyHandler inputText ?st] =>
      pose proof (enter_soundView inputText st) as He;
      destruct (enterKeyHandler inputText st) as [[|] st'] end;
      cbn [fst snd] in *;
      (transitivity (soundView st'); [destruct st'; sound_leaf | rewrite He; sound_leaf]).
  - destruct h as [c st fb kb hi]. unfold upArrow.
    destruct cp, kb, c;
      cbv [bind emit modify gets when ret fst snd isNone isSome negb andb]; state_fields;
      try sound_leaf.
    destruct (0 <? pcp); sound_leaf.
  - destruct h as [c st fb kb hi]. unfold downArrow.
    destruct cp, kb, c;
      cbv [bind emit modify gets when ret fst snd isNone isSome negb andb]; state_fields;
      try sound_leaf.
    destruct (pcp <? Z.of_nat (List.length ch) - 1);
      [|destruct (pcp =? Z.of_nat (List.length ch) - 1)]; sound_leaf.
Qed.

Lemma keyUp_soundView k inputText s :
  soundView (exec (keyReleased k inputText) s) = soundView s.
Proof.
  destruct s as [cq cu sq sto pcp kp cp ap h ch nw tm nid lg].
  unfold keyReleased. destruct k; destruct (Nat.eqb (String.length inputText) 0); sound_leaf.
Qed.

Lemma session_soundView s :
  (forall params, soundView (exec (onCommandSuccess params) s) = soundView s)
  /\ soundView (exec onCommandFail s) = soundView s
  /\ (forall cmdParams, soundView (exec (onCommandStep cmdParams) s) = soundView s).
Proof.
  destruct s as [cq cu sq sto pcp kp cp ap [[c|] st fb kb hi] ch nw tm nid lg];
    (split; [intros [[] [] d]|split; [|intros d]]);
    unfold onCommandSuccess, onCommandFail, onCommandStep; cbn [noStepCall freezeStep newData negb];
    sound_leaf.
Qed.

Lemma consume_soundView s :
  soundView (exec consumeCommandQueue s) = soundView s.
Proof.
  destruct s as [cq cu sq sto pcp kp cp ap h ch nw tm nid lg].
  destruct cq as [|[tc td [tmsg|]] cq]; sound_leaf.
Qed.

Lemma soundTimers_remove l1 u l2 :
  isConsume u = true -> soundTimers (l1 ++ u :: l2) = soundTimers (l1 ++ l2).
Proof.
  intros Hu. unfold soundTimers. rewrite !filter_app. cbn [filter]. now rewrite Hu.
Qed.

(** Nothing but a playback request and the timers that playbacks register
    reaches the morse scheduler: every other event leaves the sound queue,
    the cursor, the scheduler's pending timers and the gain settings as
    they are. *)
Theorem playback_is_undisturbed (s s' : state) :
  step s s' ->
  soundView s' = soundView s
  \/ (exists morseCode silent, s' = exec (playMorse morseCode silent) s)
  \/ (exists u rest,
        nextTimer (timers s) = Some (u, rest) /\ isConsume u = false
        /\ s' = exec (runCallback (timerCb u))
                  (set_now (Z.max (now s) (fireAt u)) (set_timers rest s))).
Proof.
  intros Hstep. destruct Hstep as [morseCode sil s | inputText s | k inputText s | k inputText s
                                   | params s | s | cmdParams s | s s' Hfire | d s Hd Hts].
  - right; left. now exists morseCode, sil.
  - left. apply enter_soundView.
  - left. apply keyDown_soundView.
  - left. apply keyUp_soundView.
  - left. apply session_soundView.
  - left. apply session_soundView.
  - left. apply session_soundView.
  - unfold fireTimer in Hfire.
    destruct (nextTimer (timers s)) as [[u rest]|] eqn:Hnext; [|discriminate].
    inversion Hfire; subst s'; clear Hfire.
    destruct (isConsume u) eqn:Hu.
    + left. rewrite (isConsume_cb u Hu). cbn [runCallback]. rewrite consume_soundView.
      destruct (nextTimer_spec _ _ _ Hnext) as (l1 & l2 & Hts & Hrest & _).
      destruct s as [cq cu sq sto pcp kp cp ap h ch nw tm nid lg].
      cbn [timers] in Hts. subst tm rest. unfold soundView. state_fields.
      now rewrite (soundTimers_remove l1 u l2 Hu).
    + right; right. exists u, rest. repeat split. exact Hu.
  - left. destruct s; reflexivity.
Qed.

End SoundFrame.

Lemma playback_is_undisturbed_witness :
  soundView
    (exec (enterKeyHandler (CH := Demo.handler) (ST := Demo.user) (DM := Demo.dom)
             (TT := Demo.textTools) (LB := Demo.labels) "help")
       (exec (playMorse ".-" true) initialState))
  = soundView (exec (playMorse ".-" true) initialState).
Proof.
  destruct (playback_is_undisturbed (CH := Demo.handler) (ST := Demo.user) (DM := Demo.dom)
              (TT := Demo.textTools) (LB := Demo.labels)
              (exec (playMorse ".-" true) initialState)
              (exec (enterKeyHandler (CH := Demo.handler) (ST := Demo.user) (DM := Demo.dom)
                       (TT := Demo.textTools) (LB := Demo.labels) "help")
                 (exec (playMorse ".-" true) initialState))
              (StepEnter "help" _)) as [H | [H | H]].
  - exact H.
  - vm_compute. reflexivity.
  - vm_compute. reflexivity.
Defined.

(** ** The sound queue *)

Lemma pendingRemoval_app l1 l2 :
  pendingRemoval (l1 ++ l2) = pendingRemoval l1 + pendingRemoval l2.
Proof.
  induction l1 as [|t r IH]; cbn [app pendingRemoval fold_right]; [reflexivity|].
  fold (pendingRemoval (r ++ l2)). fold (pendingRemoval r). lia.
Qed.

Lemma pendingRemoval_nonneg ts : 0 <= pendingRemoval ts.
Proof.
  induction ts as [|t r IH]; cbn [pendingRemoval fold_right]; [lia|].
  fold (pendingRemoval r). unfold removal. destruct (timerCb t); lia.
Qed.

Lemma pendingRemoval_no_cleanup ts :
  existsb isCleanup ts = false -> pendingRemoval ts = 0.
Proof.
  induction ts as [|t r IH]; [reflexivity|].
  cbn [existsb pendingRemoval fold_right]. fold (pendingRemoval r).
  unfold isCleanup, removal. destruct (timerCb t); cbn [orb]; try discriminate;
    intros H; rewrite (IH H); reflexivity.
Qed.

Lemma pendingRemoval_soundTimers ts :
  pendingRemoval (soundTimers ts) = pendingRemoval ts.
Proof.
  induction ts as [|t r IH]; [reflexivity|].
  cbn [soundTimers filter pendingRemoval fold_right].
  fold (soundTimers r). fold (pendingRemoval r).
  unfold isConsume, removal at 2. destruct (timerCb t) eqn:Ht; cbn [negb];
    cbn [pendingRemoval fold_right]; fold (pendingRemoval (soundTimers r));
    unfold removal; rewrite ?Ht; lia.
Qed.

Lemma covered_view s s' :
  soundView s' = soundView s -> soundQueueCovered s -> soundQueueCovered s'.
Proof.
  unfold soundView, soundQueueCovered. intros H.
  rewrite <- (pendingRemoval_soundTimers (timers s)), <- (pendingRemoval_soundTimers (timers s')).
  inversion H as [[Hq Hc Ht Hg]]. now rewrite Hq, Ht.
Qed.

Section SoundQueue.

Context {CH : CommandHandler} {ST : Storage} {DM : DomManipulator}
        {TT : TextTools} {LB : Labels}.

Lemma step_covered s s' : step s s' -> soundQueueCovered s -> soundQueueCovered s'.
Proof.
  intros Hstep. destruct Hstep as [morseCode sil s | inputText s | k inputText s | k inputText s
                                   | params s | s | cmdParams s | s s' Hfire | d s Hd Hts].
  - unfold soundQueueCovered. rewrite playMorse_run. cbv zeta. cbn [soundQueue timers].
    rewrite length_app, length_map, length_gainTimers, length_timeline, !pendingRemoval_app.
    rewrite (pendingRemoval_no_cleanup (gainTimers _ _ _)) by apply gainTimers_no_cleanup.
    cbn [pendingRemoval fold_right]. unfold removal, cleanupTimer, jsLength. cbn [timerCb].
    pose proof (pulseCount_le (chars morseCode)) as Hle. rewrite length_chars in Hle. lia.
  - apply covered_view, enter_soundView.
  - apply covered_view, keyDown_soundView.
  - apply covered_view, keyUp_soundView.
  - apply covered_view, session_soundView.
  - apply covered_view, session_soundView.
  - apply covered_view, session_soundView.
  - unfold fireTimer in Hfire.
    destruct (nextTimer (timers s)) as [[u rest]|] eqn:Hnext; [|discriminate].
    inversion Hfire; subst s'; clear Hfire.
    destruct (nextTimer_spec _ _ _ Hnext) as (l1 & l2 & Hts & Hrest & _).
    unfold soundQueueCovered. rewrite Hts, pendingRemoval_app.
    cbn [pendingRemoval fold_right]. fold (pendingRemoval l2).
    assert (Hr : pendingRemoval rest = pendingRemoval l1 + pendingRemoval l2)
      by (rewrite Hrest; apply pendingRemoval_app).
    set (s0 := set_now (Z.max (now s) (fireAt u)) (set_timers rest s)).
    assert (Hq0 : soundQueue s0 = soundQueue s) by (destruct s; reflexivity).
    assert (Ht0 : timers s0 = rest) by (destruct s; reflexivity).
    unfold removal. destruct (timerCb u) as [v|n m sil|] eqn:Hu.
    + assert (Hq1 : soundQueue (exec (runCallback (CbSetGain v)) s0) = soundQueue s)
        by (rewrite <- Hq0; destruct s0; reflexivity).
      assert (Ht1 : timers (exec (runCallback (CbSetGain v)) s0) = rest)
        by (rewrite <- Ht0; destruct s0; reflexivity).
      rewrite Hq1, Ht1. lia.
    + assert (Hq1 : soundQueue (exec (runCallback (CbFinishSoundQueue n m sil)) s0)
                    = splice0 n (soundQueue s))
        by (rewrite <- Hq0; destruct s0, sil; reflexivity).
      assert (Ht1 : timers (exec (runCallback (CbFinishSoundQueue n m sil)) s0) = rest)
        by (rewrite <- Ht0; destruct s0, sil; reflexivity).
      rewrite Hq1, Ht1. unfold splice0. rewrite length_skipn.
      pose proof (pendingRemoval_nonneg rest). lia.
    + intros Hc. apply (covered_view s0); [apply consume_soundView|].
      unfold soundQueueCovered. rewrite Hq0, Ht0. lia.
  - destruct s. exact (fun H => H).
Qed.

Lemma reachable_covered s : reachable s -> soundQueueCovered s.
Proof.
  induction 1 as [s (_ & _ & Hq & _ & Ht) | s s' _ IH Hstep].
  - unfold soundQueueCovered. rewrite Hq, Ht. cbn. lia.
  - eapply step_covered; eassumption.
Qed.

(** The sound queue does not leak: in every state the terminal can reach,
    each handle in the queue is accounted for by a cleanup that is still
    pending, so once no cleanup is pending the queue is empty and the next
    playback starts at cursor 0. *)
Theorem sound_queue_never_leaks (s : state) :
  reachable s ->
  soundQueueCovered s
  /\ (existsb isCleanup (timers s) = false -> soundQueue s = [] /\ startCursor s = 0).
Proof.
  intros Hreach. pose proof (reachable_covered s Hreach) as Hc.
  split; [exact Hc|]. intros Hnone.
  unfold soundQueueCovered in Hc. rewrite (pendingRemoval_no_cleanup _ Hnone) in Hc.
  unfold startCursor. destruct (soundQueue s); [split; reflexivity|cbn [List.length] in Hc; lia].
Qed.

End SoundQueue.

Lemma sound_queue_never_leaks_witness :
  soundQueueCovered
    (runTimers (CH := Demo.handler) 3 (exec (playMorse ".#" true) initialState)).
Proof.
  apply (sound_queue_never_leaks (CH := Demo.handler) (ST := Demo.user) (DM := Demo.dom)
           (TT := Demo.textTools) (LB := Demo.labels)).
  apply runTimers_reachable.
  apply (ReachStep initialState); [apply ReachLoaded; repeat split|apply StepPlayMorse].
Defined.

(** ** The tone *)

Lemma pending_app f l1 l2 : pending f (l1 ++ l2) = (pending f l1 + pending f l2)%nat.
Proof. unfold pending. now rewrite filter_app, length_app. Qed.

Lemma pending_split f l1 u l2 :
  pending f (l1 ++ u :: l2) = (pending f (l1 ++ l2) + if f u then 1 else 0)%nat.
Proof.
  rewrite !pending_app. unfold pending. cbn [filter].
  destruct (f u); cbn [List.length]; lia.
Qed.

Lemma pending_le f g l :
  (forall x, In x l -> f x = true -> g x = true) -> (pending f l <= pending g l)%nat.
Proof.
  unfold pending. induction l as [|x r IH]; intros H; [cbn; lia|].
  cbn [filter]. assert (Hr : (List.length (filter f r) <= List.length (filter g r))%nat).
  { apply IH. intros y Hy. apply H. now right. }
  destruct (f x) eqn:Hf.
  - rewrite (H x (or_introl eq_refl) Hf). cbn [List.length]. lia.
  - destruct (g x); cbn [List.length]; lia.
Qed.

Lemma pending_ext f g l :
  (forall x, In x l -> f x = g x) -> pending f l = pending g l.
Proof. intros H. unfold pending. now rewrite (filter_ext_in f g l H). Qed.

Lemma pending_soundTimers f ts :
  (forall t, isConsume t = true -> f t = false) ->
  pending f (soundTimers ts) = pending f ts.
Proof.
  intros H. unfold pending, soundTimers.
  induction ts as [|t r IH]; [reflexivity|]. cbn [filter].
  destruct (isConsume t) eqn:Ht; cbn [negb filter].
  - now rewrite (H t Ht).
  - destruct (f t); cbn [List.length]; now rewrite IH.
Qed.

Lemma consume_not_gain t : isConsume t = true -> isOn t = false /\ isOff t = false.
Proof. unfold isConsume, isOn, isOff. destruct (timerCb t); try discriminate. now split. Qed.

Lemma toneGuarded_view s s' :
  soundView s' = soundView s -> toneGuarded s -> toneGuarded s'.
Proof.
  unfold soundView. intros H. inversion H as [[Hq Hc Ht Hg]].
  assert (Hp : forall f, (forall t, isConsume t = true -> f t = false) ->
                 pending f (timers s') = pending f (timers s)).
  { intros f Hf. rewrite <- (pending_soundTimers f (timers s') Hf), Ht.
    now apply pending_soundTimers. }
  assert (Hon : forall t, isConsume t = true -> isOn t = false)
    by (intros t Hc'; apply (consume_not_gain t Hc')).
  assert (Hoff : forall t, isConsume t = true -> isOff t = false)
    by (intros t Hc'; apply (consume_not_gain t Hc')).
  intros [Hpair Hgain]. split.
  - intros T. unfold onsFrom, offsAfter. rewrite !Hp; [apply Hpair| |];
      intros t Hc'; [rewrite (Hoff t Hc')|rewrite (Hon t Hc')]; reflexivity.
  - unfold gainNow. rewrite Hg, (Hp isOn Hon), (Hp isOff Hoff). exact Hgain.
Qed.

(** The timers of one playback are paired and switch on as often as off. *)
Lemma timeline_paired codes : forall cursor id t T,
  0 <= cursor ->
  (onsFrom T (gainTimers id t (timeline cursor codes))
   <= offsAfter T (gainTimers id t (timeline cursor codes)))%nat
  /\ pending isOn (gainTimers id t (timeline cursor codes))
     = pending isOff (gainTimers id t (timeline cursor codes)).
Proof.
  unfold onsFrom, offsAfter.
  induction codes as [|code rest IH]; intros cursor id t T Hc; [split; reflexivity|].
  cbn [timeline]. rewrite gainTimers_app, !pending_app.
  pose proof (symbolDuration_pos code) as Hd.
  destruct (IH (cursor + symbolDuration code)
              (id + Z.of_nat (List.length (if isPulse code
                                           then [(cursor, 1); (cursor + symbolDuration code, 0)]
                                           else [])))
              t T ltac:(lia)) as [IH1 IH2].
  destruct (isPulse code); cbn [List.length] in IH1, IH2 |- *.
  - unfold pending at 1 3 5 7. cbn [gainTimers filter isOn isOff timerCb fireAt Z.eqb Pos.eqb andb].
    split; [|cbn [List.length]; lia].
    destruct (Z.leb_spec T (t + Z.max 0 cursor)),
             (Z.ltb_spec T (t + Z.max 0 (cursor + symbolDuration code)));
      cbn [List.length]; lia.
  - cbn [gainTimers]. unfold pending at 1 3 5 7. cbn [filter List.length]. split; lia.
Qed.

Lemma gainNow_set l t v : gainNow (l ++ [(t, SetGain v)]) = v.
Proof.
  unfold gainNow, gains, events. rewrite map_app, flat_map_app. cbn [map flat_map snd app].
  apply last_last.
Qed.

Section Tone.

Context {CH : CommandHandler} {ST : Storage} {DM : DomManipulator}
        {TT : TextTools} {LB : Labels}.

Lemma playMorse_toneGuarded morseCode silent s :
  0 <= soundTimeout s -> toneGuarded s -> toneGuarded (exec (playMorse morseCode silent) s).
Proof.
  intros Hpos [Hpair Hgain]. rewrite playMorse_run. cbv zeta.
  assert (Hstart : 0 <= startCursor s) by (unfold startCursor; destruct (soundQueue s); lia).
  unfold toneGuarded. cbn [timers log]. split.
  - intros T. unfold onsFrom, offsAfter. rewrite !pending_app.
    destruct (timeline_paired (chars morseCode) (startCursor s) (nextTimerId s) (now s) T Hstart)
      as [Hle _].
    specialize (Hpair T). unfold onsFrom, offsAfter in Hpair, Hle. unfold pending at 3 6. cbn [filter isOn isOff cleanupTimer timerCb andb List.length].
    lia.
  - intros Hg. specialize (Hgain Hg). rewrite !pending_app.
    destruct (timeline_paired (chars morseCode) (startCursor s) (nextTimerId s) (now s) 0 Hstart)
      as [_ Heq].
    unfold pending at 3 6. cbn [filter isOn isOff cleanupTimer timerCb List.length]. lia.
Qed.

Lemma fire_toneGuarded s s' : fireTimer s = Some s' -> toneGuarded s -> toneGuarded s'.
Proof.
  unfold fireTimer. destruct (nextTimer (timers s)) as [[u rest]|] eqn:Hnext; [|discriminate].
  intros Hfire. inversion Hfire; subst s'; clear Hfire.
  destruct (nextTimer_spec _ _ _ Hnext) as (l1 & l2 & Hts & Hrest & Hmin).
  set (s0 := set_now (Z.max (now s) (fireAt u)) (set_timers rest s)).
  assert (Ht0 : timers s0 = rest) by (destruct s; reflexivity).
  assert (Hl0 : log s0 = log s) by (destruct s; reflexivity).
  assert (Hnow0 : exists t0, now s0 = t0) by (eexists; reflexivity).
  intros [Hpair Hgain]. unfold tonePaired, onsFrom, offsAfter in Hpair.
  assert (Hsplit : forall f, pending f (timers s) = (pending f rest + if f u then 1 else 0)%nat).
  { intros f. rewrite Hts, Hrest. apply pending_split. }
  destruct (timerCb u) as [v|n m sil|] eqn:Hu.
  - assert (Ht1 : timers (exec (runCallback (CbSetGain v)) s0) = rest)
      by (rewrite <- Ht0; destruct s0; reflexivity).
    assert (Hl1 : gainNow (log (exec (runCallback (CbSetGain v)) s0)) = v)
      by (destruct s0; apply gainNow_set).
    unfold toneGuarded. rewrite Ht1, Hl1.
    assert (Hon : isOn u = (v =? 1)) by (unfold isOn; now rewrite Hu).
    assert (Hoff : isOff u = (v =? 0)) by (unfold isOff; now rewrite Hu).
    split.
    + intros T. unfold onsFrom, offsAfter. pose proof (Hpair T) as HT. rewrite !Hsplit in HT. rewrite Hon, Hoff in HT.
      destruct (Z.eqb_spec v 0) as [->|Hv0]; cbn [andb Z.eqb Pos.eqb] in HT.
      * destruct (Z.ltb_spec T (fireAt u)) as [Hlt|Hge]; [|lia].
        (* the rest is counted from the time [u] was due *)
        pose proof (Hpair (fireAt u)) as Hm. rewrite !Hsplit in Hm. rewrite Hon, Hoff in Hm.
        rewrite Z.ltb_irrefl in Hm. cbn [andb Z.eqb Pos.eqb] in Hm.
        assert (H1 : onsFrom T rest = onsFrom (fireAt u) rest).
        { unfold onsFrom. apply pending_ext. intros x Hx.
          assert (Hin : In x (timers s)).
          { rewrite Hts. rewrite Hrest in Hx. apply in_app_or in Hx. apply in_or_app.
            destruct Hx; [now left|right; now right]. }
          rewrite Forall_forall in Hmin. specialize (Hmin x Hin). cbn beta in Hmin.
          destruct (Z.leb_spec T (fireAt x)), (Z.leb_spec (fireAt u) (fireAt x)); try lia;
            reflexivity. }
        assert (H2 : (offsAfter (fireAt u) rest <= offsAfter T rest)%nat).
        { unfold offsAfter. apply pending_le. intros x _ Hx. apply andb_true_iff in Hx. destruct Hx as [Hx1 Hx2].
          rewrite Hx1. cbn [andb]. apply Z.ltb_lt in Hx2. apply Z.ltb_lt. lia. }
        unfold onsFrom, offsAfter in H1, H2. lia.
      * destruct (v =? 1); cbn [andb] in HT; [destruct (T <=? fireAt u)|]; lia.
    + intros ->. cbn [Z.eqb Pos.eqb] in Hon, Hoff.
      pose proof (Hpair (fireAt u)) as Hm. rewrite !Hsplit in Hm. rewrite Hon, Hoff in Hm.
      rewrite Z.leb_refl in Hm. cbn [andb] in Hm.
      assert (H1 : (offsAfter (fireAt u) rest <= pending isOff rest)%nat).
      { unfold offsAfter. apply pending_le. intros x _ Hx. apply andb_true_iff in Hx. apply Hx. }
      assert (H2 : onsFrom (fireAt u) rest = pending isOn rest).
      { unfold onsFrom. apply pending_ext. intros x Hx.
        assert (Hin : In x (timers s)).
        { rewrite Hts. rewrite Hrest in Hx. apply in_app_or in Hx. apply in_or_app.
          destruct Hx; [now left|right; now right]. }
        rewrite Forall_forall in Hmin. specialize (Hmin x Hin). cbn beta in Hmin.
        destruct (Z.leb_spec (fireAt u) (fireAt x)); [|lia]. now rewrite andb_true_r. }
      unfold onsFrom, offsAfter in H1, H2. lia.
  - assert (Hon : isOn u = false) by (unfold isOn; now rewrite Hu).
    assert (Hoff : isOff u = false) by (unfold isOff; now rewrite Hu).
    assert (Ht1 : timers (exec (runCallback (CbFinishSoundQueue n m sil)) s0) = rest)
      by (rewrite <- Ht0; destruct s0, sil; reflexivity).
    assert (Hl1 : gainNow (log (exec (runCallback (CbFinishSoundQueue n m sil)) s0))
                  = gainNow (log s)).
    { rewrite <- Hl0. destruct s0, sil; [reflexivity|].
      cbn. unfold gainNow, gains, events. rewrite map_app, flat_map_app. cbn.
      now rewrite app_nil_r. }
    unfold toneGuarded. rewrite Ht1, Hl1. split.
    + intros T. unfold onsFrom, offsAfter. pose proof (Hpair T) as HT. rewrite !Hsplit in HT.
      rewrite Hon, Hoff in HT. cbn [andb] in HT. lia.
    + intros Hg. specialize (Hgain Hg). rewrite !Hsplit in Hgain.
      rewrite Hon, Hoff in Hgain. lia.
  - assert (Hon : isOn u = false) by (unfold isOn; now rewrite Hu).
    assert (Hoff : isOff u = false) by (unfold isOff; now rewrite Hu).
    apply (toneGuarded_view s0); [apply consume_soundView|].
    unfold toneGuarded. rewrite Ht0, Hl0. split.
    + intros T. unfold onsFrom, offsAfter. pose proof (Hpair T) as HT. rewrite !Hsplit in HT.
      rewrite Hon, Hoff in HT. cbn [andb] in HT. lia.
    + intros Hg. specialize (Hgain Hg). rewrite !Hsplit in Hgain.
      rewrite Hon, Hoff in Hgain. lia.
Qed.

Lemma steps_reachable s0 s : loaded s0 -> steps s0 s -> reachable s.
Proof.
  intros H0 Hs. induction Hs as [|s s' _ IH Hstep]; [now apply ReachLoaded|].
  eapply ReachStep; eassumption.
Qed.

Lemma steps_toneGuarded s0 s :
  loaded s0 -> gainNow (log s0) <> 1 -> steps s0 s -> toneGuarded s.
Proof.
  intros H0 Hg0 Hs.
  induction Hs as [|s s' Hs IH Hstep].
  - destruct H0 as (_ & _ & _ & _ & Ht). unfold toneGuarded. rewrite Ht. split.
    + intros T. reflexivity.
    + intros Hg. contradiction.
  - pose proof (reachable_wellFormed s (steps_reachable s0 s H0 Hs)) as [Hpos _].
    destruct Hstep as [morseCode sil s | inputText s | k inputText s | k inputText s
                       | params s | s | cmdParams s | s s' Hfire | d s Hd Hts].
    + now apply playMorse_toneGuarded.
    + apply (toneGuarded_view s); [apply enter_soundView|exact IH].
    + apply (toneGuarded_view s); [apply keyDown_soundView|exact IH].
    + apply (toneGuarded_view s); [apply keyUp_soundView|exact IH].
    + apply (toneGuarded_view s); [apply session_soundView|exact IH].
    + apply (toneGuarded_view s); [apply session_soundView|exact IH].
    + apply (toneGuarded_view s); [apply session_soundView|exact IH].
    + now apply (fire_toneGuarded s).
    + destruct s; exact IH.
Qed.

(** The tone cannot stay on: from the loaded page with the gain not at 1,
    whatever happens, in every state where the oscillator gain is 1 a
    timer that sets it back to 0 is pending, however playbacks overlap. *)
Theorem tone_is_switched_off (s0 s : state) :
  loaded s0 -> gainNow (log s0) <> 1 -> steps s0 s ->
  toneGuarded s
  /\ (gainNow (log s) = 1 ->
      exists off, In off (timers s) /\ timerCb off = CbSetGain 0).
Proof.
  intros H0 Hg0 Hs. pose proof (steps_toneGuarded s0 s H0 Hg0 Hs) as Hguard.
  split; [exact Hguard|]. intros Hg. destruct Hguard as [_ Hlt]. specialize (Hlt Hg).
  unfold pending in Hlt.
  destruct (filter isOff (timers s)) as [|off r] eqn:Hoffs; [cbn in Hlt; lia|].
  assert (Hin : In off (filter isOff (timers s))) by (rewrite Hoffs; now left).
  apply filter_In in Hin. destruct Hin as [Hin Hoff]. exists off. split; [exact Hin|].
  unfold isOff in Hoff. destruct (timerCb off) as [v| |]; try discriminate.
  apply Z.eqb_eq in Hoff. now subst v.
Qed.

End Tone.

Lemma tone_is_switched_off_witness :
  exists off,
    In off (timers (runTimers (CH := Demo.handler) 1 (exec (playMorse "-." true) initialState)))
    /\ timerCb off = CbSetGain 0.
Proof.
  assert (H0 : loaded initialState) by (repeat split).
  assert (Hg : gainNow (log initialState) <> 1) by (cbn; lia).
  assert (Hs : steps (CH := Demo.handler) (ST := Demo.user) (DM := Demo.dom)
                 (TT := Demo.textTools) (LB := Demo.labels) initialState
                 (runTimers (CH := Demo.handler) 1 (exec (playMorse "-." true) initialState))).
  { eapply StepsStep; [eapply StepsStep; [apply StepsRefl|apply (StepPlayMorse "-." true)]|].
    apply StepTimer. vm_compute. reflexivity. }
  apply (tone_is_switched_off (CH := Demo.handler) (ST := Demo.user) (DM := Demo.dom)
           (TT := Demo.textTools) (LB := Demo.labels) initialState _ H0 Hg Hs).
  vm_compute. reflexivity.
Defined.

(** ** Messages from the server *)

Lemma substring_prefix pat : forall s,
  substring 0 (String.length pat) s = pat -> exists rest, s = (pat ++ rest)%string.
Proof.
  induction pat as [|c p IH]; intros s H; [now exists s|].
  destruct s as [|c' s']; cbn in H; [discriminate|].
  inversion H as [[Hc Hp]]. destruct (IH s' Hp) as [rest Hrest].
  exists rest. cbn. rewrite Hp. now rewrite Hrest at 1.
Qed.

Lemma substring_found pat : forall i s,
  substring i (String.length pat) s = pat ->
  exists rest, s = (substring 0 i s ++ pat ++ rest)%string.
Proof.
  induction i as [|i IH]; intros s H.
  - destruct (substring_prefix pat s H) as [rest Hrest]. exists rest.
    destruct s; exact Hrest.
  - destruct s as [|c s'].
    + cbn in H. subst pat. now exists EmptyString.
    + cbn in H. destruct (IH s' H) as [rest Hrest]. exists rest. cbn. now rewrite <- Hrest.
Qed.

Lemma length_substring0 : forall i s,
  String.length (substring 0 i s) = Nat.min i (String.length s).
Proof.
  induction i as [|i IH]; intros s.
  - destruct s; reflexivity.
  - destruct s as [|a s]; [reflexivity|]. cbn. now rewrite IH.
Qed.

Lemma substring_beyond : forall i s n,
  (String.length s <= i)%nat -> substring i n s = EmptyString.
Proof.
  induction i as [|i IH]; intros s n H.
  - destruct s; [destruct n; reflexivity|cbn in H; lia].
  - destruct s as [|a s]; [reflexivity|]. cbn in *. apply IH. lia.
Qed.

Section MessageLabels.

Context {ST : Storage}.

(** A whisper is labelled with the other party.  For a message of no
    special class in a room whose name contains [-whisper]: sent by the
    user, its room becomes the part of the name before the first
    [-whisper]; sent by anyone else, it becomes [whisper].  The sender and
    the other properties stay. *)
Theorem whisper_is_labelled (message : chatMessage) (room : string) (whisperIndex : nat) :
  roomName message = Some room ->
  String.index 0 "-whisper" room = Some whisperIndex ->
  anonymous message = false ->
  let shown := hideMessageProperties message in
  userName shown = userName message
  /\ extraClass shown = extraClass message
  /\ skipTime shown = skipTime message
  /\ (sameString (userName message) getUser = true ->
      exists label rest,
        roomName shown = Some label
        /\ room = (label ++ "-whisper" ++ rest)%string
        /\ String.length label = whisperIndex)
  /\ (sameString (userName message) getUser = false -> roomName shown = Some "whisper").
Proof.
  intros Hroom Hindex Hclass shown. subst shown.
  unfold anonymous in Hclass. apply orb_false_iff in Hclass. destruct Hclass as [Himp Hbro].
  unfold hideMessageProperties. rewrite Hroom, Himp, Hbro.
  destruct room as [|c r]; [discriminate|]. rewrite Hindex.
  destruct (sameString (userName message) getUser) eqn:Hsame;
    (split; [reflexivity|]); (split; [reflexivity|]); (split; [reflexivity|]);
    (split; [|intros; try discriminate; reflexivity]); [|discriminate].
  intros _.
  pose proof (index_correct1 _ _ _ _ Hindex) as Hsub.
  destruct (substring_found "-whisper" whisperIndex (String c r) Hsub) as [rest Hrest].
  exists (substring 0 whisperIndex (String c r)), rest.
  split; [reflexivity|]. split; [exact Hrest|].
  rewrite length_substring0.
  destruct (Nat.le_gt_cases (String.length (String c r)) whisperIndex) as [Hle|Hlt]; [|lia].
  rewrite (substring_beyond whisperIndex (String c r) _ Hle) in Hsub. discriminate.
Qed.

(** A message of class [importantMsg] or [broadcastMsg] never shows its
    sender, and of its room at most the kind: the sender becomes the empty
    string and the room becomes the empty string, [whisper], [device] or
    [team], also for the user's own whisper, unless the user's name is the
    empty string.  Only [importantMsg] sets [skipTime]. *)
Theorem special_messages_are_anonymous (message : chatMessage) :
  anonymous message = true ->
  getUser <> Some EmptyString ->
  let shown := hideMessageProperties message in
  userName shown = Some EmptyString
  /\ In (roomName shown) [Some EmptyString; Some "whisper"; Some "device"; Some "team"]
  /\ extraClass shown = extraClass message
  /\ skipTime shown
     = (sameString (extraClass message) (Some "importantMsg") || skipTime message).
Proof.
  intros Hclass Huser shown. subst shown.
  assert (Hsame : sameString (Some EmptyString) getUser = false).
  { destruct getUser as [[|c u]|]; try reflexivity. congruence. }
  unfold anonymous in Hclass. unfold hideMessageProperties.
  destruct (sameString (extraClass message) (Some "importantMsg")) eqn:Himp;
    [|cbn [orb] in Hclass; rewrite Hclass];
    cbn [userName orb];
    (destruct (roomName message) as [[|c r]|];
     [| destruct (String.index 0 "-whisper" (String c r));
        [rewrite Hsame
        |destruct (contains "-device" (String c r));
         [|destruct (contains "team" (String c r))]] |]);
    cbn; repeat split; auto 6.
Qed.

End MessageLabels.

Lemma whisper_is_labelled_witness :
  roomName (hideMessageProperties (ST := Demo.user)
              (mkChat (Some "ana-whisper-rez") (Some "rez") None false))
  = Some "ana".
Proof.
  destruct (whisper_is_labelled (ST := Demo.user)
              (mkChat (Some "ana-whisper-rez") (Some "rez") None false)
              "ana-whisper-rez" 3 eq_refl eq_refl eq_refl)
    as (_ & _ & _ & Hown & _).
  destruct (Hown eq_refl) as (label & rest & Hshown & _ & _).
  vm_compute. reflexivity.
Defined.

Lemma special_messages_are_anonymous_witness :
  userName (hideMessageProperties (ST := Demo.user)
              (mkChat (Some "ana-whisper-rez") (Some "rez") (Some "broadcastMsg") false))
  = Some EmptyString.
Proof.
  apply (special_messages_are_anonymous (ST := Demo.user)
           (mkChat (Some "ana-whisper-rez") (Some "rez") (Some "broadcastMsg") false)).
  - reflexivity.
  - discriminate.
Defined.

(** ** Position tracking *)

Section TrackingFacts.

Variable number : Type.
Variable gt : number -> number -> bool.

(** The comparison is that of an ordering in which equal values are
    allowed: a chain of two strict steps is a strict step, and a value
    strictly below another is strictly below, or strictly above, any third. *)
Hypothesis gt_trans : forall a b c, gt a b = true -> gt b c = true -> gt a c = true.
Hypothesis gt_between : forall a b c, gt a b = true -> gt a c = true \/ gt c b = true.

Lemma scanPositions_spec downwards : forall start,
  exists before after,
    start :: downwards = before ++ scanPositions number gt start downwards :: after
    /\ Forall (fun q => gt (accuracy q) (accuracy (scanPositions number gt start downwards)) = true)
         before
    /\ Forall (fun q => gt (accuracy (scanPositions number gt start downwards)) (accuracy q) = false)
         after.
Proof.
  induction downwards as [|p r IH]; intros start.
  - exists [], []. repeat split; constructor.
  - cbn [scanPositions]. destruct (gt (accuracy start) (accuracy p)) eqn:Hgt.
    + destruct (IH p) as (before & after & Hsplit & Hbefore & Hafter).
      exists (start :: before), after. rewrite Hsplit at 1. split; [reflexivity|].
      split; [|exact Hafter]. constructor; [|exact Hbefore].
      destruct before as [|b before]; cbn [app] in Hsplit; injection Hsplit as Hhead Htail.
      * rewrite <- Hhead. exact Hgt.
      * subst b. inversion Hbefore; subst. eapply gt_trans; eassumption.
    + destruct (IH start) as (before & after & Hsplit & Hbefore & Hafter).
      destruct before as [|b before]; cbn [app] in Hsplit; injection Hsplit as Hhead Htail.
      * exists [], (p :: r). rewrite <- Hhead.
        split; [reflexivity|]. split; [constructor|].
        constructor; [exact Hgt|]. rewrite Hhead. rewrite Htail at 1. exact Hafter.
      * subst b. exists (start :: p :: before), after. split; [cbn [app]; do 2 f_equal; exact Htail|].
        split; [|exact Hafter]. inversion Hbefore as [|x l Hstart Hrest]; subst.
        constructor; [exact Hstart|]. constructor; [|exact Hrest].
        destruct (gt_between _ _ (accuracy p) Hstart) as [H|H]; [congruence|exact H].
Qed.

Context {ST : Storage}.

(** The position sent to the server is the most accurate of those
    collected and, among equally accurate ones, the latest: no earlier
    position has a smaller accuracy value and every later one has a larger
    one.  It is sent only for a user who is logged in, and sending empties
    the collection; otherwise nothing is sent and the collection stays. *)
Theorem most_accurate_position_is_sent (positions : list (position number)) :
  positions <> [] ->
  (getUser = None -> sendLocation gt positions = (None, positions))
  /\ (getUser <> None ->
      exists earlier best later,
        sendLocation gt positions = (Some best, [])
        /\ positions = earlier ++ best :: later
        /\ Forall (fun q => gt (accuracy best) (accuracy q) = false) earlier
        /\ Forall (fun q => gt (accuracy q) (accuracy best) = true) later).
Proof.
  intros Hne. unfold sendLocation. split.
  - intros ->. reflexivity.
  - intros Huser. destruct getUser; [|congruence]. cbn [isSome andb].
    destruct positions as [|p0 ps]; [congruence|]. cbn [List.length Nat.ltb Nat.leb].
    unfold mostAccuratePos.
    destruct (rev (p0 :: ps)) as [|lastPos downwards] eqn:Hrev.
    + apply (f_equal (@List.length _)) in Hrev. rewrite length_rev in Hrev. discriminate.
    + destruct (scanPositions_spec downwards lastPos) as (before & after & Hsplit & Hb & Ha).
      exists (rev after), (scanPositions number gt lastPos downwards), (rev before).
      split; [reflexivity|]. split; [|split].
      * rewrite <- (rev_involutive (p0 :: ps)), Hrev, Hsplit, rev_app_distr. cbn [rev].
        now rewrite <- app_assoc.
      * apply Forall_rev. exact Ha.
      * apply Forall_rev. exact Hb.
Qed.

End TrackingFacts.

Lemma most_accurate_position_is_sent_witness :
  fst (sendLocation (ST := Demo.user) Z.gtb
         [mkPosition 1 1 0 30 0 100; mkPosition 2 2 0 10 0 200; mkPosition 3 3 0 10 0 300])
  = Some (mkPosition 3 3 0 10 0 300).
Proof.
  assert (Htrans : forall a b c, (a >? b) = true -> (b >? c) = true -> (a >? c) = true)
    by (intros a b c; rewrite !Z.gtb_ltb, !Z.ltb_lt; lia).
  assert (Hbetween : forall a b c, (a >? b) = true -> (a >? c) = true \/ (c >? b) = true)
    by (intros a b c; rewrite !Z.gtb_ltb, !Z.ltb_lt; lia).
  assert (Hne : [mkPosition 1 1 0 30 0 100; mkPosition 2 2 0 10 0 200; mkPosition 3 3 0 10 0 300]
                <> []) by discriminate.
  destruct (most_accurate_position_is_sent Z Z.gtb Htrans Hbetween (ST := Demo.user) _ Hne)
    as [_ Hsent].
  destruct Hsent as (earlier & best & later & Hsend & _); [discriminate|].
  vm_compute. reflexivity.
Defined.

(** ** The auto-completion entry point *)

Section AutoCompleteFacts.

Context {CH : CommandHandler} {ST : Storage} {TT : TextTools} {CD : CommandDetails}.

(** Completing right after the name of a known command, with nothing typed
    behind it, never completes the name itself.  For a command with a
    server-side completion the server is asked with an empty partial name
    and the command's options are not looked at.  Otherwise, for a command
    with options of which none has the empty name, all first-level options
    are listed in one message and the input field stays as it is; for a
    command without options nothing happens. *)
Theorem completion_after_a_command_name (inputText name : string)
    (commandHelper : commandHelper) (found : commandDef) :
  typedPhrases inputText = [name] ->
  getCommand (completedName inputText commandHelper) = Some found ->
  (forall kind, autocomplete found = Some kind ->
     autoComplete inputText commandHelper
     = Some match socketName kind with
            | Some event => [SocketEmit event (Some EmptyString)]
            | None => []
            end)
  /\ (autocomplete found = None ->
      (forall options,
          commandOptions found = Some options -> property options EmptyString = None ->
          autoComplete inputText commandHelper
          = Some [Call (QueueMessage (textMessage [join " - " (keys options)]))])
      /\ (commandOptions found = None -> autoComplete inputText commandHelper = Some [])).
Proof.
  intros Htyped Hfound. unfold autoComplete. rewrite Htyped, Hfound.
  cbn [isSome List.length Nat.eqb andb app hd Nat.ltb Nat.leb].
  split; [|intros Hplain; split].
  - intros kind ->. reflexivity.
  - intros options Hoptions Hnone. rewrite Hplain, Hoptions.
    unfold autoCompleteOption, lastPhrase.
    change (index [name; EmptyString] 1) with (Some EmptyString).
    change (index [name; EmptyString] (Z.of_nat (List.length [name; EmptyString]) - 1))
      with (Some EmptyString).
    cbn [propertyName]. rewrite Hnone. cbn [List.length Nat.leb].
    unfold jsMatch. rewrite matchItems_empty_partial. reflexivity.
  - intros Hoptions. now rewrite Hplain, Hoptions.
Qed.

(** Option completion calls the input field and the messenger only. *)
Lemma autoCompleteOption_calls inputText phrases options calls :
  autoCompleteOption inputText phrases options = Some calls ->
  existsb triggersCommand (map Call calls) = false.
Proof.
  unfold autoCompleteOption.
  destruct (match property options _ with Some o => next o | None => None end) as [sub|].
  - destruct (jsMatch _ _) as [[|a [|b l]]|]; intros H; inversion H; subst; clear H;
      try reflexivity.
    destruct (keys sub); reflexivity.
  - destruct (Nat.leb _ 2); [|intros H; inversion H; reflexivity].
    destruct (jsMatch _ _) as [[|a [|b l]]|]; intros H; inversion H; subst; clear H;
      try reflexivity.
    destruct (lastPhrase phrases) as [[|c r]|]; reflexivity.
Qed.

(** On an empty line auto-completion triggers the help command, and does
    nothing else, when no command is found under the active command's name
    or, with none active, under the empty name.  When a command is found
    there, it triggers no command at all, the help included: whatever it
    does is a socket emit, a message or a change of the input field. *)
Theorem completion_on_an_empty_line (inputText : string) (commandHelper : commandHelper) :
  typedPhrases inputText = [EmptyString] ->
  (getCommand (completedName inputText commandHelper) = None ->
   autoComplete inputText commandHelper = Some [Call (TriggerCommand (CmdName "help") None)])
  /\ (forall found effects,
        getCommand (completedName inputText commandHelper) = Some found ->
        autoComplete inputText commandHelper = Some effects ->
        existsb triggersCommand effects = false
        /\ ~ In (Call (TriggerCommand (CmdName "help") None)) effects).
Proof.
  intros Htyped. split.
  - unfold autoComplete. rewrite Htyped. intros ->. reflexivity.
  - intros found effects Hfound Hrun.
    assert (Hnone : existsb triggersCommand effects = false).
    { revert Hrun. unfold autoComplete. rewrite Htyped, Hfound.
      cbn [isSome List.length Nat.eqb andb app hd Nat.ltb Nat.leb].
      destruct (autocomplete found) as [kind|].
      - intros H. inversion H; subst; clear H. destruct kind; reflexivity.
      - destruct (commandOptions found) as [options|];
          [|intros H; inversion H; reflexivity].
        destruct (autoCompleteOption inputText [EmptyString; EmptyString] options)
          as [calls|] eqn:Hcalls; cbn [option_map]; [|discriminate].
        intros H. inversion H; subst; clear H.
        now apply (autoCompleteOption_calls inputText [EmptyString; EmptyString] options). }
    split; [exact Hnone|]. intros Hin.
    assert (Hsome : existsb triggersCommand effects = true)
      by (apply existsb_exists; eexists; split; [exact Hin|reflexivity]).
    congruence.
Qed.

End AutoCompleteFacts.

Lemma completion_after_a_command_name_witness :
  autoComplete (CH := Demo.handler) (ST := Demo.user) (TT := Demo.textTools)
    (CD := Demo5.details) "Login" initialHelper
  = Some [Call (QueueMessage (textMessage ["guest - admin"]))].
Proof.
  destruct (completion_after_a_command_name (CH := Demo.handler) (ST := Demo.user)
              (TT := Demo.textTools) (CD := Demo5.details)
              "Login" "login" initialHelper (mkCommand "login" None true true)
              eq_refl eq_refl) as [_ Hoptions].
  destruct (Hoptions eq_refl) as [Hlist _].
  exact (Hlist [("guest", OptionNode None); ("admin", OptionNode None)] eq_refl eq_refl).
Defined.

Lemma completion_on_an_empty_line_witness :
  autoComplete (CH := Demo.handler) (ST := Demo.user) (TT := Demo.textTools)
    (CD := Demo5.details) "  " initialHelper
  = Some [Call (TriggerCommand (CmdName "help") None)].
Proof.
  apply (completion_on_an_empty_line (CH := Demo.handler) (ST := Demo.user)
           (TT := Demo.textTools) (CD := Demo5.details) "  " initialHelper eq_refl).
  reflexivity.
Defined.

(** ** How a submission ends *)

Lemma snoc3 {A} (l : list A) a b c : ((l ++ [a]) ++ [b]) ++ [c] = l ++ [a; b; c].
Proof. now rewrite <- !app_assoc. Qed.

Section SubmissionEnd.

Context {CH : CommandHandler} {ST : Storage} {DM : DomManipulator}
        {TT : TextTools} {LB : Labels}.

Ltac end_leaf :=
  crunch;
  (split; [reflexivity|]);
  split;
  [ intros H; first [discriminate H | split; [reflexivity | eexists; apply snoc3]]
  | intros H; first [discriminate H | reflexivity] ].

(** Every submission marks the key as held.  One that ends normally, in
    whichever branch, ends by removing the sub-menu, clearing the input
    field and clearing the mode text, with the history pointer behind the
    last entry of the log.  One that ends with a [TypeError] has done
    nothing else: the line stays in the input field. *)
Theorem submission_ends_with_a_clear_line (inputText : string) (s : state) :
  let r := fst (enterKeyHandler inputText s) in
  let s' := snd (enterKeyHandler inputText s) in
  keyPressed s' = true
  /\ (r = Normal ->
      previousCommandPointer s' = Z.of_nat (List.length (commandHistory s'))
      /\ exists earlier,
           log s' = earlier ++ [(now s, RemoveSubMenu); (now s, ClearInput);
                                (now s, ClearModeText)])
  /\ (r = TypeError -> s' = set_keyPressed true s).
Proof.
  destruct s as [cq cu sq sto pcp kp cp ap [c st fb kb hi] ch nw tm nid lg].
  cbv zeta. unfold enterKeyHandler, resolveCommand, notRun.
  cbv [bind gets modify fst snd]. state_fields.
  destruct kb; cbn [negb]; [end_leaf|].
  destruct c as [active|].
  - destruct (_ || _)%bool; [end_leaf|]. destruct hi; end_leaf.
  - destruct (Nat.ltb 0 _); [|destruct (printUsedCommand false " "); end_leaf].
    destruct (if negb getDisableCommands then _ else None) as [command|].
    + destruct (accessAllowed (accessLevel command)).
      * destruct (clearBeforeUse command), cu, cq as [|[c0 d0 [m0|]] cq],
          (printUsedCommand (clearAfterUse command) inputText); end_leaf.
      * destruct (isSome getUser && (getMode =? "chat")%string && true).
        -- destruct (negb _); [|end_leaf].
           destruct (getCommand "msg"); [|end_leaf].
           destruct cu, cq as [|[c0 d0 [m0|]] cq]; end_leaf.
        -- destruct (negb (isSome getUser)); end_leaf.
    + destruct (isSome getUser && (getMode =? "chat")%string && true).
      * destruct (negb _); [|end_leaf].
        destruct (getCommand "msg"); [|end_leaf].
        destruct cu, cq as [|[c0 d0 [m0|]] cq]; end_leaf.
      * destruct (negb (isSome getUser)); end_leaf.
Qed.

(** The answers of the server to a multi-step command reach the session
    and nothing else: success, failure and step change the command helper
    and add to the log; the queue, the history, the key flags, the timers
    and the morse scheduler stay as they are. *)
Theorem session_events_touch_only_the_session (s : state) :
  (forall params, exists h added,
      exec (onCommandSuccess params) s = set_log (log s ++ added) (set_helper h s))
  /\ (exists h added, exec onCommandFail s = set_log (log s ++ added) (set_helper h s))
  /\ (forall cmdParams, exists h added,
        exec (onCommandStep cmdParams) s = set_log (log s ++ added) (set_helper h s)).
Proof.
  destruct s as [cq cu sq sto pcp kp cp ap [c st fb kb hi] ch nw tm nid lg].
  split; [|split].
  - intros [[] [] d]; unfold onCommandSuccess; cbn [noStepCall freezeStep newData negb];
      crunch; rewrite <- ?app_assoc; eexists; eexists; reflexivity.
  - unfold onCommandFail. destruct c as [active|]; crunch; rewrite <- ?app_assoc.
    + eexists; eexists; reflexivity.
    + eexists; exists []; rewrite app_nil_r; reflexivity.
  - intros d. unfold onCommandStep. crunch. rewrite <- ?app_assoc. eexists; eexists; reflexivity.
Qed.

(** The dispatcher never runs twice and never strands a command: in every
    state the terminal can reach at most one timer of the dispatcher is
    pending; whenever a command waits in the queue the busy flag is set
    and exactly one such timer is pending, not overdue; and with the busy
    flag clear the queue is empty and no such timer is pending. *)
Theorem dispatcher_has_one_timer (s : state) :
  reachable s ->
  (List.length (filter isConsume (timers s)) <= 1)%nat
  /\ (commandQueue s <> [] ->
      commmandUsed s = true
      /\ exists c, filter isConsume (timers s) = [c] /\ now s <= fireAt c)
  /\ (commmandUsed s = false ->
      commandQueue s = [] /\ filter isConsume (timers s) = []).
Proof.
  intros Hreach.
  destruct (reachable_wellFormed s Hreach) as (_ & pending & Hphase).
  destruct Hphase as [c Hbusy Hone Hnow | Hq Hidle Hnone].
  - rewrite Hone. split; [cbn; lia|]. split.
    + intros _. split; [exact Hbusy|]. now exists c.
    + congruence.
  - rewrite Hnone. split; [cbn; lia|]. split; [congruence|]. intros _. now split.
Qed.

End SubmissionEnd.

Lemma dispatcher_has_one_timer_witness :
  commmandUsed
    (exec (enterKeyHandler (CH := Demo.handler) (ST := Demo.user) (DM := Demo.dom)
             (TT := Demo.textTools) (LB := Demo.labels) "follow room")
       (exec (enterKeyHandler (CH := Demo.handler) (ST := Demo.user) (DM := Demo.dom)
                (TT := Demo.textTools) (LB := Demo.labels) "help") initialState))
  = true.
Proof.
  apply (dispatcher_has_one_timer (CH := Demo.handler) (ST := Demo.user) (DM := Demo.dom)
           (TT := Demo.textTools) (LB := Demo.labels)).
  - eapply ReachStep; [|apply StepEnter].
    eapply ReachStep; [|apply StepEnter].
    apply ReachLoaded. repeat split.
  - vm_compute. discriminate.
Defined.

(** ** Coming to rest *)

Section Rest.

Context {CH : CommandHandler} {ST : Storage} {DM : DomManipulator}
        {TT : TextTools} {LB : Labels}.

(** Every timer that fires takes one unit of the pending work. *)
Lemma fire_work s s' : fireTimer s = Some s' -> pendingWork s = S (pendingWork s').
Proof.
  unfold fireTimer. destruct (nextTimer (timers s)) as [[u rest]|] eqn:Hnext; [|discriminate].
  intros Hfire. inversion Hfire; subst s'; clear Hfire.
  destruct (nextTimer_spec _ _ _ Hnext) as (l1 & l2 & Hts & Hrest & _).
  assert (Hlen : List.length (timers s) = S (List.length rest)).
  { rewrite Hts, Hrest, !length_app. cbn [List.length]. lia. }
  unfold pendingWork. rewrite Hlen. clear Hnext Hts Hrest.
  destruct s as [cq cu sq sto pcp kp cp ap h ch nw tm nid lg].
  destruct (timerCb u) as [v|n m [|]|]; try reflexivity.
  cbn [runCallback]. unfold consumeCommandQueue.
  destruct cq as [|[tc td [tmsg|]] cq]; crunch; cbn [timers commandQueue List.length];
    rewrite ?length_app; cbn [List.length]; lia.
Qed.

Lemma runTimers_rest n : forall s, (pendingWork s <= n)%nat -> timers (runTimers n s) = [].
Proof.
  induction n as [|n IH]; intros s Hn.
  - cbn [runTimers]. unfold pendingWork in Hn. destruct (timers s); [reflexivity|cbn in Hn; lia].
  - cbn [runTimers]. destruct (fireTimer s) as [s'|] eqn:Hfire.
    + apply IH. rewrite (fire_work s s' Hfire) in Hn. lia.
    + unfold fireTimer in Hfire.
      destruct (nextTimer (timers s)) as [[u rest]|] eqn:Hnext; [discriminate|].
      now apply nextTimer_none.
Qed.

Lemma runTimers_steps s0 n : forall s, steps s0 s -> steps s0 (runTimers n s).
Proof.
  induction n as [|n IH]; intros s Hs; cbn [runTimers]; [exact Hs|].
  destruct (fireTimer s) as [s'|] eqn:Hfire; [|exact Hs].
  apply IH. eapply StepsStep; [exact Hs|]. now apply StepTimer.
Qed.

(** Left alone, the terminal comes to rest.  From any state it can get to
    after the page has loaded with the tone off, firing the pending timers
    one after the other, as many times as there are pending timers and
    queued commands, leaves no timer pending, no command queued, the busy
    flag clear, the sound queue empty and the tone off. *)
Theorem terminal_comes_to_rest (s0 s : state) :
  loaded s0 -> gainNow (log s0) <> 1 -> steps s0 s ->
  let rest := runTimers (pendingWork s) s in
  atRest rest /\ gainNow (log rest) <> 1.
Proof.
  intros H0 Hg0 Hs rest.
  assert (Hsteps : steps s0 rest) by (apply runTimers_steps; exact Hs).
  assert (Htimers : timers rest = []) by (apply runTimers_rest; lia).
  pose proof (steps_reachable s0 rest H0 Hsteps) as Hreach.
  destruct (reachable_wellFormed rest Hreach) as (_ & pending & Hphase).
  pose proof (reachable_covered rest Hreach) as Hcov.
  destruct (steps_toneGuarded s0 rest H0 Hg0 Hsteps) as [_ Htone].
  unfold soundQueueCovered in Hcov. rewrite Htimers in Hcov, Htone.
  split.
  - split; [exact Htimers|].
    destruct Hphase as [c _ Hone _ | Hq Hidle _]; [rewrite Htimers in Hone; discriminate|].
    split; [exact Hq|]. split; [exact Hidle|].
    destruct (soundQueue rest); [reflexivity|cbn in Hcov; lia].
  - intros Hg. specialize (Htone Hg). cbn in Htone. lia.
Qed.

End Rest.

Lemma terminal_comes_to_rest_witness :
  atRest
    (runTimers (CH := Demo.handler) 6
       (exec (enterKeyHandler (CH := Demo.handler) (ST := Demo.user) (DM := Demo.dom)
                (TT := Demo.textTools) (LB := Demo.labels) "help")
          (exec (playMorse ".-" false) initialState))).
Proof.
  assert (H0 : loaded initialState) by (repeat split).
  assert (Hg : gainNow (log initialState) <> 1) by (cbn; lia).
  apply (terminal_comes_to_rest (CH := Demo.handler) (ST := Demo.user) (DM := Demo.dom)
           (TT := Demo.textTools) (LB := Demo.labels) initialState
           (exec (enterKeyHandler (CH := Demo.handler) (ST := Demo.user) (DM := Demo.dom)
                    (TT := Demo.textTools) (LB := Demo.labels) "help")
              (exec (playMorse ".-" false) initialState)) H0 Hg).
  eapply StepsStep; [|apply StepEnter].
  eapply StepsStep; [|apply StepPlayMorse].
  apply StepsRefl.
Defined.

(** ** Playbacks in a row *)

Lemma playMorse_registered morseCode silent s :
  0 <= soundTimeout s ->
  registeredSince s (exec (playMorse morseCode silent) s)
  = map gainEvent (timeline (startCursor s) (chars morseCode))
    ++ [(finalCursor (startCursor s) (chars morseCode),
         CbFinishSoundQueue (2 * jsLength morseCode) morseCode silent)].
Proof.
  intros Hpos.
  assert (Hstart : 0 <= startCursor s) by (unfold startCursor; destruct (soundQueue s); lia).
  pose proof (timeline_ge (chars morseCode) (startCursor s)) as Hge.
  pose proof (finalCursor_ge (chars morseCode) (startCursor s)) as Hfin.
  pose proof (playMorse_run morseCode silent s) as Hrun. cbv zeta in Hrun.
  rewrite (registeredSince_app s _ _ (f_equal timers Hrun)).
  rewrite map_app, gainTimers_offsets.
  - cbn [map cleanupTimer fireAt timerCb]. do 3 f_equal.
    rewrite Z.max_r by lia. lia.
  - eapply Forall_impl; [|exact Hge]. cbn beta. intros ev ?. lia.
Qed.

(** Two playbacks requested one after the other.  When the first one puts
    a pulse into the sound queue, or the queue was not empty, the second
    one starts where the first one ended: none of its gain events comes
    before the end of the first.  When the first one consists of pauses
    only and the queue was empty, the queue stays empty and the second one
    starts at offset 0, as if the first had not been requested. *)
Theorem playbacks_follow_each_other (first second : string) (silent1 silent2 : bool)
    (s : state) :
  0 <= soundTimeout s ->
  let s1 := exec (playMorse first silent1) s in
  let s2 := exec (playMorse second silent2) s1 in
  let end1 := finalCursor (startCursor s) (chars first) in
  let registered start :=
    map gainEvent (timeline start (chars second))
    ++ [(finalCursor start (chars second),
         CbFinishSoundQueue (2 * jsLength second) second silent2)] in
  (soundQueue s <> [] \/ pulseCount (chars first) <> 0%nat ->
   registeredSince s1 s2 = registered end1
   /\ Forall (fun ev => end1 <= fst ev) (timeline end1 (chars second))
   /\ Forall (fun ev => fst ev <= end1) (timeline (startCursor s) (chars first)))
  /\ (soundQueue s = [] -> pulseCount (chars first) = 0%nat ->
      soundQueue s1 = [] /\ registeredSince s1 s2 = registered 0).
Proof.
  intros Hpos s1 s2 end1 registered.
  assert (Hstart : 0 <= startCursor s) by (unfold startCursor; destruct (soundQueue s); lia).
  pose proof (finalCursor_ge (chars first) (startCursor s)) as Hend. fold end1 in Hend.
  pose proof (playMorse_run first silent1 s) as Hrun. cbv zeta in Hrun. fold s1 end1 in Hrun.
  assert (Hq1 : List.length (soundQueue s1)
                = (List.length (soundQueue s) + 2 * pulseCount (chars first))%nat).
  { rewrite Hrun. cbn [soundQueue].
    now rewrite length_app, length_map, length_gainTimers, length_timeline. }
  assert (Hc1 : soundTimeout s1 = end1) by (rewrite Hrun; reflexivity).
  assert (Hreg : registeredSince s1 s2 = registered (startCursor s1)).
  { subst s2 registered. cbv beta. apply playMorse_registered. lia. }
  split.
  - intros Hsome.
    assert (Hs1 : startCursor s1 = end1).
    { unfold startCursor. destruct (soundQueue s1) eqn:Hsq; [|exact Hc1].
      cbn [List.length] in Hq1. destruct Hsome as [Hs|Hp]; [|lia].
      destruct (soundQueue s); [congruence|cbn [List.length] in Hq1; lia]. }
    rewrite Hreg, Hs1. split; [reflexivity|]. split.
    + eapply Forall_impl; [|apply (timeline_ge (chars second) end1)].
      cbn beta. intros ev ?. lia.
    + eapply Forall_impl; [|apply (timeline_ge (chars first) (startCursor s))].
      cbn beta. fold end1. intros ev ?. lia.
  - intros Hq Hp. rewrite Hq, Hp in Hq1. cbn in Hq1.
    assert (Hsq : soundQueue s1 = []) by (destruct (soundQueue s1); [reflexivity|discriminate]).
    split; [exact Hsq|]. rewrite Hreg. unfold startCursor. now rewrite Hsq.
Qed.

Lemma playbacks_follow_each_other_witness :
  registeredSince (exec (playMorse "#" true) initialState)
    (exec (playMorse "." true) (exec (playMorse "#" true) initialState))
  = [(0, CbSetGain 1); (50, CbSetGain 0); (50, CbFinishSoundQueue 2 "." true)].
Proof.
  assert (Hpos : 0 <= soundTimeout initialState) by (cbn; lia).
  destruct (playbacks_follow_each_other "#" "." true true initialState Hpos) as [_ Hpause].
  destruct (Hpause eq_refl eq_refl) as [_ Hreg].
  exact Hreg.
Defined.

(** ** Ctrl and the arrow keys *)

Section CtrlKeys.

Context {CH : CommandHandler} {ST : Storage} {DM : DomManipulator}
        {TT : TextTools} {LB : Labels}.

(** Ctrl and the three command keys share one flag: pressing any of them
    sets it without marking a key as held, and releasing any of them
    clears it.  While it is set the arrow keys scroll the view by a full
    page, up or down, and leave the history pointer and the input field
    alone. *)
Theorem ctrl_turns_arrows_into_scrolling (k k' : specialKey) (down : bool)
    (inputText inputText' : string) (s : state) :
  keyPressed s = false -> isCtrlKey k = true -> isCtrlKey k' = true ->
  let s1 := exec (specialKeyPress k inputText) s in
  let s2 := exec (specialKeyPress (if down then DownArrow else UpArrow) inputText') s1 in
  ctrlPressed s1 = true /\ keyPressed s1 = false
  /\ events (logSince s1 s2)
     = [FocusInput; RemoveSubMenu; ScrollText down true; PreventDefault]
  /\ previousCommandPointer s2 = previousCommandPointer s
  /\ commandHistory s2 = commandHistory s
  /\ ctrlPressed (exec (keyReleased k' inputText') s2) = false.
Proof.
  intros Hkp Hk Hk' s1 s2.
  destruct s as [cq cu sq sto pcp kp cp ap h ch nw tm nid lg]. cbn in Hkp. subst kp.
  assert (Hs1 : s1 = mkState cq cu sq sto pcp false true ap h ch nw tm nid
                       ((lg ++ [(nw, FocusInput)]) ++ [(nw, RemoveSubMenu)])).
  { subst s1. destruct k; try discriminate; reflexivity. }
  assert (Hs2 : s2 = mkState cq cu sq sto pcp true true ap h ch nw tm nid
                       (log s1 ++ [(nw, FocusInput); (nw, RemoveSubMenu);
                                   (nw, ScrollText down true); (nw, PreventDefault)])).
  { subst s2. rewrite Hs1. destruct down; unfold specialKeyPress, upArrow, downArrow;
      cbv [exec bind emit modify gets when ret fst snd negb]; state_fields;
      rewrite <- !app_assoc; reflexivity. }
  split; [now rewrite Hs1|]. split; [now rewrite Hs1|].
  split; [rewrite (logSince_app s1 s2 _ (f_equal log Hs2)); reflexivity|].
  split; [now rewrite Hs2|]. split; [now rewrite Hs2|].
  rewrite Hs2. unfold keyReleased.
  destruct k'; try discriminate; destruct (Nat.eqb (String.length inputText') 0); reflexivity.
Qed.

End CtrlKeys.

Lemma ctrl_turns_arrows_into_scrolling_witness :
  previousCommandPointer
    (exec (specialKeyPress (CH := Demo.handler) (ST := Demo.user) (DM := Demo.dom)
             (TT := Demo.textTools) (LB := Demo.labels) UpArrow "")
       (exec (specialKeyPress (CH := Demo.handler) (ST := Demo.user) (DM := Demo.dom)
                (TT := Demo.textTools) (LB := Demo.labels) LeftCommand "") historyABC))
  = 3.
Proof.
  apply (ctrl_turns_arrows_into_scrolling (CH := Demo.handler) (ST := Demo.user) (DM := Demo.dom)
           (TT := Demo.textTools) (LB := Demo.labels)
           LeftCommand Ctrl false "" "" historyABC eq_refl eq_refl eq_refl).
Defined.
